(** * Forecasting Studio: backtest and walk-forward engine

    A shallow embedding of [app/strategies.py] and [app/utils.py].

    Numbers are IEEE-754 binary64 values, as Python and NumPy have them:
    every arithmetic operator of the source is the corresponding primitive
    float operation, so NaN, infinities, signed zeros and rounding behave as
    they do in the program.  pandas' column operations are written out on
    lists, one function per method the source calls; [mean] and [std] sum
    from left to right, the rolling mean is pandas' running compensated
    sum.  Timestamps are instants (datetime64 nanoseconds, a [Z]).  The
    source renders them with [.dt.isoformat()]; pandas' [.dt] accessor has
    no such method, so that call raises [AttributeError], and it is
    modelled as raising. *)

From Stdlib Require Import Floats ZArith String Ascii Bool Lia PeanoNat List
  Sorted Permutation.
From Stdlib Require Reals Lra.
From Stdlib Require Uint63.
Import ListNotations.

Local Open Scope float_scope.

(** ** Outcomes of fallible code *)

Inductive exn : Type :=
| ValueError (msg : string)
| TypeError (msg : string)
| AttributeError (msg : string)
| IndexError.

(** [OutOfFuel] is only produced by the bounded unrolling of the
    [while True] loop of [run_walkforward]. *)
Inductive result (A : Type) : Type :=
| Ok (a : A)
| Raise (e : exn)
| OutOfFuel.

Arguments Ok {A} a.
Arguments Raise {A} e.
Arguments OutOfFuel {A}.

Definition bind {A B : Type} (r : result A) (k : A -> result B) : result B :=
  match r with
  | Ok a => k a
  | Raise e => Raise e
  | OutOfFuel => OutOfFuel
  end.

Notation "x <- r ;; k" := (bind r (fun x => k))
  (at level 61, r at next level, right associativity).

(** ** float64 helpers *)

Module F64.

(** [int64 -> float64] conversion, round to nearest even. *)
Definition of_Z (z : Z) : float :=
  match z with
  | Z0 => 0
  | Zpos _ => PrimFloat.of_uint63 (Uint63.of_Z z)
  | Zneg p => - PrimFloat.of_uint63 (Uint63.of_Z (Zpos p))
  end.

Definition of_nat (n : nat) : float := of_Z (Z.of_nat n).

(** Python's [a > b]. *)
Definition gt (a b : float) : bool := PrimFloat.ltb b a.

(** Python's builtin [max(a, b)]: the second argument replaces the first
    only when it compares strictly greater. *)
Definition pymax (a b : float) : float := if gt b a then b else a.

(** [sum]: accumulation from the left, starting at [0.0]. *)
Definition sum (xs : list float) : float := fold_left PrimFloat.add xs 0.

(** [np.sqrt(252)]. *)
Definition sqrt252 : float := PrimFloat.sqrt 252.

(** The literals [1e-9] and [-1e9] of [run_walkforward]; the first is the
    binary64 value nearest to the decimal. *)
Definition eps : float := 0x1.12e0be826d695p-30.
Definition sentinel : float := -1000000000.

End F64.

(** ** pandas Series operations used by the source *)

Module Series.

Definition notna (x : float) : bool := negb (PrimFloat.is_nan x).

Definition dropna (xs : list float) : list float := filter notna xs.

(** [.fillna(0)] *)
Definition fillna0 (xs : list float) : list float :=
  map (fun x => if PrimFloat.is_nan x then 0 else x) xs.

(** [.shift(1)]: a leading NaN, the last value dropped. *)
Definition shift1 (xs : list float) : list float :=
  match xs with
  | [] => []
  | _ :: _ => nan :: removelast xs
  end.

Fixpoint pct_change_from (prev : float) (xs : list float) : list float :=
  match xs with
  | [] => []
  | x :: r => (x / prev - 1) :: pct_change_from x r
  end.

(** [.pct_change()]: [x[t] / x[t-1] - 1], NaN at the first row. *)
Definition pct_change (xs : list float) : list float :=
  match xs with
  | [] => []
  | x :: r => nan :: pct_change_from x r
  end.

Fixpoint diff_from (prev : float) (xs : list float) : list float :=
  match xs with
  | [] => []
  | x :: r => (x - prev) :: diff_from x r
  end.

(** [.diff()] *)
Definition diff (xs : list float) : list float :=
  match xs with
  | [] => []
  | x :: r => nan :: diff_from x r
  end.

Fixpoint cumprod_from (acc : float) (xs : list float) : list float :=
  match xs with
  | [] => []
  | x :: r =>
      if PrimFloat.is_nan x then nan :: cumprod_from acc r
      else let a := acc * x in a :: cumprod_from a r
  end.

(** [.cumprod()]: NaN rows stay NaN and are skipped by the running
    product. *)
Definition cumprod (xs : list float) : list float := cumprod_from 1 xs.

Fixpoint cummax_from (acc : float) (xs : list float) : list float :=
  match xs with
  | [] => []
  | x :: r =>
      if PrimFloat.is_nan x then nan :: cummax_from acc r
      else let a := if PrimFloat.ltb acc x then x else acc in
           a :: cummax_from a r
  end.

(** [.cummax()] *)
Definition cummax (xs : list float) : list float :=
  cummax_from neg_infinity xs.

(** [.min()], NaN skipped; NaN when nothing is left. *)
Definition min (xs : list float) : float :=
  match dropna xs with
  | [] => nan
  | v :: r => fold_left (fun m x => if PrimFloat.ltb x m then x else m) r v
  end.

(** [.mean()], NaN skipped. *)
Definition mean (xs : list float) : float :=
  let vals := dropna xs in
  F64.sum vals / F64.of_nat (length vals).

(** [.var()] with the default [ddof=1]: undefined (NaN) unless at least
    two values are present. *)
Definition var (xs : list float) : float :=
  let vals := dropna xs in
  let count := length vals in
  if (count <=? 1)%nat then nan
  else
    let avg := F64.sum vals / F64.of_nat count in
    let sqr := map (fun v => (avg - v) * (avg - v)) vals in
    F64.sum sqr / F64.of_nat (count - 1).

(** [.std()] *)
Definition std (xs : list float) : float := PrimFloat.sqrt (var xs).

(** Element-wise binary operator on two columns of one frame. *)
Fixpoint zip_with (f : float -> float -> float) (xs ys : list float)
  : list float :=
  match xs, ys with
  | x :: xs', y :: ys' => f x y :: zip_with f xs' ys'
  | _, _ => []
  end.

(** Boolean-mask selection [d.loc[mask, col]]. *)
Fixpoint select (mask : list bool) (xs : list float) : list float :=
  match mask, xs with
  | m :: mask', x :: xs' =>
      if m then x :: select mask' xs' else select mask' xs'
  | _, _ => []
  end.

(** [.dt.isoformat()] on a timestamp column.  The [.dt] accessor of a
    datetime column offers [strftime], [normalize], [round] and the
    like, but no [isoformat] (only a scalar [Timestamp] has it), and a
    column that is not datetime-like has no [.dt] at all: whatever the
    column holds, the attribute lookup raises. *)
Definition dt_isoformat (timestamps : list Z) : result (list string) :=
  Raise (AttributeError "no attribute 'isoformat'").

End Series.

(** ** Metrics *)

Record BacktestReport : Type := mkReport {
  total_return : float;
  sharpe : float;
  max_drawdown : float;
  win_rate : float;
  trades : nat
}.

Definition compute_metrics (equity_curve trade_returns : list float)
  : result BacktestReport :=
  let ret := Series.fillna0 (Series.pct_change equity_curve) in
  let vol := Series.std ret in
  let sharpe :=
    if PrimFloat.eqb vol 0 || PrimFloat.is_nan vol then 0
    else (Series.mean ret / vol) * F64.sqrt252 in
  match equity_curve with
  | [] => Raise IndexError (* equity_curve.iloc[0] *)
  | e0 :: _ =>
      let cum := map (fun e => e / e0) equity_curve in
      let roll_max := Series.cummax cum in
      let dd :=
        Series.min (Series.zip_with (fun c m => c / m - 1) cum roll_max) in
      let wins := length (filter (fun r => F64.gt r 0) trade_returns) in
      let trades := length trade_returns in
      let win_rate :=
        if (0 <? trades)%nat then F64.of_nat wins / F64.of_nat trades else 0 in
      let total_return := last cum nan - 1 in
      Ok (mkReport total_return sharpe dd win_rate trades)
  end.

(** ** Strategies ([app/strategies.py]) *)

(** One observation of the price frame. *)
Record row : Type := mkRow { timestamp : Z; close : float }.

Definition DataFrame : Type := list row.

(** One row of a signal frame: [['timestamp', 'signal']]. *)
Definition SignalFrame : Type := list (Z * Z).

(** Values a parameter may take in a request: an integer or anything else
    (the second fails [isinstance(_, int)]). *)
Inductive pyval : Type :=
| PyInt (z : Z)
| PyOther (repr : string).

(** A keyword dictionary, in insertion order. *)
Definition params : Type := list (string * pyval).

Fixpoint dict_get {V : Type} (k : string) (d : list (string * V)) : option V :=
  match d with
  | [] => None
  | (k', v) :: d' => if String.eqb k k' then Some v else dict_get k d'
  end.

(** The capability every strategy implements. *)
Record Strategy : Type := mkStrategy {
  generate_signals : DataFrame -> SignalFrame
}.

(** [_REGISTRY]: name to class; a class is called with the parameter
    dictionary unpacked as keyword arguments. *)
Definition Registry : Type := list (string * (params -> result Strategy)).

Definition create_strategy (reg : Registry) (name : string) (p : params)
  : result Strategy :=
  match dict_get name reg with
  | None => Raise (ValueError "Unknown strategy")
  | Some cls => cls p
  end.

(** ** pandas' rolling mean

    [Series.rolling(window, min_periods).mean()] for a fixed window:
    infinities are turned into NaN, then one pass keeps a running sum of
    the values in the window, with Kahan compensation, adding the row that
    enters and removing the row that leaves. *)

Module Rolling.

Record mean_state : Type := mkMeanState {
  nobs : Z;
  sum_x : float;
  neg_ct : Z;
  compensation_add : float;
  compensation_remove : float;
  num_consecutive_same_value : Z;
  prev_value : float
}.

(** [_prep_values]: "Convert inf to nan for C funcs". *)
Definition prep_values (values : list float) : list float :=
  map (fun v => if PrimFloat.is_infinity v then nan else v) values.

(** [add_mean]: a NaN is skipped. *)
Definition add_mean (val : float) (st : mean_state) : mean_state :=
  if PrimFloat.is_nan val then st
  else
    let y := val - compensation_add st in
    let t := sum_x st + y in
    mkMeanState
      (nobs st + 1)
      t
      (if PrimFloat.get_sign val then neg_ct st + 1 else neg_ct st)%Z
      (t - sum_x st - y)
      (compensation_remove st)
      (if PrimFloat.eqb val (prev_value st)
       then num_consecutive_same_value st + 1 else 1)%Z
      val.

(** [remove_mean] *)
Definition remove_mean (val : float) (st : mean_state) : mean_state :=
  if PrimFloat.is_nan val then st
  else
    let y := - val - compensation_remove st in
    let t := sum_x st + y in
    mkMeanState
      (nobs st - 1)
      t
      (if PrimFloat.get_sign val then neg_ct st - 1 else neg_ct st)%Z
      (compensation_add st)
      (t - sum_x st - y)
      (num_consecutive_same_value st)
      (prev_value st).

(** [calc_mean]: a window of one repeated value answers that value; a
    mean of the wrong sign is replaced by 0. *)
Definition calc_mean (minp : Z) (st : mean_state) : float :=
  if ((minp <=? nobs st) && (0 <? nobs st))%Z then
    let result := sum_x st / F64.of_Z (nobs st) in
    if (nobs st <=? num_consecutive_same_value st)%Z then prev_value st
    else if (neg_ct st =? 0)%Z && PrimFloat.ltb result 0 then 0
    else if (neg_ct st =? nobs st)%Z && PrimFloat.ltb 0 result then 0
    else result
  else nan.

(** Bounds of the window of row [i]: [end[i] = i + 1] and
    [start[i] = max(i + 1 - window, 0)]. *)
Definition window_start (window : Z) (i : nat) : nat :=
  Z.to_nat (Z.max 0 (Z.of_nat i + 1 - window)).

(** Rows [a], ..., [b - 1] of a column. *)
Definition rows (values : list float) (a b : nat) : list float :=
  firstn (b - a) (skipn a values).

Definition setup (first : float) : mean_state :=
  mkMeanState 0 0 0 0 0 0 first.

(** The body of the loop over the rows, for row [i]. *)
Definition roll_step (window : Z) (values : list float) (i : nat)
  (st : mean_state) : mean_state :=
  let s := window_start window i in
  let e := S i in
  if (i =? 0)%nat || (i <=? s)%nat (* i == 0 or s >= end[i - 1] *)
  then
    fold_left (fun st v => add_mean v st) (rows values s e)
              (setup (nth s values nan))
  else
    let st := fold_left (fun st v => remove_mean v st)
                        (rows values (window_start window (i - 1)) s) st in
    fold_left (fun st v => add_mean v st) (rows values i e) st.

Fixpoint roll_rows (window minp : Z) (values : list float)
  (todo : list nat) (st : mean_state) : list float :=
  match todo with
  | [] => []
  | i :: todo' =>
      let st' := roll_step window values i st in
      calc_mean minp st' :: roll_rows window minp values todo' st'
  end.

(** [roll_mean] *)
Definition roll_mean (window minp : Z) (values : list float) : list float :=
  roll_rows window minp values (seq 0 (length values)) (setup nan).

End Rolling.

Module SmaCross.

(** [.rolling(window, min_periods=1).mean()] *)
Definition rolling_mean (window : Z) (xs : list float) : list float :=
  Rolling.roll_mean window 1 (Rolling.prep_values xs).

Definition signal_of (sma_fast sma_slow : float) : Z :=
  let s := 0%Z in
  let s := if F64.gt sma_fast sma_slow then 1%Z else s in
  let s := if PrimFloat.ltb sma_fast sma_slow then (-1)%Z else s in
  s.

Fixpoint signals (ts : list Z) (sma_fast sma_slow : list float)
  : SignalFrame :=
  match ts, sma_fast, sma_slow with
  | t :: ts', f :: fs, s :: ss => (t, signal_of f s) :: signals ts' fs ss
  | _, _, _ => []
  end.

Definition generate_signals (fast slow : Z) (df : DataFrame) : SignalFrame :=
  let closes := map close df in
  let sma_fast := rolling_mean fast closes in
  let sma_slow := rolling_mean slow closes in
  signals (map timestamp df) sma_fast sma_slow.

Definition known_keyword (k : string) : bool :=
  String.eqb k "fast" || String.eqb k "slow".

(** Construction from a keyword dictionary: keyword binding (defaults
    [fast=10], [slow=30]), then [__init__]. *)
Definition init (p : params) : result Strategy :=
  if negb (forallb (fun kv => known_keyword (fst kv)) p)
  then Raise (TypeError "unexpected keyword argument")
  else
    let fast := match dict_get "fast" p with Some v => v | None => PyInt 10 end in
    let slow := match dict_get "slow" p with Some v => v | None => PyInt 30 end in
    match fast, slow with
    | PyInt f, PyInt s =>
        if (f <? 1)%Z || (s <? 1)%Z
        then Raise (ValueError "fast and slow must be >= 1")
        else Ok (mkStrategy (generate_signals f s))
    | _, _ => Raise (ValueError "fast and slow must be integers")
    end.

End SmaCross.

(** The registry after [app.main] is imported. *)
Definition REGISTRY : Registry := [("sma_cross"%string, SmaCross.init)].

(** ** Backtest ([run_backtest]) *)

(** [df.merge(sig, on='timestamp', how='left')]: rows of [df] in order, each
    paired with every signal row of the same timestamp, or with a missing
    signal when there is none. *)
Definition merge_left (df : DataFrame) (sig : SignalFrame)
  : list (row * option Z) :=
  flat_map
    (fun r =>
       match filter (fun s => Z.eqb (fst s) (timestamp r)) sig with
       | [] => [(r, None)]
       | ms => map (fun s => (r, Some (snd s))) ms
       end)
    df.

(** [d['signal'].fillna(0).astype(int)] *)
Definition signal_column (d : list (row * option Z)) : list Z :=
  map (fun m => match snd m with Some z => z | None => 0%Z end) d.

Definition close_column (d : list (row * option Z)) : list float :=
  map (fun m => close (fst m)) d.

Definition timestamp_column (d : list (row * option Z)) : list Z :=
  map (fun m => timestamp (fst m)) d.

(** [d['signal'].shift(1).fillna(0)]: the previous row's signal, as a float
    column. *)
Definition position_column (signal : list Z) : list float :=
  Series.fillna0 (Series.shift1 (map F64.of_Z signal)).

Record BacktestResult : Type := mkBacktest {
  report : BacktestReport;
  equity : list float;
  timestamps : list string
}.

(** The frame [d] of [run_backtest] once its columns are derived, with the
    equity curve computed from it. *)
Record BacktestFrame : Type := mkFrame {
  merged : list (row * option Z);
  signal : list Z;
  position : list float;
  ret : list float;
  strategy_ret : list float;
  equity_curve : list float
}.

(** Lines 69 to 77 of [run_backtest]: signals, merge, and the derived
    columns. *)
Definition backtest_frame (strat : Strategy) (df : DataFrame)
  : BacktestFrame :=
  let sig := generate_signals strat df in
  let d := merge_left df sig in
  let signal := signal_column d in
  let position := position_column signal in
  let ret := Series.fillna0 (Series.pct_change (close_column d)) in
  let strategy_ret := Series.zip_with PrimFloat.mul position ret in
  let equity := Series.cumprod (map (PrimFloat.add 1) strategy_ret) in
  mkFrame d signal position ret strategy_ret equity.

(** [run_backtest] up to the report (lines 68 to 80). *)
Definition backtest_report (reg : Registry) (df : DataFrame)
  (strategy_name : string) (p : params)
  : result (BacktestReport * BacktestFrame) :=
  strat <- create_strategy reg strategy_name p ;;
  let d := backtest_frame strat df in
  let pos_change :=
    Series.fillna0 (map PrimFloat.abs (Series.diff (position d))) in
  let trade_mask := map (fun c => F64.gt c 0) pos_change in
  let trade_returns := Series.select trade_mask (strategy_ret d) in
  report <- compute_metrics (equity_curve d) trade_returns ;;
  Ok (report, d).

(** [run_backtest]: the report, then the response of line 81, whose
    timestamps are rendered with [.dt.isoformat()]. *)
Definition run_backtest (reg : Registry) (df : DataFrame)
  (strategy_name : string) (p : params) : result BacktestResult :=
  rd <- backtest_report reg df strategy_name p ;;
  let '(report, d) := rd in
  timestamps <- Series.dt_isoformat (timestamp_column (merged d)) ;;
  Ok (mkBacktest report (equity_curve d) timestamps).

(** ** Walk-forward grid search ([_grid], [run_walkforward]) *)

(** [param_space]: parameter name to candidate values, in insertion order. *)
Definition ParamSpace : Type := list (string * list pyval).

Fixpoint insert_key (k : string) (ks : list string) : list string :=
  match ks with
  | [] => [k]
  | k' :: ks' => if String.leb k k' then k :: ks else k' :: insert_key k ks'
  end.

(** [sorted(keys)] *)
Definition sorted_keys (ks : list string) : list string :=
  fold_right insert_key [] ks.

(** [itertools.product] of the value lists: the rightmost position varies
    fastest;
    the product of no lists is the single empty tuple. *)
Fixpoint product (values : list (list pyval)) : list (list pyval) :=
  match values with
  | [] => [[]]
  | vs :: rest => flat_map (fun v => map (cons v) (product rest)) vs
  end.

Definition _grid (param_space : ParamSpace) : list params :=
  let keys := sorted_keys (map fst param_space) in
  let values :=
    map (fun k => match dict_get k param_space with
                  | Some vs => vs
                  | None => []
                  end) keys in
  map (fun vals => combine keys vals) (product values).

(** The grid as the specification words it: the cartesian product of the
    candidate lists taken in the order of the sorted parameter names. *)
Fixpoint insert_entry (kv : string * list pyval) (ps : ParamSpace)
  : ParamSpace :=
  match ps with
  | [] => [kv]
  | kv' :: ps' =>
      if String.leb (fst kv) (fst kv') then kv :: ps
      else kv' :: insert_entry kv ps'
  end.

Definition sort_space (ps : ParamSpace) : ParamSpace :=
  fold_right insert_entry [] ps.

Fixpoint cartesian (ps : ParamSpace) : list params :=
  match ps with
  | [] => [[]]
  | (k, vs) :: rest =>
      flat_map (fun v => map (cons (k, v)) (cartesian rest)) vs
  end.

(** [xs[a:b]] with Python's slice rules: negative bounds count from the
    end, bounds are clipped to the length. *)
Definition slice_bound (n a : Z) : Z :=
  if (a <? 0)%Z then Z.max 0 (n + a) else Z.min a n.

Definition iloc {A : Type} (xs : list A) (a b : Z) : list A :=
  let n := Z.of_nat (length xs) in
  let lo := slice_bound n a in
  let hi := slice_bound n b in
  firstn (Z.to_nat (hi - lo)) (skipn (Z.to_nat lo) xs).

Fixpoint insert_row (r : row) (rs : DataFrame) : DataFrame :=
  match rs with
  | [] => [r]
  | r' :: rs' =>
      if (timestamp r <=? timestamp r')%Z then r :: rs
      else r' :: insert_row r rs'
  end.

(** [df.sort_values('timestamp').reset_index(drop=True)]; rows of equal
    timestamp keep their order. *)
Definition sort_values (df : DataFrame) : DataFrame :=
  fold_right insert_row [] df.

Fixpoint insert_float (x : float) (xs : list float) : list float :=
  match xs with
  | [] => [x]
  | y :: ys => if PrimFloat.leb x y then x :: xs else y :: insert_float x ys
  end.

(** [np.median]: NaN if any value is NaN, else the middle of the sorted
    values (the mean of the two middle ones for an even count). *)
Definition median (xs : list float) : float :=
  if existsb PrimFloat.is_nan xs then nan
  else
    let s := fold_right insert_float [] xs in
    let n := length s in
    if Nat.even n
    then (nth (n / 2 - 1) s nan + nth (n / 2) s nan) / 2
    else nth (n / 2) s nan.

Record Segment : Type := mkSegment {
  is_range : Z * Z;
  oos_range : Z * Z;
  best_params : option params;
  best_is_sharpe : float
}.

Record OosResult : Type := mkOos {
  oos_report : BacktestReport;
  oos_timestamps : list string
}.

Record WalkForwardResult : Type := mkWalkForward {
  segments : list Segment;
  oos : option OosResult;
  overfit_risk : option float
}.

(** [s.iloc[0]] and [s.iloc[-1]] *)
Definition iloc_first {A : Type} (xs : list A) : result A :=
  match xs with
  | [] => Raise IndexError
  | x :: _ => Ok x
  end.

Definition iloc_last {A : Type} (xs : list A) : result A :=
  match rev xs with
  | [] => Raise IndexError
  | x :: _ => Ok x
  end.

(** [best_params or {}] *)
Definition or_empty (best_params : option params) : params :=
  match best_params with
  | Some p => p
  | None => []
  end.

Section WalkForward.

Variable reg : Registry.
Variable strategy_name : string.

(** The in-sample Sharpe ratio of one parameter combination. *)
Definition insample_metrics (is_df : DataFrame) (p : params)
  : result BacktestReport :=
  strat <- create_strategy reg strategy_name p ;;
  let sig := generate_signals strat is_df in
  let d := merge_left is_df sig in
  let signal := signal_column d in
  let position := position_column signal in
  let ret := Series.fillna0 (Series.pct_change (close_column d)) in
  let strategy_ret := Series.zip_with PrimFloat.mul position ret in
  let equity := Series.cumprod (map (PrimFloat.add 1) strategy_ret) in
  compute_metrics equity strategy_ret.

(** The body of [for params in _grid(param_space)], run over the
    combinations in order. *)
Fixpoint grid_search (is_df : DataFrame) (grid : list params)
  (best_sharpe : float) (best_params : option params)
  : result (float * option params) :=
  match grid with
  | [] => Ok (best_sharpe, best_params)
  | p :: grid' =>
      m <- insample_metrics is_df p ;;
      if F64.gt (sharpe m) best_sharpe
      then grid_search is_df grid' (sharpe m) (Some p)
      else grid_search is_df grid' best_sharpe best_params
  end.

(** Lines 124 to 128: the frame [d2] of the out-of-sample window and
    its strategy returns. *)
Definition oos_strategy_ret (strat : Strategy) (oos_df : DataFrame)
  : list (row * option Z) * list float :=
  let sig := generate_signals strat oos_df in
  let d2 := merge_left oos_df sig in
  let signal := signal_column d2 in
  let position := position_column signal in
  let ret := Series.fillna0 (Series.pct_change (close_column d2)) in
  let strategy_ret := Series.zip_with PrimFloat.mul position ret in
  (d2, strategy_ret).

(** Lines 123 to 131: the out-of-sample strategy returns and the
    rendered timestamps that extend the two accumulators. *)
Definition oos_apply (oos_df : DataFrame) (best_params : option params)
  : result (list float * list string) :=
  strat <- create_strategy reg strategy_name (or_empty best_params) ;;
  let '(d2, strategy_ret) := oos_strategy_ret strat oos_df in
  timestamps <- Series.dt_isoformat (timestamp_column d2) ;;
  Ok (strategy_ret, timestamps).

Definition make_segment (is_df oos_df : DataFrame)
  (best_params : option params) (best_sharpe : float) : result Segment :=
  is_first <- iloc_first (map timestamp is_df) ;;
  is_last <- iloc_last (map timestamp is_df) ;;
  oos_first <- iloc_first (map timestamp oos_df) ;;
  oos_last <- iloc_last (map timestamp oos_df) ;;
  Ok (mkSegment (is_first, is_last) (oos_first, oos_last)
                best_params best_sharpe).

Variable param_space : ParamSpace.
Variables insample_days outsample_days : Z.

(** One pass through the body of the [while True] loop, for the two
    windows already extracted. *)
Definition walk_window (is_df oos_df : DataFrame)
  : result (Segment * (list float * list string)) :=
  best <- grid_search is_df (_grid param_space) F64.sentinel None ;;
  let '(best_sharpe, best_params) := best in
  o <- oos_apply oos_df best_params ;;
  seg <- make_segment is_df oos_df best_params best_sharpe ;;
  Ok (seg, o).

(** The [while True] loop with cursor [i], unrolled at most [fuel]
    times. *)
Fixpoint walk (fuel : nat) (df : DataFrame) (i : Z)
  (results : list Segment) (oos_returns : list float)
  (oos_timestamps : list string)
  : result (list Segment * (list float * list string)) :=
  match fuel with
  | O => OutOfFuel
  | S fuel' =>
      let n := Z.of_nat (length df) in
      let is_start := i in
      let is_end := (i + insample_days)%Z in
      let oos_end := (is_end + outsample_days)%Z in
      if (oos_end >? n)%Z then Ok (results, (oos_returns, oos_timestamps))
      else
        let is_df := iloc df is_start is_end in
        let oos_df := iloc df is_end oos_end in
        w <- walk_window is_df oos_df ;;
        let '(seg, (rets, ts)) := w in
        walk fuel' df (i + outsample_days)%Z
             (results ++ [seg]) (oos_returns ++ rets) (oos_timestamps ++ ts)
  end.

(** The aggregation after the loop. *)
Definition aggregate (results : list Segment) (oos_returns : list float)
  (oos_timestamps : list string) : result WalkForwardResult :=
  match oos_returns with
  | [] => Ok (mkWalkForward results None None)
  | _ :: _ =>
      let filled := Series.fillna0 oos_returns in
      let oos_eq := Series.cumprod (map (PrimFloat.add 1) filled) in
      oos_report <- compute_metrics oos_eq filled ;;
      let is_sharpes := map best_is_sharpe results in
      let median_is :=
        match is_sharpes with
        | [] => 0
        | _ :: _ => median is_sharpes
        end in
      let oos_sharpe := sharpe oos_report in
      let overfit_risk :=
        F64.pymax 0 (1 - oos_sharpe / (PrimFloat.abs median_is + F64.eps)) in
      Ok (mkWalkForward results
                        (Some (mkOos oos_report oos_timestamps))
                        (Some overfit_risk))
  end.

(** [run_walkforward].  The loop is unrolled [len(df) + 1] times, which
    is enough whenever [outsample_days >= 1]. *)
Definition run_walkforward (df : DataFrame) : result WalkForwardResult :=
  let df := sort_values df in
  acc <- walk (S (length df)) df 0 [] [] [] ;;
  let '(results, (oos_returns, oos_timestamps)) := acc in
  aggregate results oos_returns oos_timestamps.

End WalkForward.

(** ** Auxiliary definitions for the statements *)

(** A float that is a zero or NaN: the values the volatility guard of
    [compute_metrics] maps to a Sharpe ratio of [0]. *)
Definition zero_or_nan (x : float) : Prop :=
  match Prim2SF x with
  | S754_zero _ | S754_nan => True
  | _ => False
  end.

Definition result_map {A B : Type} (f : A -> B) (r : result A) : result B :=
  match r with
  | Ok a => Ok (f a)
  | Raise e => Raise e
  | OutOfFuel => OutOfFuel
  end.

(** Every strategy of the registry answers with one signal row per input
    row, carrying that row's timestamp. *)
Definition aligned (reg : Registry) : Prop :=
  forall name p s df,
    create_strategy reg name p = Ok s ->
    map fst (generate_signals s df) = map timestamp df.

(** A combination the [sma_cross] constructor accepts. *)
Definition valid_combo (p : params) : bool :=
  match SmaCross.init p with
  | Ok _ => true
  | _ => false
  end.

Definition grid_ok (param_space : ParamSpace) : bool :=
  forallb valid_combo (_grid param_space).

(** Ascending timestamps, and ascending parameter names. *)
Definition time_le (a b : row) : Prop := (timestamp a <= timestamp b)%Z.

Definition key_le (a b : string * list pyval) : Prop :=
  String.leb (fst a) (fst b) = true.

(** [k] is the first position of [grid] whose in-sample Sharpe ratio [best]
    no other position exceeds: nothing is strictly greater, and everything
    before [k] is strictly smaller (or not comparable). *)
Definition first_greatest (reg : Registry) (strategy_name : string)
  (is_df : DataFrame) (grid : list params) (k : nat) (best : float) : Prop :=
  forall j pj, nth_error grid j = Some pj ->
    exists mj, insample_metrics reg strategy_name is_df pj = Ok mj /\
               F64.gt (sharpe mj) best = false /\
               ((j < k)%nat -> PrimFloat.leb best (sharpe mj) = false).

(** ** Sample inputs *)

Definition sample_frame : DataFrame :=
  [mkRow 0 100; mkRow 1 101; mkRow 2 99; mkRow 3 105; mkRow 4 104; mkRow 5 110].

(** Sixteen rising closes, at timestamps 0 to 15. *)
Definition trend_frame : DataFrame :=
  map (fun p => mkRow (Z.of_nat (fst p)) (snd p))
      (combine (seq 0 16)
               [100; 101; 103; 102; 105; 107; 106; 109;
                112; 110; 114; 113; 117; 120; 118; 123]).

Definition sample_space : ParamSpace :=
  [("slow"%string, [PyInt 2; PyInt 3]); ("fast"%string, [PyInt 1; PyInt 2])].

(** An equity curve whose per-period returns are finite but sum past the
    largest float64. *)
Definition overflow_curve : list float := [1; 0x1p-1023; 1; 0x1p-1023; 1].

Definition fast1_slow2 : params :=
  [("fast"%string, PyInt 1); ("slow"%string, PyInt 2)].

(** * Real values of floats, used to bound the rounded operations *)

Module Rounding.
Import Reals.
Local Open Scope Z_scope.

(** The power of two [2^e]. *)
Definition bpow (e : Z) : R := powerRZ 2 e.

(** The real number [m * 2^e] a mantissa and an exponent denote. *)
Definition V (m e : Z) : R := IZR m * bpow e.

(** Whether bits were lost below the mantissa of a shift record. *)
Definition flag (r : shr_record) : bool := shr_r r || shr_s r.

(** [r'] is [r] shifted right by [n] bits. *)
Definition shifted (n : Z) (r r' : shr_record) : Prop :=
  shr_m r' = shr_m r / 2 ^ n /\
  (flag r' = false <-> flag r = false /\ shr_m r mod 2 ^ n = 0).

(** A positive result: a positive finite float or [+infinity]. *)
Definition sf_positive (x : spec_float) : Prop :=
  x = S754_infinity false \/ exists m e, x = S754_finite false m e.

(** At least the value of the valid float [(my, ey)]. *)
Definition sf_ge (x : spec_float) (my : positive) (ey : Z) : Prop :=
  x = S754_infinity false \/
  exists m e, x = S754_finite false m e /\ (V (Zpos my) ey <= V (Zpos m) e)%R.

(** The constants [1e-9] and [1] of the risk formula. *)
Definition sf_eps : spec_float := Eval vm_compute in Prim2SF F64.eps.

(** [1.0] *)
Definition sf_one : spec_float := Eval vm_compute in Prim2SF 1.

(** A quotient below one: a zero, a negative value, or a positive float
    not above the largest float below [1]. *)
Definition sf_below_one (Q : spec_float) : Prop :=
  (exists s, Q = S754_zero s) \/ Q = S754_infinity true \/
  (exists m e, Q = S754_finite true m e) \/
  (exists m e, Q = S754_finite false m e /\
               (V (Zpos m) e <= V (2 ^ 53 - 1) (-53))%R).

(** [x] with the sign [s]. *)
Definition set_sign (s : bool) (x : spec_float) : spec_float :=
  match x with
  | S754_zero _ => S754_zero s
  | S754_infinity _ => S754_infinity s
  | S754_nan => S754_nan
  | S754_finite _ m e => S754_finite s m e
  end.

(** [|x| >= 2^k], infinities included. *)
Definition sf_big (k : Z) (x : spec_float) : Prop :=
  match x with
  | S754_infinity _ => True
  | S754_finite _ m e => (bpow k <= V (Zpos m) e)%R
  | _ => False
  end.

(** [|x| <= 2^k], zeros included. *)
Definition sf_small (k : Z) (x : spec_float) : Prop :=
  match x with
  | S754_zero _ => True
  | S754_finite _ m e => (V (Zpos m) e <= bpow k)%R
  | _ => False
  end.

(** A deviation: zero, NaN, or of magnitude at least [2^k]. *)
Definition sf_dev (k : Z) (x : spec_float) : Prop :=
  match x with
  | S754_zero _ | S754_nan | S754_infinity _ => True
  | S754_finite _ m e => (bpow k <= V (Zpos m) e)%R
  end.

(** A sum of squares: zero, NaN, [+infinity], or a positive float at least
    [2^k]. *)
Definition sf_sq (k : Z) (x : spec_float) : Prop :=
  match x with
  | S754_zero _ | S754_nan => True
  | S754_infinity s => s = false
  | S754_finite s m e => s = false /\ (bpow k <= V (Zpos m) e)%R
  end.

(** NaN or [+infinity]. *)
Definition sf_top (x : spec_float) : Prop :=
  x = S754_nan \/ x = S754_infinity false.

(** The float of a count: [+0], or a positive float not above [2^63]. *)
Definition sf_count (x : spec_float) : Prop :=
  x = S754_zero false \/
  exists m e, x = S754_finite false m e /\ (V (Zpos m) e <= bpow 63)%R.

(** [sqrt(252)], the annualisation factor. *)
Definition sf_sqrt252 : spec_float := Eval vm_compute in Prim2SF F64.sqrt252.

(** [x] is the float of the non-zero integer [z]. *)
Definition sf_int (x : spec_float) (z : Z) : Prop :=
  exists m e, x = S754_finite (z <? 0) m e /\
              valid_binary (S754_finite false m e) = true /\
              V (Zpos m) e = IZR (Z.abs z).

End Rounding.

(** ** The rest of [app/strategies.py] *)

(** [d[k] = v]: an existing key keeps its place and takes the new value, a
    new key goes to the end. *)
Fixpoint dict_set {V : Type} (k : string) (v : V) (d : list (string * V))
  : list (string * V) :=
  match d with
  | [] => [(k, v)]
  | (k', v') :: d' =>
      if String.eqb k k' then (k, v) :: d' else (k', v') :: dict_set k v d'
  end.

(** [register(name)(cls)]: the decorator stores the class under its name. *)
Definition register (name : string) (cls : params -> result Strategy)
  (reg : Registry) : Registry :=
  dict_set name cls reg.

(** The value a keyword of [SmaCross.__init__] is bound to: the one passed,
    else the default. *)
Definition bound_arg (key : string) (default : Z) (p : params) : pyval :=
  match dict_get key p with
  | Some v => v
  | None => PyInt default
  end.

(** Whether a keyword dictionary names a parameter [SmaCross.__init__]
    does not have. *)
Definition unexpected_keyword (p : params) : bool :=
  existsb (fun kv => negb (SmaCross.known_keyword (fst kv))) p.

(** ** Auxiliary definitions for the further statements *)

(** The number of combinations of a parameter space: the product of the
    numbers of candidates. *)
Definition grid_size (ps : ParamSpace) : nat :=
  fold_right (fun kv n => (length (snd kv) * n)%nat) 1%nat ps.

(** A combination drawn from a parameter space listed in some order: the
    same names in that order, each with one of its candidates. *)
Definition drawn_from (ps : ParamSpace) (p : params) : Prop :=
  Forall2 (fun kv e => fst kv = fst e /\ In (snd kv) (snd e)) p ps.

(** ** The rolling mean of the specification *)

(** "The mean of whatever history exists": the window of row [t] holds the
    last [window] rows up to and including [t], or every row so far when
    there are fewer. *)
Definition history {A : Type} (window : Z) (t : nat) (xs : list A) : list A :=
  let start := (S t - Z.to_nat window)%nat in
  firstn (S t - start) (skipn start xs).

(** The sum of a list of integer prices. *)
Definition total (zs : list Z) : Z := fold_right Z.add 0%Z zs.

(** * Proofs *)



Module F64Facts.

Lemma is_nan_spec x : PrimFloat.is_nan x = true <-> Prim2SF x = S754_nan.
Proof.
  unfold Prim2SF. destruct (PrimFloat.is_nan x); split; try easy.
  intros H. destruct (PrimFloat.is_zero x); try easy.
  destruct (is_infinity x); try easy.
  destruct (Z.frexp x). destruct (shr_fexp _ _ _ _ _).
  destruct (shr_m s); easy.
Qed.

Lemma not_nan_spec x : PrimFloat.is_nan x = false <-> Prim2SF x <> S754_nan.
Proof.
  rewrite <- is_nan_spec. destruct (PrimFloat.is_nan x); split; congruence.
Qed.

(** The comparison of two specification floats, when it is defined. *)
Ltac sf_cases :=
  repeat match goal with
  | s : bool |- _ => destruct s
  end;
  try discriminate; try reflexivity; try tauto;
  change (PosDef.Pos.compare_cont Eq) with Pos.compare in *;
  repeat match goal with
  | |- context [Z.compare ?a ?b] => destruct (Z.compare_spec a b)
  | H : context [Z.compare ?a ?b] |- _ => destruct (Z.compare_spec a b)
  end;
  try lia; try discriminate; try reflexivity;
  repeat match goal with
  | |- context [Pos.compare ?a ?b] => destruct (Pos.compare_spec a b)
  | H : context [Pos.compare ?a ?b] |- _ => destruct (Pos.compare_spec a b)
  end;
  simpl in *; try lia; try discriminate; try reflexivity; try tauto.

Lemma SFltb_irrefl a : SFltb a a = false.
Proof. unfold SFltb, SFcompare. destruct a; sf_cases. Qed.

Lemma SFltb_trans a b c :
  SFltb a b = true -> SFltb b c = true -> SFltb a c = true.
Proof. unfold SFltb, SFcompare. destruct a, b, c; sf_cases. Qed.

Lemma SFleb_ltb_trans a b c :
  SFleb a b = true -> SFltb b c = true -> SFltb a c = true.
Proof. unfold SFleb, SFltb, SFcompare. destruct a, b, c; sf_cases. Qed.

Lemma SFltb_leb_trans a b c :
  SFltb a b = true -> SFleb b c = true -> SFltb a c = true.
Proof. unfold SFleb, SFltb, SFcompare. destruct a, b, c; sf_cases. Qed.

Lemma SFltb_total a b :
  a <> S754_nan -> b <> S754_nan -> SFltb a b = false -> SFleb b a = true.
Proof. unfold SFleb, SFltb, SFcompare. destruct a, b; sf_cases. Qed.

Lemma SFleb_not_ltb a b : SFleb a b = true -> SFltb b a = false.
Proof. unfold SFleb, SFltb, SFcompare. destruct a, b; sf_cases. Qed.

Lemma SFltb_not_nan a b :
  SFltb a b = true -> a <> S754_nan /\ b <> S754_nan.
Proof. unfold SFltb, SFcompare. destruct a, b; sf_cases; split; discriminate. Qed.

Lemma SFeqb_not_ltb a b :
  SFeqb a b = true -> SFltb a b = false /\ SFltb b a = false.
Proof. unfold SFeqb, SFltb, SFcompare. destruct a, b; sf_cases. Qed.

Lemma ltb_irrefl x : PrimFloat.ltb x x = false.
Proof. rewrite FloatAxioms.ltb_spec. apply SFltb_irrefl. Qed.

Lemma ltb_trans x y z :
  PrimFloat.ltb x y = true -> PrimFloat.ltb y z = true ->
  PrimFloat.ltb x z = true.
Proof. rewrite !FloatAxioms.ltb_spec. apply SFltb_trans. Qed.

Lemma leb_ltb_trans x y z :
  PrimFloat.leb x y = true -> PrimFloat.ltb y z = true ->
  PrimFloat.ltb x z = true.
Proof. rewrite !FloatAxioms.ltb_spec, FloatAxioms.leb_spec. apply SFleb_ltb_trans. Qed.

Lemma ltb_leb_trans x y z :
  PrimFloat.ltb x y = true -> PrimFloat.leb y z = true ->
  PrimFloat.ltb x z = true.
Proof. rewrite !FloatAxioms.ltb_spec, FloatAxioms.leb_spec. apply SFltb_leb_trans. Qed.

Lemma ltb_total x y :
  PrimFloat.is_nan x = false -> PrimFloat.is_nan y = false ->
  PrimFloat.ltb x y = false -> PrimFloat.leb y x = true.
Proof.
  intros Hx Hy. rewrite FloatAxioms.ltb_spec, FloatAxioms.leb_spec.
  apply SFltb_total; now apply not_nan_spec.
Qed.

Lemma leb_not_ltb x y :
  PrimFloat.leb x y = true -> PrimFloat.ltb y x = false.
Proof. rewrite FloatAxioms.ltb_spec, FloatAxioms.leb_spec. apply SFleb_not_ltb. Qed.

Lemma ltb_not_nan x y :
  PrimFloat.ltb x y = true ->
  PrimFloat.is_nan x = false /\ PrimFloat.is_nan y = false.
Proof.
  rewrite FloatAxioms.ltb_spec. intros H. apply SFltb_not_nan in H.
  split; apply not_nan_spec; tauto.
Qed.

Lemma eqb_not_ltb x y :
  PrimFloat.eqb x y = true ->
  PrimFloat.ltb x y = false /\ PrimFloat.ltb y x = false.
Proof. rewrite !FloatAxioms.ltb_spec, FloatAxioms.eqb_spec. apply SFeqb_not_ltb. Qed.

(** *** Rounding never yields NaN *)

Lemma shr_1_nonneg r : (0 <= shr_m r)%Z -> (0 <= shr_m (shr_1 r))%Z.
Proof.
  destruct r as [m r s]; simpl.
  destruct m as [|[p|p|]|p]; simpl; lia.
Qed.

Lemma iter_shr_1_nonneg p : forall r,
  (0 <= shr_m r)%Z -> (0 <= shr_m (SpecFloat.iter_pos shr_1 p r))%Z.
Proof.
  induction p; simpl; intros r Hr; auto using shr_1_nonneg.
Qed.

Lemma shr_fexp_nonneg m e l :
  (0 <= m)%Z -> (0 <= shr_m (fst (shr_fexp prec emax m e l)))%Z.
Proof.
  intros Hm. unfold shr_fexp, shr.
  assert (H0 : (0 <= shr_m (shr_record_of_loc m l))%Z).
  { destruct l as [|[]]; simpl; exact Hm. }
  destruct (_ - e)%Z; simpl; auto using iter_shr_1_nonneg.
Qed.

Lemma round_nearest_even_nonneg m l :
  (0 <= m)%Z -> (0 <= round_nearest_even m l)%Z.
Proof.
  intros Hm. destruct l as [|[]]; simpl; try lia.
  destruct (Z.even m); lia.
Qed.

Lemma binary_round_aux_not_nan s m e l :
  (0 <= m)%Z -> binary_round_aux prec emax s m e l <> S754_nan.
Proof.
  intros Hm. unfold binary_round_aux.
  pose proof (shr_fexp_nonneg m e l Hm) as H1.
  destruct (shr_fexp prec emax m e l) as [r1 e1]; simpl in H1.
  pose proof (shr_fexp_nonneg _ e1 loc_Exact
    (round_nearest_even_nonneg _ (loc_of_shr_record r1) H1)) as H2.
  destruct (shr_fexp prec emax _ e1 loc_Exact) as [r2 e2]; simpl in H2.
  destruct (shr_m r2); try lia; try discriminate.
  destruct (e2 <=? _)%Z; discriminate.
Qed.

Lemma binary_normalize_not_nan m e s :
  binary_normalize prec emax m e s <> S754_nan.
Proof.
  unfold binary_normalize, binary_round.
  destruct m; try discriminate;
    destruct (shl_align _ _ _); apply binary_round_aux_not_nan; lia.
Qed.

Lemma of_uint63_not_nan n : PrimFloat.is_nan (PrimFloat.of_uint63 n) = false.
Proof.
  apply not_nan_spec. rewrite of_uint63_spec.
  apply binary_normalize_not_nan.
Qed.

Lemma opp_not_nan x :
  PrimFloat.is_nan x = false -> PrimFloat.is_nan (- x) = false.
Proof.
  rewrite !not_nan_spec, opp_spec. destruct (Prim2SF x); simpl; congruence.
Qed.

Lemma of_Z_not_nan z : PrimFloat.is_nan (F64.of_Z z) = false.
Proof.
  destruct z; simpl; [reflexivity | apply of_uint63_not_nan |].
  apply opp_not_nan, of_uint63_not_nan.
Qed.

(** *** Values that are a zero or NaN *)


Lemma zero_or_nan_guard x :
  zero_or_nan x -> PrimFloat.eqb x 0 || PrimFloat.is_nan x = true.
Proof.
  unfold zero_or_nan. intros H.
  destruct (PrimFloat.is_nan x) eqn:E; [apply orb_true_r|].
  rewrite FloatAxioms.eqb_spec. apply not_nan_spec in E.
  destruct (Prim2SF x); try easy.
Qed.

Lemma zero_or_nan_zero : zero_or_nan 0.
Proof. exact I. Qed.

Lemma zero_or_nan_add x y :
  zero_or_nan x -> zero_or_nan y -> zero_or_nan (x + y).
Proof.
  unfold zero_or_nan. rewrite add_spec.
  destruct (Prim2SF x), (Prim2SF y); try easy; simpl;
    repeat match goal with |- context [if ?b then _ else _] => destruct b end;
    easy.
Qed.

Lemma zero_or_nan_sub x y :
  zero_or_nan x -> zero_or_nan y -> zero_or_nan (x - y).
Proof.
  unfold zero_or_nan. rewrite sub_spec.
  destruct (Prim2SF x), (Prim2SF y); try easy; simpl;
    repeat match goal with |- context [if ?b then _ else _] => destruct b end;
    easy.
Qed.

Lemma zero_or_nan_mul x y :
  zero_or_nan x -> zero_or_nan y -> zero_or_nan (x * y).
Proof.
  unfold zero_or_nan. rewrite mul_spec.
  destruct (Prim2SF x), (Prim2SF y); easy.
Qed.

Lemma zero_or_nan_div x y : zero_or_nan x -> zero_or_nan (x / y).
Proof.
  unfold zero_or_nan. rewrite div_spec.
  destruct (Prim2SF x), (Prim2SF y); easy.
Qed.

Lemma zero_or_nan_sqrt x : zero_or_nan x -> zero_or_nan (PrimFloat.sqrt x).
Proof.
  unfold zero_or_nan. rewrite sqrt_spec.
  destruct (Prim2SF x); easy.
Qed.

End F64Facts.

Import F64Facts.




(** ** Series facts *)

Lemma ltb_asym x y : PrimFloat.ltb x y = true -> PrimFloat.ltb y x = false.
Proof.
  intros H. destruct (PrimFloat.ltb y x) eqn:E; [|reflexivity].
  pose proof (ltb_trans _ _ _ H E) as T. now rewrite ltb_irrefl in T.
Qed.

Lemma fillna0_length xs : length (Series.fillna0 xs) = length xs.
Proof. apply length_map. Qed.

Lemma shift1_length xs : length (Series.shift1 xs) = length xs.
Proof.
  destruct xs as [|x r]; [reflexivity|].
  unfold Series.shift1. cbn [length]. f_equal.
  induction r as [|y r IH] in x |- *; [reflexivity|].
  cbn [removelast length] in *. now rewrite IH.
Qed.

Lemma fillna0_of_Z (l : list Z) :
  Series.fillna0 (map F64.of_Z l) = map F64.of_Z l.
Proof.
  unfold Series.fillna0. rewrite map_map. apply map_ext.
  intros z. now rewrite of_Z_not_nan.
Qed.

Lemma position_column_cons z l :
  position_column (z :: l) = 0 :: map F64.of_Z (removelast (z :: l)).
Proof.
  unfold position_column, Series.shift1.
  change (map F64.of_Z (z :: l)) with (F64.of_Z z :: map F64.of_Z l).
  cbv beta iota.
  change (Series.fillna0 (nan :: ?t)) with (0 :: Series.fillna0 t).
  f_equal.
  change (F64.of_Z z :: map F64.of_Z l) with (map F64.of_Z (z :: l)).
  assert (R : forall l', removelast (map F64.of_Z l') = map F64.of_Z (removelast l')).
  { induction l' as [|a [|b l'] IH]; try reflexivity.
    change (removelast (map F64.of_Z (a :: b :: l')))
      with (F64.of_Z a :: removelast (map F64.of_Z (b :: l'))).
    rewrite IH. reflexivity. }
  rewrite R. apply fillna0_of_Z.
Qed.

Lemma position_column_length l : length (position_column l) = length l.
Proof.
  unfold position_column. now rewrite fillna0_length, shift1_length, length_map.
Qed.

Lemma nth_removelast {A} (l : list A) t d :
  (S t < length l)%nat -> nth t (removelast l) d = nth t l d.
Proof.
  revert t. induction l as [|a [|b l] IH]; intros t H; cbn [length] in H; try lia.
  destruct t as [|t]; [reflexivity|].
  change (removelast (a :: b :: l)) with (a :: removelast (b :: l)).
  cbn [nth]. apply IH. cbn [length]. lia.
Qed.


(** ** Frames with distinct timestamps *)

Lemma filter_key_none (sig : SignalFrame) k :
  ~ In k (map fst sig) -> filter (fun s => Z.eqb (fst s) k) sig = [].
Proof.
  induction sig as [|[k' z'] sig IH]; intros H; [reflexivity|].
  cbn [filter fst]. cbn [map fst In] in H.
  destruct (Z.eqb_spec k' k) as [->|N]; [tauto|]. apply IH. tauto.
Qed.

Lemma filter_key_unique (sig : SignalFrame) k z :
  NoDup (map fst sig) -> In (k, z) sig ->
  filter (fun s => Z.eqb (fst s) k) sig = [(k, z)].
Proof.
  induction sig as [|[k' z'] sig IH]; intros Hnd Hin; [contradiction|].
  cbn [map fst] in Hnd. inversion Hnd as [|? ? Hn Hnd']; subst.
  cbn [filter fst]. destruct Hin as [E|Hin].
  - injection E as -> ->. rewrite Z.eqb_refl.
    now rewrite filter_key_none.
  - destruct (Z.eqb_spec k' k) as [->|N].
    + exfalso. apply Hn. change k with (fst (k, z)). now apply in_map.
    + now apply IH.
Qed.

Lemma merge_left_rows (sig : SignalFrame) :
  NoDup (map fst sig) ->
  forall (df : DataFrame) (sg : SignalFrame),
    map fst sg = map timestamp df -> incl sg sig ->
    merge_left df sig = combine df (map (fun s => Some (snd s)) sg).
Proof.
  intros Hnd. induction df as [|r df IH]; intros [|[k z] sg] E Hin;
    try discriminate; [reflexivity|].
  cbn [map fst] in E. injection E as -> E.
  unfold merge_left. cbn [flat_map].
  rewrite (filter_key_unique sig (timestamp r) z Hnd)
    by (apply Hin; now left).
  cbn [map snd app combine]. f_equal.
  apply IH; [exact E|]. intros x Hx. apply Hin. now right.
Qed.

Lemma merge_left_distinct df sig :
  map fst sig = map timestamp df -> NoDup (map timestamp df) ->
  merge_left df sig = combine df (map (fun s => Some (snd s)) sig).
Proof.
  intros E Hnd. apply merge_left_rows; [now rewrite E|exact E|].
  apply incl_refl.
Qed.

Lemma combine_fst {A B} (xs : list A) (ys : list B) :
  length xs = length ys -> map fst (combine xs ys) = xs.
Proof.
  revert ys. induction xs as [|x xs IH]; intros [|y ys] H;
    try discriminate; [reflexivity|].
  cbn [combine map fst]. f_equal. apply IH. now injection H.
Qed.

Lemma combine_snd {A B} (xs : list A) (ys : list B) :
  length xs = length ys -> map snd (combine xs ys) = ys.
Proof.
  revert ys. induction xs as [|x xs IH]; intros [|y ys] H;
    try discriminate; [reflexivity|].
  cbn [combine map snd]. f_equal. apply IH. now injection H.
Qed.

Lemma merged_columns df sig :
  map fst sig = map timestamp df -> NoDup (map timestamp df) ->
  let d := merge_left df sig in
  timestamp_column d = map timestamp df /\
  close_column d = map close df /\
  signal_column d = map snd sig /\
  length d = length df.
Proof.
  intros E Hnd d. unfold d. rewrite (merge_left_distinct df sig E Hnd).
  assert (L : length df = length (map (fun s : Z * Z => Some (snd s)) sig)).
  { rewrite length_map. rewrite <- (length_map fst sig), E.
    now rewrite length_map. }
  set (ys := map (fun s : Z * Z => Some (snd s)) sig) in *.
  unfold timestamp_column, close_column, signal_column.
  rewrite <- (map_map fst timestamp), <- (map_map fst close).
  rewrite <- (map_map snd (fun o : option Z =>
                             match o with Some z => z | None => 0%Z end)).
  rewrite combine_fst, combine_snd by exact L.
  repeat split.
  - unfold ys. rewrite map_map. cbn. apply map_ext. reflexivity.
  - rewrite length_combine, <- L. apply Nat.min_id.
Qed.


(** ** The merge and the position lag *)

Lemma merge_left_sound df sig m :
  In m (merge_left df sig) ->
  In (fst m) df /\
  match snd m with
  | Some s => In (timestamp (fst m), s) sig
  | None => forall s, ~ In (timestamp (fst m), s) sig
  end.
Proof.
  unfold merge_left. intros H. apply in_flat_map in H.
  destruct H as [r [Hr Hm]].
  destruct (filter (fun s => (fst s =? timestamp r)%Z) sig) as [|s0 ms] eqn:E.
  - destruct Hm as [<-|[]]. split; [exact Hr|]. cbn [fst snd]. intros s Hs.
    assert (F : In (timestamp r, s)
                  (filter (fun s => (fst s =? timestamp r)%Z) sig))
      by (apply filter_In; split; [exact Hs|apply Z.eqb_refl]).
    rewrite E in F. contradiction.
  - apply in_map_iff in Hm. destruct Hm as [s' [<- Hs']].
    rewrite <- E in Hs'. apply filter_In in Hs'. destruct Hs' as [Hin Heq].
    apply Z.eqb_eq in Heq. cbn [fst snd]. split; [exact Hr|].
    rewrite <- Heq. now destruct s'.
Qed.

Lemma merge_left_complete df sig r :
  In r df ->
  (forall s, In (timestamp r, s) sig -> In (r, Some s) (merge_left df sig)) /\
  ((forall s, ~ In (timestamp r, s) sig) -> In (r, None) (merge_left df sig)).
Proof.
  intros Hr. unfold merge_left. split.
  - intros s Hs. apply in_flat_map. exists r. split; [exact Hr|].
    assert (F : In (timestamp r, s)
                  (filter (fun s => (fst s =? timestamp r)%Z) sig))
      by (apply filter_In; split; [exact Hs|apply Z.eqb_refl]).
    destruct (filter (fun s => (fst s =? timestamp r)%Z) sig) as [|s0 ms];
      [contradiction|].
    apply in_map_iff. exists (timestamp r, s). split; [reflexivity|exact F].
  - intros Hno. apply in_flat_map. exists r. split; [exact Hr|].
    destruct (filter (fun s => (fst s =? timestamp r)%Z) sig) as [|s0 ms] eqn:E;
      [now left|].
    exfalso. assert (F : In s0 (filter (fun s => (fst s =? timestamp r)%Z) sig))
      by (rewrite E; now left).
    apply filter_In in F. destruct F as [Hin Heq]. apply Z.eqb_eq in Heq.
    apply (Hno (snd s0)). rewrite <- Heq. now destruct s0.
Qed.


Lemma compute_metrics_sharpe equity_curve trade_returns m :
  compute_metrics equity_curve trade_returns = Ok m ->
  let ret := Series.fillna0 (Series.pct_change equity_curve) in
  let vol := Series.std ret in
  sharpe m =
    if PrimFloat.eqb vol 0 || PrimFloat.is_nan vol then 0
    else (Series.mean ret / vol) * F64.sqrt252.
Proof.
  unfold compute_metrics. destruct equity_curve; [discriminate|].
  intros H. injection H as <-. reflexivity.
Qed.

Lemma compute_metrics_sharpe_indep equity_curve tr1 tr2 :
  result_map sharpe (compute_metrics equity_curve tr1) =
  result_map sharpe (compute_metrics equity_curve tr2).
Proof.
  unfold compute_metrics. destruct equity_curve; reflexivity.
Qed.

Lemma compute_metrics_single x trade_returns :
  exists m, compute_metrics [x] trade_returns = Ok m /\ sharpe m = 0.
Proof.
  unfold compute_metrics. eexists. split; [reflexivity|]. reflexivity.
Qed.

(** C4, at a failing input.  The equity curve [overflow_curve] has five
    finite positive values; its per-period returns sum past the largest
    float64, so their mean and their standard deviation are both infinite,
    a volatility the guard ([vol == 0 or isnan(vol)]) does not catch: the
    Sharpe ratio [compute_metrics] reports is NaN. *)
Theorem sharpe_nan_on_overflow :
  (2 <= length overflow_curve)%nat /\
  Forall (fun e => PrimFloat.ltb 0 e = true /\ PrimFloat.ltb e infinity = true)
         overflow_curve /\
  Series.std (Series.fillna0 (Series.pct_change overflow_curve)) = infinity /\
  Series.mean (Series.fillna0 (Series.pct_change overflow_curve)) = infinity /\
  exists m,
    compute_metrics overflow_curve [] = Ok m /\
    PrimFloat.is_nan (sharpe m) = true.
Proof.
  split; [cbn; lia|]. split; [repeat constructor|].
  split; [vm_compute; reflexivity|]. split; [vm_compute; reflexivity|].
  eexists. split; [vm_compute; reflexivity|]. reflexivity.
Qed.

(** ** What [run_backtest] answers *)

Lemma run_backtest_outcome_of reg df name p :
  match backtest_report reg df name p with
  | Ok _ => exists msg, run_backtest reg df name p = Raise (AttributeError msg)
  | Raise e => run_backtest reg df name p = Raise e
  | OutOfFuel => run_backtest reg df name p = OutOfFuel
  end.
Proof.
  unfold run_backtest. destruct (backtest_report reg df name p) as [[r d]| |];
    cbn [bind]; [|reflexivity|reflexivity].
  unfold Series.dt_isoformat. cbn [bind]. eauto.
Qed.

Lemma run_backtest_not_ok reg df name p b :
  run_backtest reg df name p <> Ok b.
Proof.
  pose proof (run_backtest_outcome_of reg df name p) as H.
  destruct (backtest_report reg df name p) as [rd| |].
  - destruct H as [msg ->]. discriminate.
  - rewrite H. discriminate.
  - rewrite H. discriminate.
Qed.

(** The Sharpe ratio of the inline in-sample evaluation and that of the
    report [run_backtest] computes agree, and so do their failures. *)
Lemma insample_sharpe_backtest_report reg name is_df p :
  result_map sharpe (insample_metrics reg name is_df p) =
  result_map (fun rd => sharpe (fst rd)) (backtest_report reg is_df name p).
Proof.
  unfold insample_metrics, backtest_report.
  destruct (create_strategy reg name p) as [strat|e|]; try reflexivity.
  cbn [bind]. unfold backtest_frame.
  cbn [equity_curve strategy_ret position].
  match goal with
  | |- result_map sharpe (compute_metrics ?eq ?tr1) =
       result_map _ (bind (compute_metrics ?eq ?tr2) _) =>
      rewrite (compute_metrics_sharpe_indep eq tr1 tr2);
      destruct (compute_metrics eq tr2); reflexivity
  end.
Qed.

(** C6.  The in-sample evaluation written inline in [run_walkforward]
    computes the Sharpe ratio that [run_backtest] computes for its report
    on the same window, strategy name and parameters (and fails where that
    computation fails); but [run_backtest] never returns this report: once
    it is computed, the response of line 81 raises [AttributeError].  So
    whenever the inline evaluation yields a Sharpe ratio, [run_backtest]
    on the same input raises. *)
Theorem insample_refines_run_backtest :
  forall (reg : Registry) (strategy_name : string) (is_df : DataFrame)
         (p : params),
    result_map sharpe (insample_metrics reg strategy_name is_df p) =
    result_map (fun rd => sharpe (fst rd))
               (backtest_report reg is_df strategy_name p) /\
    (forall b, run_backtest reg is_df strategy_name p <> Ok b) /\
    (forall m,
        insample_metrics reg strategy_name is_df p = Ok m ->
        exists msg,
          run_backtest reg is_df strategy_name p = Raise (AttributeError msg)).
Proof.
  intros reg name is_df p.
  pose proof (insample_sharpe_backtest_report reg name is_df p) as E.
  split; [exact E|]. split; [intros b; apply run_backtest_not_ok|].
  intros m Hm. rewrite Hm in E.
  pose proof (run_backtest_outcome_of reg is_df name p) as H.
  destruct (backtest_report reg is_df name p) as [rd| |];
    [exact H|discriminate|discriminate].
Qed.

Lemma insert_row_length r rs : length (insert_row r rs) = S (length rs).
Proof.
  induction rs as [|r' rs IH]; [reflexivity|].
  cbn [insert_row]. destruct (_ <=? _)%Z; cbn [length]; [reflexivity|].
  now rewrite IH.
Qed.

Lemma sort_values_length df : length (sort_values df) = length df.
Proof.
  induction df as [|r df IH]; [reflexivity|].
  cbn [sort_values fold_right]. fold (sort_values df).
  now rewrite insert_row_length, IH.
Qed.

(** C8.  A series shorter than [insample_days + outsample_days] yields the
    empty result, whatever the strategy name and the parameter space. *)
Theorem short_series_no_segment :
  forall (reg : Registry) (strategy_name : string) (param_space : ParamSpace)
         (insample_days outsample_days : Z) (df : DataFrame),
    (Z.of_nat (length df) < insample_days + outsample_days)%Z ->
    run_walkforward reg strategy_name param_space insample_days
                    outsample_days df
    = Ok (mkWalkForward [] None None).
Proof.
  intros reg name ps isd osd df H. unfold run_walkforward.
  cbn [walk]. rewrite sort_values_length.
  replace (0 + isd + osd >? Z.of_nat (length df))%Z with true
    by (symmetry; apply Z.gtb_lt; lia).
  reflexivity.
Qed.


Module SmaCrossFacts.
Import SmaCross.

Lemma roll_rows_length w minp vs : forall todo st,
  length (Rolling.roll_rows w minp vs todo st) = length todo.
Proof.
  induction todo as [|i todo IH]; intros st; [reflexivity|].
  cbn [Rolling.roll_rows length]. now rewrite IH.
Qed.

Lemma rolling_mean_length w xs : length (rolling_mean w xs) = length xs.
Proof.
  unfold rolling_mean, Rolling.roll_mean, Rolling.prep_values.
  now rewrite roll_rows_length, length_seq, length_map.
Qed.

Lemma signals_length ts fs ss :
  length fs = length ts -> length ss = length ts ->
  length (signals ts fs ss) = length ts.
Proof.
  revert fs ss. induction ts as [|t ts IH]; intros [|f fs] [|s ss];
    cbn [length signals]; try discriminate; try reflexivity.
  intros H1 H2. f_equal. apply IH; lia.
Qed.

Lemma signals_nth ts fs ss t :
  length fs = length ts -> length ss = length ts -> (t < length ts)%nat ->
  nth t (signals ts fs ss) (0%Z, 0%Z) =
  (nth t ts 0%Z, signal_of (nth t fs nan) (nth t ss nan)).
Proof.
  revert fs ss t. induction ts as [|a ts IH]; intros [|f fs] [|s ss] t;
    cbn [length]; try discriminate; try lia.
  intros H1 H2 Ht. destruct t as [|t]; [reflexivity|].
  cbn [signals nth]. apply IH; lia.
Qed.

Lemma signals_timestamps ts fs ss :
  length fs = length ts -> length ss = length ts ->
  map fst (signals ts fs ss) = ts.
Proof.
  revert fs ss. induction ts as [|t ts IH]; intros [|f fs] [|s ss];
    cbn [length signals map]; try discriminate; try reflexivity.
  intros H1 H2. cbn [fst]. f_equal. apply IH; lia.
Qed.

Lemma generate_signals_timestamps fast slow df :
  map fst (generate_signals fast slow df) = map timestamp df.
Proof.
  unfold generate_signals. apply signals_timestamps;
    now rewrite rolling_mean_length, !length_map.
Qed.

Lemma signal_of_gt f s : F64.gt f s = true -> signal_of f s = 1%Z.
Proof.
  unfold signal_of, F64.gt. intros H. rewrite H.
  now rewrite (ltb_asym _ _ H).
Qed.

Lemma signal_of_lt f s : PrimFloat.ltb f s = true -> signal_of f s = (-1)%Z.
Proof. unfold signal_of. intros H. now rewrite H. Qed.

Lemma signal_of_else f s :
  F64.gt f s = false -> PrimFloat.ltb f s = false -> signal_of f s = 0%Z.
Proof. unfold signal_of. intros H1 H2. now rewrite H1, H2. Qed.

Lemma signal_of_eq f s : PrimFloat.eqb f s = true -> signal_of f s = 0%Z.
Proof.
  intros H. apply eqb_not_ltb in H. destruct H.
  now apply signal_of_else.
Qed.

Lemma signal_of_same f : signal_of f f = 0%Z.
Proof. apply signal_of_else; unfold F64.gt; apply ltb_irrefl. Qed.

End SmaCrossFacts.

Lemma iloc_in_range {A} (xs : list A) (a b : Z) :
  (0 <= a)%Z -> (a <= b)%Z -> (b <= Z.of_nat (length xs))%Z ->
  iloc xs a b = firstn (Z.to_nat (b - a)) (skipn (Z.to_nat a) xs).
Proof.
  intros Ha Hab Hb. unfold iloc, slice_bound.
  destruct (a <? 0)%Z eqn:Ea; [apply Z.ltb_lt in Ea; lia|].
  destruct (b <? 0)%Z eqn:Eb; [apply Z.ltb_lt in Eb; lia|].
  now rewrite !Z.min_l by lia.
Qed.


Lemma pct_change_length xs : length (Series.pct_change xs) = length xs.
Proof.
  destruct xs as [|x r]; [reflexivity|]. cbn [Series.pct_change length]. f_equal.
  revert x. induction r as [|y r IH]; intros x; [reflexivity|].
  cbn [Series.pct_change_from length]. now rewrite IH.
Qed.

Lemma cumprod_from_length xs : forall acc,
  length (Series.cumprod_from acc xs) = length xs.
Proof.
  induction xs as [|x r IH]; intros acc; [reflexivity|].
  cbn [Series.cumprod_from]. destruct (PrimFloat.is_nan x); cbn [length];
    now rewrite IH.
Qed.

Lemma zip_with_length f xs ys :
  length xs = length ys -> length (Series.zip_with f xs ys) = length xs.
Proof.
  revert ys. induction xs as [|x xs IH]; intros [|y ys]; cbn [length Series.zip_with];
    try discriminate; try reflexivity.
  intros H. f_equal. apply IH. lia.
Qed.

Lemma merge_left_nonempty r df sig : merge_left (r :: df) sig <> [].
Proof.
  unfold merge_left. cbn [flat_map].
  destruct (filter _ sig); discriminate.
Qed.

Lemma merge_left_length_ge df sig :
  (length df <= length (merge_left df sig))%nat.
Proof.
  unfold merge_left. induction df as [|r df IH]; [cbn; lia|].
  cbn [flat_map length]. rewrite length_app.
  set (rest := flat_map _ df) in *.
  destruct (filter (fun s => (fst s =? timestamp r)%Z) sig);
    cbn [length map]; lia.
Qed.

Lemma compute_metrics_ok equity_curve trade_returns :
  equity_curve <> [] -> exists m, compute_metrics equity_curve trade_returns = Ok m.
Proof.
  intros H. unfold compute_metrics. destruct equity_curve; [congruence|].
  eexists. reflexivity.
Qed.

Lemma nonempty_length {A} (l : list A) : l <> [] <-> (0 < length l)%nat.
Proof. destruct l; cbn; split; intros; try congruence; try lia. Qed.

(** The strategy-return column of a merged frame has one entry per row. *)
Lemma strategy_ret_length (d : list (row * option Z)) :
  length (Series.zip_with PrimFloat.mul
            (position_column (signal_column d))
            (Series.fillna0 (Series.pct_change (close_column d))))
  = length d.
Proof.
  rewrite zip_with_length; rewrite position_column_length;
    unfold signal_column, close_column;
    rewrite ?fillna0_length, ?pct_change_length, !length_map; reflexivity.
Qed.

Section Totality.

Variable reg : Registry.
Variable strategy_name : string.

Lemma insample_metrics_ok is_df p s :
  is_df <> [] -> create_strategy reg strategy_name p = Ok s ->
  exists m, insample_metrics reg strategy_name is_df p = Ok m.
Proof.
  intros Hne Hs. unfold insample_metrics. rewrite Hs. cbn [bind].
  apply compute_metrics_ok. apply nonempty_length.
  unfold Series.cumprod. rewrite cumprod_from_length, length_map.
  rewrite strategy_ret_length. apply nonempty_length.
  destruct is_df; [congruence|]. apply merge_left_nonempty.
Qed.

Lemma grid_search_ok is_df : forall grid bs bp,
  is_df <> [] ->
  Forall (fun p => exists s, create_strategy reg strategy_name p = Ok s) grid ->
  exists bs' bp',
    grid_search reg strategy_name is_df grid bs bp = Ok (bs', bp') /\
    (bp' = bp \/ exists p, bp' = Some p /\ In p grid).
Proof.
  induction grid as [|p grid IH]; intros bs bp Hne Hall.
  - exists bs, bp. split; [reflexivity|now left].
  - inversion Hall as [|? ? [s Hs] Hall']; subst.
    destruct (insample_metrics_ok is_df p s Hne Hs) as [m Hm].
    cbn [grid_search]. rewrite Hm. cbn [bind].
    destruct (F64.gt (sharpe m) bs).
    + destruct (IH (sharpe m) (Some p) Hne Hall') as [bs' [bp' [E H]]].
      exists bs', bp'. split; [exact E|]. right.
      destruct H as [->|[q [-> Hq]]]; [exists p|exists q]; cbn; auto.
    + destruct (IH bs bp Hne Hall') as [bs' [bp' [E H]]].
      exists bs', bp'. split; [exact E|].
      destruct H as [->|[q [-> Hq]]]; [now left|right; exists q; cbn; auto].
Qed.


End Totality.

(** ** An all-zero return series *)

Lemma map_repeat {A B} (f : A -> B) (a : A) (b : B) n :
  f a = b -> map f (repeat a n) = repeat b n.
Proof.
  intros H. induction n as [|n IH]; [reflexivity|].
  cbn [repeat map]. now rewrite H, IH.
Qed.

Lemma fillna0_zeros n : Series.fillna0 (repeat 0 n) = repeat 0 n.
Proof. now apply map_repeat. Qed.

Lemma add1_zeros n : map (PrimFloat.add 1) (repeat 0 n) = repeat 1 n.
Proof. now apply map_repeat. Qed.

Lemma cumprod_ones n : Series.cumprod (repeat 1 n) = repeat 1 n.
Proof.
  unfold Series.cumprod. induction n as [|n IH]; [reflexivity|].
  cbn [repeat Series.cumprod_from].
  change (PrimFloat.is_nan 1) with false. cbv iota beta zeta.
  change (1 * 1) with 1. now rewrite IH.
Qed.

Lemma pct_change_from_ones n :
  Series.pct_change_from 1 (repeat 1 n) = repeat 0 n.
Proof.
  induction n as [|n IH]; [reflexivity|].
  cbn [repeat Series.pct_change_from]. change (1 / 1 - 1) with 0.
  now rewrite IH.
Qed.

Lemma returns_of_ones n :
  Series.fillna0 (Series.pct_change (repeat 1 n)) = repeat 0 n.
Proof.
  destruct n as [|n]; [reflexivity|].
  cbn [repeat Series.pct_change]. rewrite pct_change_from_ones.
  change (Series.fillna0 (nan :: repeat 0 n)) with (0 :: Series.fillna0 (repeat 0 n)).
  now rewrite fillna0_zeros.
Qed.

Lemma dropna_zeros n : Series.dropna (repeat 0 n) = repeat 0 n.
Proof.
  unfold Series.dropna. induction n as [|n IH]; [reflexivity|].
  cbn [repeat filter]. change (Series.notna 0) with true.
  now rewrite IH.
Qed.

Lemma fold_add_zero_or_nan xs : forall acc,
  zero_or_nan acc -> Forall zero_or_nan xs ->
  zero_or_nan (fold_left PrimFloat.add xs acc).
Proof.
  induction xs as [|x xs IH]; intros acc Ha Hx; [exact Ha|].
  inversion Hx; subst. cbn [fold_left]. apply IH; [|assumption].
  now apply zero_or_nan_add.
Qed.

Lemma std_zeros n : zero_or_nan (Series.std (repeat 0 n)).
Proof.
  unfold Series.std. apply zero_or_nan_sqrt. unfold Series.var.
  rewrite dropna_zeros, repeat_length.
  destruct (n <=? 1)%nat; [exact I|].
  apply zero_or_nan_div. unfold F64.sum.
  apply fold_add_zero_or_nan; [exact I|].
  apply Forall_forall. intros x Hx. apply in_map_iff in Hx.
  destruct Hx as [v [<- Hv]]. apply repeat_spec in Hv. subst v.
  assert (Z : zero_or_nan (fold_left PrimFloat.add (repeat 0 n) 0 / F64.of_nat n - 0)).
  { apply zero_or_nan_sub; [|exact I]. apply zero_or_nan_div.
    apply fold_add_zero_or_nan; [exact I|].
    apply Forall_forall. intros y Hy. apply repeat_spec in Hy. now subst y. }
  now apply zero_or_nan_mul.
Qed.

Lemma cum_of_ones n : map (fun e => e / 1) (repeat 1 n) = repeat 1 n.
Proof. now apply map_repeat. Qed.

Lemma last_ones n d : last (repeat 1 (S n)) d = 1.
Proof.
  induction n as [|n IH]; [reflexivity|].
  change (repeat 1 (S (S n))) with (1 :: repeat 1 (S n)).
  change (last (1 :: repeat 1 (S n)) d) with (last (repeat 1 (S n)) d).
  exact IH.
Qed.

Lemma compute_metrics_flat n trade_returns :
  exists m,
    compute_metrics (repeat 1 (S n)) trade_returns = Ok m /\
    total_return m = 0 /\ sharpe m = 0.
Proof.
  unfold compute_metrics. rewrite returns_of_ones.
  rewrite (zero_or_nan_guard _ (std_zeros (S n))).
  change (repeat 1 (S n)) with (1 :: repeat 1 n) at 1.
  cbv iota beta.
  eexists. split; [reflexivity|]. cbn [total_return sharpe].
  split; [|reflexivity].
  rewrite cum_of_ones, last_ones. reflexivity.
Qed.


Lemma sort_values_sorted df : Sorted time_le df -> sort_values df = df.
Proof.
  induction df as [|r df IH]; intros H; [reflexivity|].
  inversion H as [|? ? Hs Hh]; subst.
  cbn [sort_values fold_right]. fold (sort_values df). rewrite (IH Hs).
  destruct df as [|r' df]; [reflexivity|].
  inversion Hh as [|? ? Hle]; subst. unfold time_le in Hle.
  cbn [insert_row].
  now replace (timestamp r <=? timestamp r')%Z with true
    by (symmetry; apply Z.leb_le; exact Hle).
Qed.


(** ** The registered strategy *)

Lemma create_sma_cross p :
  create_strategy REGISTRY "sma_cross" p = SmaCross.init p.
Proof. reflexivity. Qed.

Lemma sma_cross_init_inv p s :
  SmaCross.init p = Ok s ->
  exists fast slow, s = mkStrategy (SmaCross.generate_signals fast slow).
Proof.
  unfold SmaCross.init.
  destruct (negb _); [discriminate|].
  destruct (match dict_get "fast" p with Some v => v | None => PyInt 10 end);
    [|discriminate].
  destruct (match dict_get "slow" p with Some v => v | None => PyInt 30 end);
    [|discriminate].
  destruct (_ || _); [discriminate|].
  intros H. injection H as <-. eauto.
Qed.

Lemma registry_aligned : aligned REGISTRY.
Proof.
  intros name p s df H. unfold create_strategy, REGISTRY in H.
  cbn [dict_get] in H. destruct (String.eqb name "sma_cross"); [|discriminate].
  apply sma_cross_init_inv in H. destruct H as [f [sl ->]].
  apply SmaCrossFacts.generate_signals_timestamps.
Qed.

Lemma grid_ok_constructible ps :
  grid_ok ps = true ->
  Forall (fun p => exists s, create_strategy REGISTRY "sma_cross" p = Ok s)
         (_grid ps).
Proof.
  unfold grid_ok. rewrite forallb_forall. intros H.
  apply Forall_forall. intros p Hp. specialize (H p Hp).
  unfold valid_combo in H. rewrite create_sma_cross.
  destruct (SmaCross.init p) as [s| |]; try discriminate. now exists s.
Qed.


(** ** The grid *)

Lemma insert_entry_keys kv ps :
  map fst (insert_entry kv ps) = insert_key (fst kv) (map fst ps).
Proof.
  induction ps as [|kv' ps IH]; [reflexivity|].
  cbn [insert_entry insert_key map].
  destruct (String.leb (fst kv) (fst kv')); cbn [map]; [reflexivity|].
  now rewrite IH.
Qed.

Lemma sort_space_keys ps : map fst (sort_space ps) = sorted_keys (map fst ps).
Proof.
  induction ps as [|kv ps IH]; [reflexivity|].
  cbn [sort_space sorted_keys fold_right map].
  fold (sort_space ps). fold (sorted_keys (map fst ps)).
  now rewrite insert_entry_keys, IH.
Qed.

Lemma insert_entry_perm kv ps : Permutation (kv :: ps) (insert_entry kv ps).
Proof.
  induction ps as [|kv' ps IH]; [reflexivity|].
  cbn [insert_entry]. destruct (String.leb (fst kv) (fst kv')); [reflexivity|].
  rewrite perm_swap. now apply perm_skip.
Qed.

Lemma sort_space_perm ps : Permutation ps (sort_space ps).
Proof.
  induction ps as [|kv ps IH]; [reflexivity|].
  cbn [sort_space fold_right]. fold (sort_space ps).
  rewrite <- insert_entry_perm. now apply perm_skip.
Qed.

Lemma insert_entry_sorted kv ps :
  Sorted key_le ps -> Sorted key_le (insert_entry kv ps).
Proof.
  induction 1 as [|kv' ps Hs IH Hh]; [repeat constructor|].
  cbn [insert_entry]. destruct (String.leb (fst kv) (fst kv')) eqn:E.
  - constructor; [now constructor|]. constructor. exact E.
  - constructor; [exact IH|].
    assert (Hk : key_le kv' kv).
    { unfold key_le. destruct (String.leb_total (fst kv) (fst kv')); congruence. }
    destruct ps as [|kv'' ps]; cbn [insert_entry]; [now constructor|].
    destruct (String.leb (fst kv) (fst kv'')); constructor; [exact Hk|].
    now inversion Hh.
Qed.

Lemma sort_space_sorted ps : Sorted key_le (sort_space ps).
Proof.
  induction ps as [|kv ps IH]; [constructor|].
  cbn [sort_space fold_right]. now apply insert_entry_sorted.
Qed.

Lemma dict_get_unique {V} (d : list (string * V)) k v :
  NoDup (map fst d) -> In (k, v) d -> dict_get k d = Some v.
Proof.
  induction d as [|[k' v'] d IH]; intros Hnd Hin; [contradiction|].
  cbn [map fst] in Hnd. inversion Hnd as [|? ? Hnot Hnd']; subst.
  cbn [dict_get]. destruct Hin as [E|Hin].
  - injection E as -> ->. now rewrite String.eqb_refl.
  - destruct (String.eqb_spec k k') as [->|_]; [|now apply IH].
    exfalso. apply Hnot. apply in_map_iff. now exists (k', v).
Qed.

Lemma combine_fst_snd {A B} (l : list (A * B)) :
  combine (map fst l) (map snd l) = l.
Proof.
  induction l as [|[a b] l IH]; [reflexivity|]. cbn. now rewrite IH.
Qed.

Lemma product_cartesian : forall keys values,
  length keys = length values ->
  map (fun vals => combine keys vals) (product values)
  = cartesian (combine keys values).
Proof.
  induction keys as [|k keys IH]; intros [|vs values] H;
    try discriminate; [reflexivity|].
  cbn [product combine cartesian].
  assert (IH' := IH values ltac:(cbn in H; lia)). clear IH H.
  induction vs as [|v vs IHv]; [reflexivity|].
  cbn [flat_map]. rewrite map_app, IHv. f_equal.
  rewrite <- IH', !map_map. reflexivity.
Qed.

Lemma grid_is_sorted_cartesian ps :
  NoDup (map fst ps) -> _grid ps = cartesian (sort_space ps).
Proof.
  intros Hnd. unfold _grid. rewrite <- sort_space_keys.
  rewrite product_cartesian by now rewrite !length_map.
  f_equal.
  rewrite <- (combine_fst_snd (sort_space ps)) at 3. f_equal.
  rewrite map_map. apply map_ext_in. intros [k vs] Hin. cbn [fst snd].
  rewrite (dict_get_unique ps k vs Hnd); [reflexivity|].
  apply Permutation_in with (l := sort_space ps);
    [symmetry; apply sort_space_perm|exact Hin].
Qed.

(** ** The winner of the grid search *)

Section Winner.

Variable reg : Registry.
Variable strategy_name : string.
Variable is_df : DataFrame.

Local Abbreviation evaluate := (insample_metrics reg strategy_name is_df).


Lemma grid_search_winner : forall grid bs0 bp0 bs bp,
  grid_search reg strategy_name is_df grid bs0 bp0 = Ok (bs, bp) ->
  (bp = bp0 /\ bs = bs0 /\
   forall p, In p grid ->
     exists m, evaluate p = Ok m /\ F64.gt (sharpe m) bs0 = false)
  \/
  (exists k p m,
     nth_error grid k = Some p /\ evaluate p = Ok m /\
     bp = Some p /\ bs = sharpe m /\ F64.gt bs bs0 = true /\
     first_greatest reg strategy_name is_df grid k bs).
Proof.
  induction grid as [|p grid IH]; intros bs0 bp0 bs bp H.
  - cbn in H. injection H as <- <-. left. repeat split. intros p [].
  - cbn [grid_search] in H.
    destruct (evaluate p) as [m| |] eqn:Em; try discriminate.
    cbn [bind] in H. unfold F64.gt in *.
    destruct (PrimFloat.ltb bs0 (sharpe m)) eqn:Egt.
    + apply IH in H. right.
      destruct H as [[-> [-> Hall]]|[k [q [mq [Hk [Eq [-> [-> [Hgt Hfg]]]]]]]]].
      * exists O, p, m. repeat split; try assumption; try reflexivity.
        intros j pj Hj. destruct j as [|j].
        -- injection Hj as <-. exists m. split; [exact Em|]. unfold F64.gt.
           split; [apply ltb_irrefl|lia].
        -- cbn in Hj. apply nth_error_In in Hj.
           destruct (Hall pj Hj) as [mj [Ej Hle]].
           exists mj. repeat split; try assumption. lia.
      * exists (S k), q, mq. repeat split; try assumption.
        { now apply (ltb_trans _ _ _ Egt). }
        intros j pj Hj. destruct j as [|j].
        -- injection Hj as <-. exists m. split; [exact Em|]. unfold F64.gt.
           split; [now apply ltb_asym|]. intros _.
           destruct (PrimFloat.leb (sharpe mq) (sharpe m)) eqn:El;
             [|reflexivity].
           apply leb_not_ltb in El. congruence.
        -- cbn in Hj. destruct (Hfg j pj Hj) as [mj [Ej [Hle Hlt]]].
           exists mj. repeat split; try assumption. intros Hjk.
           apply Hlt. lia.
    + apply IH in H.
      destruct H as [[-> [-> Hall]]|[k [q [mq [Hk [Eq [-> [-> [Hgt Hfg]]]]]]]]].
      * left. repeat split. intros p' [<-|Hp']; [now exists m|now apply Hall].
      * right. exists (S k), q, mq. repeat split; try assumption.
        intros j pj Hj. destruct j as [|j].
        -- injection Hj as <-. exists m. split; [exact Em|]. unfold F64.gt. split.
           ++ destruct (PrimFloat.ltb (sharpe mq) (sharpe m)) eqn:El;
                [|reflexivity].
              pose proof (ltb_trans _ _ _ Hgt El). congruence.
           ++ intros _.
              destruct (PrimFloat.leb (sharpe mq) (sharpe m)) eqn:El;
                [|reflexivity].
              pose proof (ltb_leb_trans _ _ _ Hgt El). congruence.
        -- cbn in Hj. destruct (Hfg j pj Hj) as [mj [Ej [Hle Hlt]]].
           exists mj. repeat split; try assumption. intros Hjk.
           apply Hlt. lia.
Qed.

End Winner.

(** C2.  For a parameter space with distinct names the grid is the cartesian
    product of the candidate lists taken in the order of the sorted names.
    Over a non-empty window on which every combination builds a strategy,
    the search returns; its winner is the first combination whose in-sample
    Sharpe ratio none exceeds (ties keep the earliest), unless no Sharpe
    ratio exceeds the initial [-1e9], when there is no winner. *)
Theorem grid_winner_first_greatest :
  forall (reg : Registry) (strategy_name : string) (param_space : ParamSpace)
         (is_df : DataFrame),
    NoDup (map fst param_space) ->
    is_df <> [] ->
    Forall (fun p => exists s, create_strategy reg strategy_name p = Ok s)
           (_grid param_space) ->
    Permutation param_space (sort_space param_space) /\
    Sorted key_le (sort_space param_space) /\
    _grid param_space = cartesian (sort_space param_space) /\
    exists bs bp,
      grid_search reg strategy_name is_df (_grid param_space)
                  F64.sentinel None = Ok (bs, bp) /\
      ((bp = None /\ bs = F64.sentinel /\
        forall p, In p (_grid param_space) ->
          exists m, insample_metrics reg strategy_name is_df p = Ok m /\
                    F64.gt (sharpe m) F64.sentinel = false)
       \/
       (exists k p m,
          nth_error (_grid param_space) k = Some p /\
          insample_metrics reg strategy_name is_df p = Ok m /\
          bp = Some p /\ bs = sharpe m /\
          F64.gt bs F64.sentinel = true /\
          first_greatest reg strategy_name is_df (_grid param_space) k bs)).
Proof.
  intros reg name ps is_df Hnd Hne Hall.
  split; [apply sort_space_perm|]. split; [apply sort_space_sorted|].
  split; [now apply grid_is_sorted_cartesian|].
  destruct (grid_search_ok reg name is_df (_grid ps) F64.sentinel None Hne Hall)
    as [bs [bp [G _]]].
  exists bs, bp. split; [exact G|].
  exact (grid_search_winner reg name is_df _ _ _ _ _ G).
Qed.

(** ** The theorems at the sample inputs *)

Lemma sample_space_names_distinct : NoDup (map fst sample_space).
Proof.
  repeat constructor; cbn; intuition discriminate.
Qed.

Lemma grid_winner_first_greatest_witness :
  (NoDup (map fst sample_space) /\ sample_frame <> [] /\
   grid_ok sample_space = true) /\
  _grid sample_space = cartesian (sort_space sample_space) /\
  exists bs bp,
    grid_search REGISTRY "sma_cross" sample_frame (_grid sample_space)
                F64.sentinel None = Ok (bs, bp) /\
    bp <> None.
Proof.
  split; [repeat split; [exact sample_space_names_distinct|discriminate]|].
  destruct (grid_winner_first_greatest REGISTRY "sma_cross" sample_space
              sample_frame sample_space_names_distinct ltac:(discriminate)
              (grid_ok_constructible sample_space eq_refl))
    as [_ [_ [G [bs [bp [S W]]]]]].
  split; [exact G|]. exists bs, bp. split; [exact S|].
  revert S. vm_compute. intros S. injection S as _ <-. discriminate.
Defined.

(** C2, as stated, fails: the parameter space [{'fast': []}] is not empty,
    yet its grid is, and on every window the search selects no combination
    ([best_params] stays [None], the best Sharpe ratio the initial
    [-1e9]). *)
Lemma empty_candidates_counterexample :
  let param_space : ParamSpace := [("fast"%string, [])] in
  param_space <> [] /\
  NoDup (map fst param_space) /\
  _grid param_space = [] /\
  forall (reg : Registry) (strategy_name : string) (is_df : DataFrame),
    grid_search reg strategy_name is_df (_grid param_space) F64.sentinel None
    = Ok (F64.sentinel, None).
Proof.
  cbv zeta. split; [discriminate|].
  split; [repeat constructor; cbn; tauto|].
  split; [reflexivity|]. intros reg name is_df. reflexivity.
Qed.

Lemma short_series_no_segment_witness :
  (Z.of_nat (length sample_frame) < 5 + 2)%Z /\
  run_walkforward REGISTRY "sma_cross" sample_space 5 2 sample_frame
  = Ok (mkWalkForward [] None None).
Proof.
  split; [cbn; lia|].
  apply (short_series_no_segment REGISTRY "sma_cross" sample_space 5 2
           sample_frame).
  cbn; lia.
Defined.

(** ** What [run_walkforward] answers *)

Lemma oos_apply_outcome reg name oos_df bp :
  match create_strategy reg name (or_empty bp) with
  | Ok _ =>
      exists msg, oos_apply reg name oos_df bp = Raise (AttributeError msg)
  | Raise e => oos_apply reg name oos_df bp = Raise e
  | OutOfFuel => oos_apply reg name oos_df bp = OutOfFuel
  end.
Proof.
  unfold oos_apply.
  destruct (create_strategy reg name (or_empty bp)) as [s| |];
    cbn [bind]; [|reflexivity|reflexivity].
  destruct (oos_strategy_ret s oos_df) as [d2 sr].
  unfold Series.dt_isoformat. cbn [bind]. eauto.
Qed.

Lemma oos_apply_not_ok reg name oos_df bp out :
  oos_apply reg name oos_df bp <> Ok out.
Proof.
  pose proof (oos_apply_outcome reg name oos_df bp) as H.
  destruct (create_strategy reg name (or_empty bp)) as [s| |].
  - destruct H as [msg ->]. discriminate.
  - rewrite H. discriminate.
  - rewrite H. discriminate.
Qed.

(** No pass through the body of the loop comes to its end. *)
Lemma walk_window_not_ok reg name ps is_df oos_df w :
  walk_window reg name ps is_df oos_df <> Ok w.
Proof.
  unfold walk_window.
  destruct (grid_search reg name is_df (_grid ps) F64.sentinel None)
    as [[bs bp]| |]; cbn [bind]; try discriminate.
  pose proof (oos_apply_not_ok reg name oos_df bp) as H.
  destruct (oos_apply reg name oos_df bp) as [o| |]; cbn [bind];
    try discriminate.
  exfalso. now apply (H o).
Qed.

(** The loop either stops at its first test or fails in its first pass. *)
Lemma run_walkforward_outcome reg name ps isd osd df :
  let series := sort_values df in
  if (isd + osd >? Z.of_nat (length df))%Z
  then run_walkforward reg name ps isd osd df
       = Ok (mkWalkForward [] None None)
  else
    match walk_window reg name ps (iloc series 0 isd)
                      (iloc series isd (isd + osd)) with
    | Ok _ => False
    | Raise e => run_walkforward reg name ps isd osd df = Raise e
    | OutOfFuel => run_walkforward reg name ps isd osd df = OutOfFuel
    end.
Proof.
  intros series. unfold run_walkforward. fold series. cbn [walk].
  rewrite !Z.add_0_l.
  assert (Ln : length series = length df) by apply sort_values_length.
  rewrite !Ln.
  destruct (isd + osd >? Z.of_nat (length df))%Z; [reflexivity|].
  pose proof (walk_window_not_ok reg name ps (iloc series 0 isd)
                (iloc series isd (isd + osd))) as N.
  destruct (walk_window reg name ps (iloc series 0 isd)
              (iloc series isd (isd + osd))) as [w| |];
    [now apply (N w)|reflexivity|reflexivity].
Qed.

Lemma run_walkforward_returns reg name ps isd osd df r :
  run_walkforward reg name ps isd osd df = Ok r ->
  (Z.of_nat (length df) < isd + osd)%Z /\ r = mkWalkForward [] None None.
Proof.
  intros H. pose proof (run_walkforward_outcome reg name ps isd osd df) as O.
  cbv zeta in O.
  destruct (isd + osd >? Z.of_nat (length df))%Z eqn:E.
  - apply Z.gtb_lt in E. split; [exact E|]. congruence.
  - destruct (walk_window _ _ _ _ _) as [w| |]; [contradiction| |];
      rewrite O in H; discriminate.
Qed.

Lemma run_walkforward_fails reg name ps isd osd df r :
  (isd + osd <= Z.of_nat (length df))%Z ->
  run_walkforward reg name ps isd osd df <> Ok r.
Proof.
  intros Hfit H. apply run_walkforward_returns in H. lia.
Qed.

(** With the registered strategy and a grid of combinations its
    constructor accepts, the failure is the [AttributeError] of line 131. *)
Lemma walk_window_sma ps is_df oos_df :
  is_df <> [] -> grid_ok ps = true ->
  exists msg,
    walk_window REGISTRY "sma_cross" ps is_df oos_df
    = Raise (AttributeError msg).
Proof.
  intros Hne Hok.
  pose proof (grid_ok_constructible ps Hok) as Hall.
  destruct (grid_search_ok REGISTRY "sma_cross" is_df (_grid ps)
              F64.sentinel None Hne Hall) as [bs [bp [G Hbp]]].
  unfold walk_window. rewrite G. cbn [bind].
  assert (Hs : exists s,
             create_strategy REGISTRY "sma_cross" (or_empty bp) = Ok s).
  { destruct Hbp as [->|[p [-> Hp]]].
    - eexists. reflexivity.
    - rewrite Forall_forall in Hall. exact (Hall p Hp). }
  destruct Hs as [s Hs].
  pose proof (oos_apply_outcome REGISTRY "sma_cross" oos_df bp) as O.
  rewrite Hs in O. destruct O as [msg ->]. cbn [bind]. eauto.
Qed.

Lemma iloc_head {A} (xs : list A) (b : Z) :
  (0 <= b <= Z.of_nat (length xs))%Z ->
  iloc xs 0 b = firstn (Z.to_nat b) xs /\
  length (iloc xs 0 b) = Z.to_nat b.
Proof.
  intros H. rewrite iloc_in_range by lia.
  rewrite Z.sub_0_r. cbn [Z.to_nat skipn]. split; [reflexivity|].
  rewrite length_firstn. lia.
Qed.

Lemma iloc_next {A} (xs : list A) (a b : Z) :
  (0 <= a)%Z -> (a <= b)%Z -> (b <= Z.of_nat (length xs))%Z ->
  length (iloc xs a b) = Z.to_nat (b - a).
Proof.
  intros Ha Hab Hb. rewrite iloc_in_range by lia.
  rewrite length_firstn, length_skipn. lia.
Qed.

Lemma run_walkforward_sma ps isd osd df :
  (1 <= isd)%Z -> (0 <= osd)%Z ->
  (isd + osd <= Z.of_nat (length df))%Z ->
  grid_ok ps = true ->
  exists msg,
    run_walkforward REGISTRY "sma_cross" ps isd osd df
    = Raise (AttributeError msg).
Proof.
  intros His Hos Hfit Hok.
  pose proof (run_walkforward_outcome REGISTRY "sma_cross" ps isd osd df) as O.
  cbv zeta in O.
  replace (isd + osd >? Z.of_nat (length df))%Z with false in O
    by (symmetry; rewrite Z.gtb_ltb; apply Z.ltb_ge; lia).
  destruct (walk_window_sma ps (iloc (sort_values df) 0 isd)
              (iloc (sort_values df) isd (isd + osd))) as [msg W];
    [|exact Hok|].
  - apply nonempty_length.
    destruct (iloc_head (sort_values df) isd) as [_ L];
      [rewrite sort_values_length; lia|]. rewrite L. lia.
  - rewrite W in O. eauto.
Qed.

(** C1.  When a first window fits, [run_walkforward] extracts it as
    [series[0 : insample_days]] and
    [series[insample_days : insample_days + outsample_days]] of the sorted
    series, but the pass over it never comes to its end: the exception it
    raises is the outcome of the call, which therefore returns no segment
    and no out-of-sample period, and never reaches a second cursor.  With
    the registered [sma_cross] and a grid its constructor accepts, the
    exception is the [AttributeError] of line 131, as on a frame of 6
    rows with [insample_days = 3] and [outsample_days = 1]. *)
Theorem walkforward_window_schedule :
  forall (reg : Registry) (strategy_name : string) (param_space : ParamSpace)
         (insample_days outsample_days : Z) (df : DataFrame),
    (1 <= insample_days)%Z -> (1 <= outsample_days)%Z ->
    (insample_days + outsample_days <= Z.of_nat (length df))%Z ->
    let series := sort_values df in
    let is_df := iloc series 0 insample_days in
    let oos_df :=
      iloc series insample_days (insample_days + outsample_days) in
    is_df = firstn (Z.to_nat insample_days) series /\
    oos_df = firstn (Z.to_nat outsample_days)
                    (skipn (Z.to_nat insample_days) series) /\
    length is_df = Z.to_nat insample_days /\
    length oos_df = Z.to_nat outsample_days /\
    (forall w,
        walk_window reg strategy_name param_space is_df oos_df <> Ok w) /\
    (forall e,
        walk_window reg strategy_name param_space is_df oos_df = Raise e ->
        run_walkforward reg strategy_name param_space insample_days
                        outsample_days df = Raise e) /\
    (forall r,
        run_walkforward reg strategy_name param_space insample_days
                        outsample_days df <> Ok r) /\
    (grid_ok param_space = true ->
     exists msg,
       run_walkforward REGISTRY "sma_cross" param_space insample_days
                       outsample_days df = Raise (AttributeError msg)).
Proof.
  intros reg name ps isd osd df His Hos Hfit series is_df oos_df.
  assert (Ln : length series = length df) by apply sort_values_length.
  destruct (iloc_head series isd ltac:(lia)) as [E1 L1].
  split; [exact E1|].
  split.
  { unfold oos_df. rewrite iloc_in_range by lia. do 2 f_equal. lia. }
  split; [exact L1|].
  split.
  { unfold oos_df. rewrite iloc_next by lia. f_equal. lia. }
  split; [intros w; apply walk_window_not_ok|].
  split.
  { intros e W.
    pose proof (run_walkforward_outcome reg name ps isd osd df) as O.
    cbv zeta in O.
    replace (isd + osd >? Z.of_nat (length df))%Z with false in O
      by (symmetry; rewrite Z.gtb_ltb; apply Z.ltb_ge; lia).
    fold series in O. fold is_df oos_df in O. now rewrite W in O. }
  split; [intros r; now apply run_walkforward_fails|].
  intros Hok. apply run_walkforward_sma; auto; lia.
Qed.

Lemma walkforward_window_schedule_witness :
  length sample_frame = 6%nat /\
  exists msg,
    run_walkforward REGISTRY "sma_cross" sample_space 3 1 sample_frame
    = Raise (AttributeError msg).
Proof.
  split; [reflexivity|].
  pose proof (walkforward_window_schedule REGISTRY "sma_cross" sample_space
                3 1 sample_frame ltac:(lia) ltac:(lia) ltac:(cbn; lia)) as H.
  cbv zeta in H. exact (proj2 (proj2 (proj2 (proj2 (proj2 (proj2 (proj2 H)))))) eq_refl).
Defined.

(** C7.  [run_walkforward] never reports an overfit risk: every result it
    returns is the empty one of a series too short for a first window,
    with [overfit_risk] and [oos] [None]; as soon as a window fits, and so
    an out-of-sample period would be produced, the call returns nothing,
    so that the formula of lines 136 to 142 is never evaluated on a
    period. *)
Theorem overfit_risk_never_reported :
  forall (reg : Registry) (strategy_name : string) (param_space : ParamSpace)
         (insample_days outsample_days : Z) (df : DataFrame)
         (r : WalkForwardResult),
    run_walkforward reg strategy_name param_space insample_days
                    outsample_days df = Ok r ->
    (Z.of_nat (length df) < insample_days + outsample_days)%Z /\
    segments r = [] /\ oos r = None /\ overfit_risk r = None.
Proof.
  intros reg name ps isd osd df r H.
  apply run_walkforward_returns in H. destruct H as [L ->].
  repeat split. exact L.
Qed.

Lemma overfit_risk_never_reported_witness :
  exists r,
    run_walkforward REGISTRY "sma_cross" sample_space 4 3 sample_frame = Ok r /\
    overfit_risk r = None.
Proof.
  assert (H : exists r,
             run_walkforward REGISTRY "sma_cross" sample_space 4 3 sample_frame
             = Ok r) by (eexists; reflexivity).
  destruct H as [r H]. exists r. split; [exact H|].
  exact (proj2 (proj2 (proj2
           (overfit_risk_never_reported REGISTRY "sma_cross" sample_space 4 3
              sample_frame r H)))).
Defined.

Lemma oos_first_return_zero strat oos_df :
  oos_df <> [] ->
  exists rest, snd (oos_strategy_ret strat oos_df) = 0 :: rest.
Proof.
  intros Hne. unfold oos_strategy_ret. cbn [snd].
  destruct oos_df as [|r df]; [congruence|].
  pose proof (merge_left_nonempty r df (generate_signals strat (r :: df)))
    as Hd.
  destruct (merge_left (r :: df) (generate_signals strat (r :: df)))
    as [|m d]; [congruence|].
  unfold signal_column, close_column. cbn [map].
  rewrite position_column_cons. cbn [Series.pct_change].
  change (Series.fillna0 (nan :: ?t)) with (0 :: Series.fillna0 t).
  cbn [Series.zip_with]. change (0 * 0) with 0. eexists. reflexivity.
Qed.

(** C10.  The strategy returns computed for an out-of-sample window, which
    is evaluated on its own, start with 0 whatever the strategy.  But no
    aggregated report follows: with [outsample_days = 1], as with any
    other value, a call in which a window fits returns nothing (with the
    registered [sma_cross] and an accepted grid it raises the
    [AttributeError] of line 131), so that no combined out-of-sample
    equity, [total_return] or [sharpe] is ever reported. *)
Theorem oos_first_period_flat :
  (forall (strat : Strategy) (oos_df : DataFrame),
      oos_df <> [] ->
      exists rest, snd (oos_strategy_ret strat oos_df) = 0 :: rest) /\
  (forall (reg : Registry) (strategy_name : string)
          (param_space : ParamSpace) (insample_days : Z) (df : DataFrame)
          (r : WalkForwardResult),
      (insample_days + 1 <= Z.of_nat (length df))%Z ->
      run_walkforward reg strategy_name param_space insample_days 1 df
      <> Ok r) /\
  (forall (param_space : ParamSpace) (insample_days : Z) (df : DataFrame),
      (1 <= insample_days)%Z ->
      (insample_days + 1 <= Z.of_nat (length df))%Z ->
      grid_ok param_space = true ->
      exists msg,
        run_walkforward REGISTRY "sma_cross" param_space insample_days 1 df
        = Raise (AttributeError msg)).
Proof.
  split; [exact oos_first_return_zero|]. split.
  - intros reg name ps isd df r Hfit. now apply run_walkforward_fails.
  - intros ps isd df His Hfit Hok. apply run_walkforward_sma; auto; lia.
Qed.




(** * Rounding to nearest, over the reals *)

Module RoundingFacts.
Import Reals Lra.
Import Rounding.

Local Open Scope R_scope.

Lemma bpow_pos e : 0 < bpow e.
Proof. apply powerRZ_lt. lra. Qed.

Lemma bpow_add a b : bpow (a + b) = bpow a * bpow b.
Proof. apply powerRZ_add. lra. Qed.

Lemma bpow_Z n : (0 <= n)%Z -> bpow n = IZR (2 ^ n).
Proof.
  intros H. unfold bpow. rewrite <- (Z2Nat.id n H) at 1.
  rewrite <- pow_powerRZ. rewrite pow_IZR. now rewrite Z2Nat.id.
Qed.

Lemma bpow_le a b : (a <= b)%Z -> bpow a <= bpow b.
Proof.
  intros H. replace b with (a + (b - a))%Z by lia. rewrite bpow_add.
  rewrite (bpow_Z (b - a)) by lia.
  assert (1 <= IZR (2 ^ (b - a))).
  { apply IZR_le. assert (0 < 2 ^ (b - a))%Z by (apply Z.pow_pos_nonneg; lia). lia. }
  pose proof (bpow_pos a). nra.
Qed.

Lemma bpow_lt a b : (a < b)%Z -> bpow a < bpow b.
Proof.
  intros H. replace b with (a + (b - a))%Z by lia. rewrite bpow_add.
  rewrite (bpow_Z (b - a)) by lia.
  assert (2 <= IZR (2 ^ (b - a))).
  { apply IZR_le. replace (b - a)%Z with (1 + (b - a - 1))%Z by lia.
    rewrite Z.pow_add_r by lia.
    assert (0 < 2 ^ (b - a - 1))%Z by (apply Z.pow_pos_nonneg; lia). lia. }
  pose proof (bpow_pos a). nra.
Qed.

Lemma V_shift m e n : (0 <= n)%Z -> V (m * 2 ^ n) e = V m (e + n).
Proof.
  intros H. unfold V. rewrite mult_IZR, bpow_add, (bpow_Z n H). ring.
Qed.

Lemma V_le m1 m2 e : (m1 <= m2)%Z -> V m1 e <= V m2 e.
Proof.
  intros H. unfold V. apply IZR_le in H. pose proof (bpow_pos e). nra.
Qed.

Lemma V_lt m1 m2 e : (m1 < m2)%Z -> V m1 e < V m2 e.
Proof.
  intros H. unfold V. apply IZR_lt in H. pose proof (bpow_pos e). nra.
Qed.

Lemma V_le_inv m1 m2 e : V m1 e <= V m2 e -> (m1 <= m2)%Z.
Proof.
  intros H. unfold V in H. pose proof (bpow_pos e).
  apply le_IZR. nra.
Qed.

Lemma V_lt_inv m1 m2 e : V m1 e < V m2 e -> (m1 < m2)%Z.
Proof.
  intros H. unfold V in H. pose proof (bpow_pos e).
  apply lt_IZR. nra.
Qed.

(** ** Binary digits *)

Lemma digits2_pos_bounds p :
  (2 ^ (Zpos (digits2_pos p) - 1) <= Zpos p < 2 ^ Zpos (digits2_pos p))%Z.
Proof.
  induction p as [p IH|p IH|]; cbn [digits2_pos].
  - rewrite Pos2Z.inj_succ.
    replace (Z.succ (Zpos (digits2_pos p)) - 1)%Z
      with (1 + (Zpos (digits2_pos p) - 1))%Z by lia.
    rewrite Z.pow_succ_r by lia. rewrite Z.pow_add_r by lia.
    change (2 ^ 1)%Z with 2%Z. lia.
  - rewrite Pos2Z.inj_succ.
    replace (Z.succ (Zpos (digits2_pos p)) - 1)%Z
      with (1 + (Zpos (digits2_pos p) - 1))%Z by lia.
    rewrite Z.pow_succ_r by lia. rewrite Z.pow_add_r by lia.
    change (2 ^ 1)%Z with 2%Z. lia.
  - cbn. lia.
Qed.

Lemma Zdigits2_bounds m :
  (0 < m)%Z -> (2 ^ (Zdigits2 m - 1) <= m < 2 ^ Zdigits2 m)%Z.
Proof.
  destruct m as [|p|p]; try lia. intros _. apply digits2_pos_bounds.
Qed.

Lemma Zdigits2_pos m : (0 < m)%Z -> (0 < Zdigits2 m)%Z.
Proof. destruct m; cbn; lia. Qed.

Lemma Zdigits2_le m k : (0 < m)%Z -> (0 <= k)%Z -> (m < 2 ^ k)%Z -> (Zdigits2 m <= k)%Z.
Proof.
  intros Hm Hk H. pose proof (Zdigits2_bounds m Hm) as [L _].
  destruct (Z_lt_le_dec k (Zdigits2 m)) as [C|C]; [|exact C].
  exfalso. assert (2 ^ k <= 2 ^ (Zdigits2 m - 1))%Z by (apply Z.pow_le_mono_r; lia).
  lia.
Qed.

Lemma Zdigits2_ge m k : (0 <= k)%Z -> (2 ^ k <= m)%Z -> (k < Zdigits2 m)%Z.
Proof.
  intros Hk H.
  assert (Hm : (0 < m)%Z) by (assert (0 < 2 ^ k)%Z by (apply Z.pow_pos_nonneg; lia); lia).
  pose proof (Zdigits2_bounds m Hm) as [_ U]. pose proof (Zdigits2_pos m Hm).
  destruct (Z_lt_le_dec k (Zdigits2 m)) as [C|C]; [exact C|].
  exfalso. assert (2 ^ Zdigits2 m <= 2 ^ k)%Z by (apply Z.pow_le_mono_r; lia).
  lia.
Qed.

Local Open Scope Z_scope.

Lemma shr_1_shifted r : 0 <= shr_m r -> shifted 1 r (shr_1 r).
Proof.
  destruct r as [m rb sb]. cbn [shr_m]. intros Hm. unfold shifted, flag.
  change (2 ^ 1) with 2.
  destruct m as [|[p|p|]|p]; try lia; cbn [shr_1 shr_m shr_r shr_s].
  - rewrite Z.mod_0_l, Z.div_0_l by lia. destruct rb, sb; cbn; intuition.
  - split.
    + rewrite Pos2Z.inj_xI.
      apply Z.div_unique with (r := 1); lia.
    + rewrite Pos2Z.inj_xI.
      replace ((2 * Zpos p + 1) mod 2) with 1
        by (apply Z.mod_unique with (q := Zpos p); lia).
      cbn. intuition discriminate.
  - split.
    + rewrite Pos2Z.inj_xO.
      apply Z.div_unique with (r := 0); lia.
    + rewrite Pos2Z.inj_xO.
      replace ((2 * Zpos p) mod 2) with 0
        by (apply Z.mod_unique with (q := Zpos p); lia).
      destruct rb, sb; cbn; intuition.
  - cbn. intuition discriminate.
Qed.

Lemma mod_mul_zero m a b :
  0 <= m -> 0 < a -> 0 < b ->
  (m mod (a * b) = 0 <-> m mod a = 0 /\ (m / a) mod b = 0).
Proof.
  intros Hm Ha Hb. rewrite Z.rem_mul_r by lia.
  pose proof (Z.mod_pos_bound m a Ha). pose proof (Z.mod_pos_bound (m / a) b Hb).
  split; [intros E; split; nia|intros [-> ->]; lia].
Qed.

Lemma shifted_trans n1 n2 r r' r'' :
  0 <= n1 -> 0 <= n2 -> 0 <= shr_m r ->
  shifted n1 r r' -> shifted n2 r' r'' -> shifted (n1 + n2) r r''.
Proof.
  intros H1 H2 Hm [E1 F1] [E2 F2]. unfold shifted.
  assert (P1 : 0 < 2 ^ n1) by (apply Z.pow_pos_nonneg; lia).
  assert (P2 : 0 < 2 ^ n2) by (apply Z.pow_pos_nonneg; lia).
  rewrite Z.pow_add_r by lia. split.
  - rewrite E2, E1. rewrite Z.div_div by lia. reflexivity.
  - rewrite F2, F1, E1. rewrite (mod_mul_zero (shr_m r)) by lia. tauto.
Qed.

Lemma shifted_nonneg n r r' :
  0 <= n -> 0 <= shr_m r -> shifted n r r' -> 0 <= shr_m r'.
Proof.
  intros Hn Hm [E _]. rewrite E. apply Z.div_pos; [lia|].
  apply Z.pow_pos_nonneg; lia.
Qed.

Lemma iter_shr_1_shifted p : forall r,
  0 <= shr_m r -> shifted (Zpos p) r (SpecFloat.iter_pos shr_1 p r).
Proof.
  induction p as [p IH|p IH|]; intros r Hm; cbn [SpecFloat.iter_pos].
  - rewrite Pos2Z.inj_xI.
    replace (2 * Zpos p + 1) with (1 + (Zpos p + Zpos p)) by lia.
    pose proof (shr_1_shifted r Hm) as S1.
    pose proof (shifted_nonneg 1 _ _ ltac:(lia) Hm S1) as N1.
    pose proof (IH _ N1) as S2.
    pose proof (shifted_nonneg (Zpos p) _ _ ltac:(lia) N1 S2) as N2.
    pose proof (IH _ N2) as S3.
    apply (shifted_trans 1 (Zpos p + Zpos p) r _ _ ltac:(lia) ltac:(lia) Hm S1).
    apply (shifted_trans (Zpos p) (Zpos p) _ _ _ ltac:(lia) ltac:(lia) N1 S2 S3).
  - rewrite Pos2Z.inj_xO.
    replace (2 * Zpos p) with (Zpos p + Zpos p) by lia.
    pose proof (IH _ Hm) as S2.
    pose proof (shifted_nonneg (Zpos p) _ _ ltac:(lia) Hm S2) as N2.
    pose proof (IH _ N2) as S3.
    apply (shifted_trans (Zpos p) (Zpos p) _ _ _ ltac:(lia) ltac:(lia) Hm S2 S3).
  - apply shr_1_shifted. exact Hm.
Qed.

Lemma shifted_zero r : 0 <= shr_m r -> shifted 0 r r.
Proof.
  intros Hm. unfold shifted. change (2 ^ 0) with 1.
  rewrite Z.div_1_r, Z.mod_1_r. tauto.
Qed.

(** [shr] by [n] bits, for any sign of [n]. *)
Lemma shr_shifted r e n :
  0 <= shr_m r ->
  shifted (Z.max 0 n) r (fst (shr r e n)) /\ snd (shr r e n) = e + Z.max 0 n.
Proof.
  intros Hm. unfold shr. destruct n as [|p|p]; cbn [fst snd].
  - split; [now apply shifted_zero|lia].
  - rewrite Z.max_r by lia. split; [now apply iter_shr_1_shifted|reflexivity].
  - rewrite Z.max_l by lia. split; [now apply shifted_zero|lia].
Qed.

Lemma record_of_loc_m m l : shr_m (shr_record_of_loc m l) = m.
Proof. destruct l as [|[]]; reflexivity. Qed.

Lemma record_of_loc_flag m l :
  flag (shr_record_of_loc m l) = false <-> l = loc_Exact.
Proof. destruct l as [|[]]; cbn; intuition discriminate. Qed.

Lemma loc_of_record_exact r :
  loc_of_shr_record r = loc_Exact <-> flag r = false.
Proof. destruct r as [m [] []]; cbn; intuition discriminate. Qed.

Lemma round_nearest_even_cases m l :
  round_nearest_even m l = m \/
  (round_nearest_even m l = m + 1 /\ l <> loc_Exact).
Proof.
  destruct l as [|[]]; cbn; auto.
  - destruct (Z.even m); [now left|right; split; [reflexivity|discriminate]].
  - right. split; [reflexivity|discriminate].
Qed.

Local Open Scope Z_scope.

Local Abbreviation fexp64 := (fexp prec emax).

Lemma fexp64_eq e : fexp64 e = Z.max (e - 53) (-1074).
Proof. reflexivity. Qed.

Lemma fexp64_mono a b : a <= b -> fexp64 a <= fexp64 b.
Proof. rewrite !fexp64_eq. lia. Qed.

Lemma fexp64_ge e : -1074 <= fexp64 e.
Proof. rewrite fexp64_eq. lia. Qed.

(** What validity says of a finite float. *)
Lemma valid_finite_bounds s m e :
  valid_binary (S754_finite s m e) = true ->
  e = fexp64 (Zdigits2 (Zpos m) + e) /\ -1074 <= e <= 971 /\
  Zpos m < 2 ^ 53 /\ (-1074 < e -> 2 ^ 52 <= Zpos m).
Proof.
  unfold SpecFloat.valid_binary, SpecFloat.bounded,
    SpecFloat.canonical_mantissa.
  rewrite andb_true_iff, Z.eqb_eq, Z.leb_le.
  change (emax - prec) with 971. intros [C B].
  change (Zpos (digits2_pos m)) with (Zdigits2 (Zpos m)) in C.
  pose proof (Zdigits2_bounds (Zpos m) ltac:(lia)) as [L U].
  pose proof (Zdigits2_pos (Zpos m) ltac:(lia)) as Dp.
  rewrite fexp64_eq in C.
  split; [rewrite fexp64_eq; lia|]. split; [lia|]. split.
  - assert (Zdigits2 (Zpos m) <= 53) by lia.
    assert (2 ^ Zdigits2 (Zpos m) <= 2 ^ 53) by (apply Z.pow_le_mono_r; lia).
    lia.
  - intros He. assert (Zdigits2 (Zpos m) = 53) by lia.
    replace 52 with (Zdigits2 (Zpos m) - 1) by lia. exact L.
Qed.

(** The two steps of [binary_round_aux], for a mantissa that is not
    already too coarse. *)
Lemma binary_round_aux_steps mx ex lx :
  0 <= mx -> ex <= fexp64 (Zdigits2 mx + ex) ->
  let e1 := fexp64 (Zdigits2 mx + ex) in
  let n := e1 - ex in
  let m1 := mx / 2 ^ n in
  exists m2 m3 e3,
    (m2 = m1 \/ (m2 = m1 + 1 /\ (lx <> loc_Exact \/ mx mod 2 ^ n <> 0))) /\
    0 <= m3 /\ V m3 e3 = V m2 e1 /\
    (-1074 < e3 -> 0 < m3 -> 2 ^ 52 <= m3) /\
    (0 < mx -> -1074 < e1 -> 2 ^ 52 <= m1) /\
    binary_round_aux prec emax false mx ex lx =
      match m3 with
      | Z0 => S754_zero false
      | Zpos m => if e3 <=? 971 then S754_finite false m e3
                  else S754_infinity false
      | Zneg _ => S754_nan
      end.
Proof.
  intros Hm He e1 n m1.
  assert (Ee1 : e1 = Z.max (Zdigits2 mx + ex - 53) (-1074)) by reflexivity.
  assert (En : n = e1 - ex) by reflexivity.
  assert (Em1 : m1 = mx / 2 ^ n) by reflexivity.
  assert (He' : ex <= e1) by exact He.
  assert (F2 : forall m2,
             fexp64 (Zdigits2 m2 + e1) - e1
             = Z.max (Zdigits2 m2 + e1 - 53) (-1074) - e1) by reflexivity.
  assert (Sh : shr_fexp prec emax mx ex lx
               = shr (shr_record_of_loc mx lx) ex n) by reflexivity.
  clearbody e1 n m1. clear He.
  assert (Hn : 0 <= n) by lia.
  assert (He1 : -1074 <= e1) by lia.
  assert (P : 0 < 2 ^ n) by (apply Z.pow_pos_nonneg; lia).
  assert (Hm1 : 0 <= m1) by (rewrite Em1; apply Z.div_pos; lia).
  (* the mantissa after the first shift has at most 53 bits *)
  assert (B1 : m1 < 2 ^ 53).
  { destruct (Z.eq_dec mx 0) as [->|Hz].
    - rewrite Em1, Z.div_0_l by lia. lia.
    - pose proof (Zdigits2_bounds mx ltac:(lia)) as [_ U].
      pose proof (Zdigits2_pos mx ltac:(lia)) as Dp.
      rewrite Em1. apply Z.div_lt_upper_bound; [lia|].
      rewrite <- Z.pow_add_r by lia.
      assert (2 ^ Zdigits2 mx <= 2 ^ (n + 53)) by (apply Z.pow_le_mono_r; lia).
      lia. }
  assert (N1 : 0 < mx -> -1074 < e1 -> 2 ^ 52 <= m1).
  { intros Hp Hg.
    pose proof (Zdigits2_bounds mx Hp) as [L _].
    assert (En' : n = Zdigits2 mx - 53) by lia.
    rewrite Em1, En'.
    apply Z.div_le_lower_bound; [apply Z.pow_pos_nonneg; lia|].
    rewrite <- Z.pow_add_r by lia.
    replace (Zdigits2 mx - 53 + 52) with (Zdigits2 mx - 1) by lia. exact L. }
  unfold binary_round_aux. rewrite Sh.
  pose proof (shr_shifted (shr_record_of_loc mx lx) ex n
                ltac:(rewrite record_of_loc_m; lia)) as [S1 E1].
  destruct (shr (shr_record_of_loc mx lx) ex n) as [r1 e1'].
  cbn [fst snd] in S1, E1. rewrite Z.max_r in S1, E1 by lia.
  replace e1' with e1 in * by lia. clear E1 e1'.
  destruct S1 as [M1 F1]. rewrite record_of_loc_m in M1, F1.
  rewrite record_of_loc_flag in F1. rewrite <- Em1 in M1.
  set (m2 := round_nearest_even (shr_m r1) (loc_of_shr_record r1)).
  assert (C2 : m2 = m1 \/ (m2 = m1 + 1 /\ (lx <> loc_Exact \/ mx mod 2 ^ n <> 0))).
  { unfold m2. rewrite M1.
    destruct (round_nearest_even_cases m1 (loc_of_shr_record r1)) as [->|[-> Hl]];
      [now left|right]. split; [reflexivity|].
    rewrite loc_of_record_exact in Hl.
    destruct lx; [|left; discriminate].
    right. intros Hmod. apply Hl. apply F1. now split. }
  clearbody m2.
  assert (B2 : 0 <= m2 <= 2 ^ 53) by lia.
  unfold shr_fexp. rewrite F2.
  set (n2 := Z.max (Zdigits2 m2 + e1 - 53) (-1074) - e1).
  assert (Dn2 : (m2 < 2 ^ 53 /\ Z.max 0 n2 = 0) \/ (m2 = 2 ^ 53 /\ n2 = 1)).
  { destruct (Z.eq_dec m2 (2 ^ 53)) as [E|NE].
    - right. split; [exact E|]. unfold n2. rewrite E.
      change (Zdigits2 (2 ^ 53)) with 54. lia.
    - left. split; [lia|]. unfold n2.
      destruct (Z.eq_dec m2 0) as [->|Hz].
      + cbn [Zdigits2]. lia.
      + pose proof (Zdigits2_le m2 53 ltac:(lia) ltac:(lia) ltac:(lia)).
        lia. }
  clearbody n2.
  pose proof (shr_shifted (shr_record_of_loc m2 loc_Exact) e1 n2
                ltac:(cbn; lia)) as [S2 E2].
  destruct (shr (shr_record_of_loc m2 loc_Exact) e1 n2) as [r2 e2].
  cbn [fst snd] in S2, E2. destruct S2 as [M2 _].
  cbn [shr_record_of_loc shr_m] in M2.
  exists m2, (shr_m r2), e2.
  split; [exact C2|].
  destruct Dn2 as [[Hlt Hz]|[E En2]].
  - rewrite Hz in *. change (2 ^ 0) with 1 in M2. rewrite Z.div_1_r in M2.
    replace e2 with e1 by lia. rewrite M2.
    split; [lia|]. split; [reflexivity|]. split; [|split; [exact N1|reflexivity]].
    intros Hg Hp.
    destruct (Z.eq_dec mx 0) as [Ez|Hnz].
    + exfalso. subst mx. cbn [Zdigits2] in *. lia.
    + assert (2 ^ 52 <= m1) by (apply N1; lia). lia.
  - rewrite En2 in *. rewrite Z.max_r in * by lia. rewrite E in M2.
    change (2 ^ 53 / 2 ^ 1) with (2 ^ 52) in M2. rewrite M2.
    split; [lia|]. split.
    { rewrite E2, E. rewrite <- (V_shift (2 ^ 52) e1 1) by lia. reflexivity. }
    split; [lia|]. split; [exact N1|reflexivity].
Qed.

Local Open Scope Z_scope.

Lemma V_truncate mx ex n :
  0 <= mx -> 0 <= n ->
  (V (mx / 2 ^ n) (ex + n) <= V mx ex < V (mx / 2 ^ n + 1) (ex + n))%R /\
  (mx mod 2 ^ n <> 0 -> (V (mx / 2 ^ n) (ex + n) < V mx ex)%R).
Proof.
  intros Hm Hn.
  assert (P : 0 < 2 ^ n) by (apply Z.pow_pos_nonneg; lia).
  rewrite <- !V_shift by lia.
  pose proof (Z.div_mod mx (2 ^ n) ltac:(lia)) as D.
  pose proof (Z.mod_pos_bound mx (2 ^ n) P) as B.
  split; [split|intros Hr].
  - apply V_le. nia.
  - apply V_lt. nia.
  - apply V_lt. nia.
Qed.

Lemma V_digits m e :
  0 < m -> (bpow (Zdigits2 m - 1 + e) <= V m e < bpow (Zdigits2 m + e))%R.
Proof.
  intros Hm. pose proof (Zdigits2_bounds m Hm) as [L U].
  pose proof (Zdigits2_pos m Hm) as Dp.
  rewrite !bpow_add. rewrite (bpow_Z (Zdigits2 m - 1)), (bpow_Z (Zdigits2 m)) by lia.
  fold (V (2 ^ (Zdigits2 m - 1)) e). fold (V (2 ^ Zdigits2 m) e).
  split; [now apply V_le|now apply V_lt].
Qed.

Lemma V_pow k e : 0 <= k -> V (2 ^ k) e = bpow (k + e).
Proof. intros H. unfold V. rewrite bpow_add, (bpow_Z k H). reflexivity. Qed.

Lemma V_pos m e : 0 < m -> (0 < V m e)%R.
Proof.
  intros H. unfold V. apply IZR_lt in H. pose proof (bpow_pos e). nra.
Qed.

Lemma bpow_lt_inv a b : (bpow a < bpow b)%R -> a < b.
Proof.
  intros H. destruct (Z_lt_le_dec a b) as [C|C]; [exact C|].
  apply bpow_le in C. lra.
Qed.

(** A valid float is a multiple of every power of two below its exponent. *)
Lemma V_align my ey e1 : e1 <= ey -> V my ey = V (my * 2 ^ (ey - e1)) e1.
Proof.
  intros H. rewrite V_shift by lia. f_equal. lia.
Qed.

Section Bounds.

Variables (mx ex : Z) (lx : location) (s : bool) (my : positive) (ey : Z).
Hypothesis mx_nonneg : 0 <= mx.
Hypothesis ex_fine : ex <= fexp64 (Zdigits2 mx + ex).
Hypothesis y_valid : valid_binary (S754_finite s my ey) = true.

Local Abbreviation rounded := (binary_round_aux prec emax false mx ex lx).

(** Rounding never goes below a float the exact value is not below. *)
Lemma round_ge :
  (V (Zpos my) ey <= V mx ex)%R ->
  rounded = S754_infinity false \/
  exists m e, rounded = S754_finite false m e /\
              (V (Zpos my) ey <= V (Zpos m) e)%R.
Proof.
  intros Hle.
  destruct (valid_finite_bounds s my ey y_valid) as [Cy [By [Uy Ny]]].
  pose proof (V_pos (Zpos my) ey ltac:(lia)) as Py.
  assert (Hp : 0 < mx).
  { destruct (Z.eq_dec mx 0) as [->|]; [|lia].
    unfold V in Hle at 2. cbn in Hle. lra. }
  destruct (binary_round_aux_steps mx ex lx mx_nonneg ex_fine)
    as [m2 [m3 [e3 [C2 [P3 [E3 [_ [N1 R]]]]]]]].
  cbv zeta in *.
  set (e1 := fexp64 (Zdigits2 mx + ex)) in *.
  assert (Ee1 : e1 = Z.max (Zdigits2 mx + ex - 53) (-1074)) by reflexivity.
  assert (Ey : ey = Z.max (Zdigits2 (Zpos my) + ey - 53) (-1074)) by exact Cy.
  clearbody e1.
  set (n := e1 - ex) in *. set (m1 := mx / 2 ^ n) in *.
  assert (Hn : 0 <= n) by (unfold n; lia).
  pose proof (V_truncate mx ex n mx_nonneg Hn) as [[T1 T2] _].
  replace (ex + n) with e1 in * by (unfold n; lia). fold m1 in T1, T2.
  assert (G1 : (V (Zpos my) ey <= V m1 e1)%R).
  { destruct (Z_le_gt_dec e1 ey) as [A|A].
    - rewrite (V_align (Zpos my) ey e1 A) in *.
      apply V_le. assert (Zpos my * 2 ^ (ey - e1) < m1 + 1); [|lia].
      apply (V_lt_inv _ _ e1). lra.
    - assert (M52 : 2 ^ 52 <= m1) by (apply N1; lia).
      apply (V_le _ _ e1) in M52. rewrite V_pow in M52 by lia.
      pose proof (V_digits (Zpos my) ey ltac:(lia)) as [_ Dy].
      assert (bpow (Zdigits2 (Zpos my) + ey) <= bpow (52 + e1))%R
        by (apply bpow_le; lia).
      lra. }
  assert (G2 : (V m1 e1 <= V m2 e1)%R) by (apply V_le; lia).
  assert (G3 : (0 < V m3 e3)%R) by lra.
  assert (0 < m3).
  { destruct (Z.eq_dec m3 0) as [Ez|]; [|lia].
    rewrite Ez in G3. unfold V in G3. cbn in G3. lra. }
  destruct m3 as [|p3|p3]; try lia. rewrite R.
  destruct (e3 <=? 971); [right|now left].
  exists p3, e3. split; [reflexivity|lra].
Qed.

(** Rounding never goes above a float the exact value is not above. *)
Lemma round_le :
  (V mx ex <= V (Zpos my) ey)%R ->
  (lx <> loc_Exact -> (V mx ex < V (Zpos my) ey)%R) ->
  rounded = S754_zero false \/
  exists m e, rounded = S754_finite false m e /\
              (V (Zpos m) e <= V (Zpos my) ey)%R.
Proof.
  intros Hle Hlt.
  destruct (valid_finite_bounds s my ey y_valid) as [Cy [By [Uy Ny]]].
  pose proof (V_pos (Zpos my) ey ltac:(lia)) as Py.
  destruct (binary_round_aux_steps mx ex lx mx_nonneg ex_fine)
    as [m2 [m3 [e3 [C2 [P3 [E3 [N3 [N1 R]]]]]]]].
  cbv zeta in *.
  set (e1 := fexp64 (Zdigits2 mx + ex)) in *.
  assert (Ee1 : e1 = Z.max (Zdigits2 mx + ex - 53) (-1074)) by reflexivity.
  assert (Ey : ey = Z.max (Zdigits2 (Zpos my) + ey - 53) (-1074)) by exact Cy.
  clearbody e1.
  set (n := e1 - ex) in *. set (m1 := mx / 2 ^ n) in *.
  assert (Hn : 0 <= n) by (unfold n; lia).
  pose proof (V_truncate mx ex n mx_nonneg Hn) as [[T1 T2] T3].
  replace (ex + n) with e1 in * by (unfold n; lia). fold m1 in T1, T2, T3.
  assert (G1 : (V m2 e1 <= V (Zpos my) ey)%R).
  { destruct C2 as [->|[-> Hin]]; [lra|].
    assert (S1 : (V m1 e1 < V (Zpos my) ey)%R).
    { destruct Hin as [Hl|Hr]; [specialize (Hlt Hl)|specialize (T3 Hr)]; lra. }
    assert (A : e1 <= ey).
    { destruct (Z.eq_dec mx 0) as [Ez|Hnz].
      - subst mx. cbn [Zdigits2] in *. lia.
      - pose proof (V_digits mx ex ltac:(lia)) as [Dx _].
        pose proof (V_digits (Zpos my) ey ltac:(lia)) as [_ Dy].
        assert (Zdigits2 mx - 1 + ex < Zdigits2 (Zpos my) + ey)
          by (apply bpow_lt_inv; lra).
        lia. }
    rewrite (V_align (Zpos my) ey e1 A) in *.
    apply V_le. apply V_lt_inv in S1. lia. }
  destruct m3 as [|p3|p3]; try lia; [now left|]. right.
  rewrite R. destruct (Z.leb_spec e3 971) as [B3|B3].
  - exists p3, e3. split; [reflexivity|lra].
  - exfalso. specialize (N3 ltac:(lia) ltac:(lia)).
    apply (V_le _ _ e3) in N3. rewrite V_pow in N3 by lia.
    assert (bpow 1024 <= bpow (52 + e3))%R by (apply bpow_le; lia).
    assert (V (Zpos my) ey < bpow 1024)%R.
    { apply Rlt_le_trans with (V (2 ^ 53) ey); [apply V_lt; lia|].
      rewrite V_pow by lia. apply bpow_le. lia. }
    lra.
Qed.

End Bounds.

Local Open Scope Z_scope.

(** ** Order of valid floats and order of their values *)

Lemma lex_value_lt s1 m1 e1 s2 m2 e2 :
  valid_binary (S754_finite s1 m1 e1) = true ->
  valid_binary (S754_finite s2 m2 e2) = true ->
  e1 < e2 \/ (e1 = e2 /\ Zpos m1 < Zpos m2) ->
  (V (Zpos m1) e1 < V (Zpos m2) e2)%R.
Proof.
  intros V1 V2 H.
  destruct (valid_finite_bounds _ _ _ V1) as [_ [B1 [U1 _]]].
  destruct (valid_finite_bounds _ _ _ V2) as [_ [B2 [_ N2]]].
  destruct H as [H|[-> H]]; [|now apply V_lt].
  apply Rlt_le_trans with (V (2 ^ 53) e1); [now apply V_lt|].
  apply Rle_trans with (V (2 ^ 52) e2); [|apply V_le; apply N2; lia].
  rewrite !V_pow by lia. apply bpow_le. lia.
Qed.

Lemma SFcompare_value m1 e1 m2 e2 :
  valid_binary (S754_finite false m1 e1) = true ->
  valid_binary (S754_finite false m2 e2) = true ->
  match SFcompare (S754_finite false m1 e1) (S754_finite false m2 e2) with
  | Some Lt => (V (Zpos m1) e1 < V (Zpos m2) e2)%R
  | Some Eq => m1 = m2 /\ e1 = e2
  | Some Gt => (V (Zpos m2) e2 < V (Zpos m1) e1)%R
  | None => False
  end.
Proof.
  intros V1 V2. cbn [SFcompare].
  change (PosDef.Pos.compare_cont Eq m1 m2) with (Pos.compare m1 m2).
  destruct (Z.compare_spec e1 e2) as [E|L|G].
  - destruct (Pos.compare_spec m1 m2) as [E'|L'|G'].
    + now split.
    + apply (lex_value_lt false _ _ false); auto; right; split; lia.
    + apply (lex_value_lt false _ _ false); auto; right; split; lia.
  - apply (lex_value_lt false _ _ false); auto.
  - apply (lex_value_lt false _ _ false); auto.
Qed.

Lemma SFltb_value m1 e1 m2 e2 :
  valid_binary (S754_finite false m1 e1) = true ->
  valid_binary (S754_finite false m2 e2) = true ->
  SFltb (S754_finite false m1 e1) (S754_finite false m2 e2) = true ->
  (V (Zpos m1) e1 < V (Zpos m2) e2)%R.
Proof.
  intros V1 V2. unfold SFltb.
  pose proof (SFcompare_value m1 e1 m2 e2 V1 V2) as H.
  destruct (SFcompare _ _) as [[]|]; try discriminate. intros _. exact H.
Qed.

(** ** Alignment and [binary_round] *)

Lemma pos_iter_xO m d : Zpos (Pos.iter xO m d) = Zpos m * 2 ^ Zpos d.
Proof.
  induction d as [|d IH] using Pos.peano_ind.
  - cbn. lia.
  - rewrite Pos.iter_succ, Pos2Z.inj_xO, IH, Pos2Z.inj_succ.
    rewrite Z.pow_succ_r by lia. lia.
Qed.

Lemma shl_align_spec m e e' :
  let '(m', e'') := shl_align m e e' in
  e'' = Z.min e e' /\ Zpos m' = Zpos m * 2 ^ (e - e'').
Proof.
  unfold shl_align. destruct (e' - e) as [|d|d] eqn:E.
  - split; [lia|]. rewrite Z.sub_diag. lia.
  - split; [lia|]. rewrite Z.sub_diag. lia.
  - split; [lia|]. rewrite pos_iter_xO. f_equal. f_equal. lia.
Qed.

Lemma Zdigits2_shift m k :
  0 < m -> 0 <= k -> Zdigits2 (m * 2 ^ k) = Zdigits2 m + k.
Proof.
  intros Hm Hk. pose proof (Zdigits2_bounds m Hm) as [L U].
  pose proof (Zdigits2_pos m Hm) as Dp.
  assert (P : 0 < 2 ^ k) by (apply Z.pow_pos_nonneg; lia).
  assert (Hmk : 0 < m * 2 ^ k) by nia.
  apply Z.le_antisymm.
  - apply Zdigits2_le; [lia|lia|]. rewrite Z.pow_add_r by lia. nia.
  - assert (Zdigits2 m + k - 1 < Zdigits2 (m * 2 ^ k)); [|lia].
    apply Zdigits2_ge; [lia|].
    replace (Zdigits2 m + k - 1) with (Zdigits2 m - 1 + k) by lia.
    rewrite Z.pow_add_r by lia. nia.
Qed.

(** [binary_round] hands [binary_round_aux] the same value, fine enough. *)
Lemma binary_round_aligned m e :
  exists mz ez,
    binary_round prec emax false m e
      = binary_round_aux prec emax false (Zpos mz) ez loc_Exact /\
    V (Zpos mz) ez = V (Zpos m) e /\
    ez <= fexp64 (Zdigits2 (Zpos mz) + ez).
Proof.
  unfold binary_round.
  pose proof (shl_align_spec m e (fexp64 (Zpos (digits2_pos m) + e))) as S.
  destruct (shl_align m e _) as [mz ez]. destruct S as [Ez Em].
  exists mz, ez. split; [reflexivity|].
  assert (Hk : 0 <= e - ez) by lia.
  split.
  - rewrite Em, V_shift by lia. f_equal. lia.
  - rewrite Em, Zdigits2_shift by lia.
    replace (Zdigits2 (Zpos m) + (e - ez) + ez) with (Zdigits2 (Zpos m) + e) by lia.
    change (Zpos (digits2_pos m)) with (Zdigits2 (Zpos m)) in Ez. lia.
Qed.

Lemma binary_round_ge m e s my ey :
  valid_binary (S754_finite s my ey) = true ->
  (V (Zpos my) ey <= V (Zpos m) e)%R ->
  binary_round prec emax false m e = S754_infinity false \/
  exists m' e', binary_round prec emax false m e = S754_finite false m' e' /\
                (V (Zpos my) ey <= V (Zpos m') e')%R.
Proof.
  intros Hy Hle.
  destruct (binary_round_aligned m e) as [mz [ez [-> [Ev Ef]]]].
  rewrite <- Ev in Hle.
  exact (round_ge (Zpos mz) ez loc_Exact s my ey ltac:(lia) Ef Hy Hle).
Qed.

(** The result of rounding carries the sign it was given. *)
Lemma binary_round_aux_sign s m e l :
  0 <= m ->
  let r := binary_round_aux prec emax s m e l in
  r = S754_zero s \/ r = S754_infinity s \/ exists m' e', r = S754_finite s m' e'.
Proof.
  intros Hm r. pose proof (F64Facts.binary_round_aux_not_nan s m e l Hm) as N.
  fold r in N. revert N. unfold r, binary_round_aux.
  destruct (shr_fexp prec emax m e l) as [r1 e1].
  destruct (shr_fexp prec emax _ e1 loc_Exact) as [r2 e2].
  destruct (shr_m r2); [now left| |congruence].
  destruct (e2 <=? _); intros _; right; [right; eauto|now left].
Qed.

Local Open Scope Z_scope.

Lemma sf_ge_positive x my ey : sf_ge x my ey -> sf_positive x.
Proof. intros [H|[m [e [H _]]]]; [now left|right; eauto]. Qed.

Lemma aligned_mantissa m e ez :
  ez <= e -> V (Zpos (fst (shl_align m e ez))) ez = V (Zpos m) e.
Proof.
  intros H. pose proof (shl_align_spec m e ez) as S.
  destruct (shl_align m e ez) as [m' e']. destruct S as [E M]. cbn [fst].
  rewrite Z.min_r in E by lia. subst e'. rewrite M, V_shift by lia.
  f_equal. lia.
Qed.

Lemma V_plus a b e : (V (a + b) e = V a e + V b e)%R.
Proof. unfold V. rewrite plus_IZR. ring. Qed.

Lemma V_minus a b e : (V (a - b) e = V a e - V b e)%R.
Proof. unfold V. rewrite minus_IZR. ring. Qed.

Lemma V_pos_inv m e : (0 < V m e)%R -> 0 < m.
Proof.
  intros H. unfold V in H. pose proof (bpow_pos e).
  apply lt_IZR. nra.
Qed.

Lemma binary_normalize_ge M ez s my ey :
  valid_binary (S754_finite s my ey) = true ->
  (V (Zpos my) ey <= V M ez)%R ->
  sf_ge (binary_normalize prec emax M ez false) my ey.
Proof.
  intros Hy Hle.
  assert (0 < M).
  { apply (V_pos_inv M ez). pose proof (V_pos (Zpos my) ey ltac:(lia)). lra. }
  destruct M as [|p|p]; try lia. cbn [binary_normalize].
  exact (binary_round_ge p ez s my ey Hy Hle).
Qed.

Lemma SFadd_finite_ge m1 e1 m2 e2 s my ey :
  valid_binary (S754_finite s my ey) = true ->
  (V (Zpos my) ey <= V (Zpos m1) e1 + V (Zpos m2) e2)%R ->
  sf_ge (SF64add (S754_finite false m1 e1) (S754_finite false m2 e2)) my ey.
Proof.
  intros Hy Hle. unfold SF64add, SFadd. cbn [cond_Zopp].
  apply (binary_normalize_ge _ _ s); [exact Hy|].
  rewrite V_plus, !aligned_mantissa by lia. exact Hle.
Qed.

Lemma SFsub_finite_ge m1 e1 (sq : bool) mq e2 s my ey :
  valid_binary (S754_finite s my ey) = true ->
  (V (Zpos my) ey
   <= V (Zpos m1) e1 - (if sq then - V (Zpos mq) e2 else V (Zpos mq) e2))%R ->
  sf_ge (SF64sub (S754_finite false m1 e1) (S754_finite sq mq e2)) my ey.
Proof.
  intros Hy Hle. unfold SF64sub, SFsub. cbn [cond_Zopp].
  apply (binary_normalize_ge _ _ s); [exact Hy|].
  rewrite V_minus. rewrite aligned_mantissa by lia.
  destruct sq; cbn [cond_Zopp].
  - replace (V (- Zpos (fst (shl_align mq e2 (Z.min e1 e2)))) (Z.min e1 e2))
      with (- V (Zpos (fst (shl_align mq e2 (Z.min e1 e2)))) (Z.min e1 e2))%R
      by (unfold V; rewrite opp_IZR; ring).
    rewrite aligned_mantissa by lia. exact Hle.
  - rewrite aligned_mantissa by lia. exact Hle.
Qed.

(** ** Division of a smaller by a larger positive float *)

Lemma new_location_exact nb k :
  new_location nb k = loc_Exact <-> k = 0.
Proof.
  unfold new_location, new_location_even, new_location_odd.
  destruct (Z.even nb); destruct (Z.eqb_spec k 0); intuition discriminate.
Qed.

Lemma div_core_nonneg ma ea md ed :
  0 <= fst (fst (SFdiv_core_binary prec emax (Zpos ma) ea (Zpos md) ed)).
Proof.
  unfold SFdiv_core_binary.
  set (e' := Z.min _ _). set (s := ea - ed - e').
  set (m' := match s with Zpos _ => Z.shiftl (Zpos ma) s | Z0 => Zpos ma | Zneg _ => 0 end).
  assert (0 <= m').
  { unfold m'. destruct s; try lia. apply Z.shiftl_nonneg. lia. }
  pose proof (Z_div_mod m' (Zpos md) ltac:(lia)) as D.
  destruct (Z.div_eucl m' (Zpos md)) as [q r]. cbn [fst]. nia.
Qed.

Lemma ratio_below_one ma ea md ed :
  valid_binary (S754_finite false ma ea) = true ->
  valid_binary (S754_finite false md ed) = true ->
  (V (Zpos ma) ea < V (Zpos md) ed)%R ->
  (V (Zpos ma) ea <= V (2 ^ 53 - 1) (-53) * V (Zpos md) ed)%R.
Proof.
  intros Va Vd Hlt.
  destruct (valid_finite_bounds _ _ _ Va) as [_ [Ba [Ua _]]].
  destruct (valid_finite_bounds _ _ _ Vd) as [_ [Bd [Ud Nd]]].
  assert (P53 : V (2 ^ 53 - 1) (-53) = (1 - bpow (-53))%R).
  { rewrite V_minus, V_pow by lia. change (53 + -53) with 0.
    unfold V, bpow. cbn [powerRZ]. lra. }
  rewrite P53.
  assert (B53 : (bpow (-53) * IZR (2 ^ 53) = 1)%R).
  { rewrite <- (bpow_Z 53) by lia. rewrite <- bpow_add. reflexivity. }
  pose proof (bpow_pos (-53)) as Pm.
  destruct (Z_le_gt_dec ed ea) as [A|A].
  - rewrite (V_align (Zpos ma) ea ed A) in *.
    apply V_lt_inv in Hlt.
    set (ka := Zpos ma * 2 ^ (ea - ed)) in *.
    assert (K : ka <= Zpos md - 1) by lia.
    apply Rle_trans with (V (Zpos md - 1) ed); [now apply V_le|].
    rewrite V_minus. unfold V at 2. change (IZR 1) with 1%R.
    assert (M : (IZR (Zpos md) <= IZR (2 ^ 53))%R) by (apply IZR_le; lia).
    pose proof (bpow_pos ed) as Pe.
    unfold V.
    assert (bpow (-53) * IZR (Zpos md) <= 1)%R.
    { rewrite <- B53. apply Rmult_le_compat_l; [apply Rlt_le; exact Pm|exact M]. }
    nra.
  - assert (N : 2 ^ 52 <= Zpos md) by (apply Nd; lia).
    apply Rle_trans with (V (2 ^ 53 - 1) ea); [apply V_le; lia|].
    apply Rle_trans with ((1 - bpow (-53)) * V (2 ^ 52) ed)%R.
    + assert (Y : (2 * bpow ea <= bpow ed)%R).
      { apply Rle_trans with (bpow (ea + 1)); [|apply bpow_le; lia].
        rewrite bpow_add.
        assert (B1 : bpow 1 = 2%R) by (unfold bpow; simpl; lra).
        rewrite B1. lra. }
      assert (C1 : (bpow (-53) < 1)%R).
      { replace 1%R with (bpow 0) by reflexivity. apply bpow_lt. lia. }
      assert (HT : IZR (2 ^ 53) = (2 * IZR (2 ^ 52))%R).
      { change (2 ^ 53) with (2 * 2 ^ 52). now rewrite mult_IZR. }
      rewrite HT in B53. unfold V. rewrite minus_IZR, HT.
      set (c := bpow (-53)) in *. set (x := bpow ea) in *.
      set (y := bpow ed) in *. set (t := IZR (2 ^ 52)) in *.
      assert (Tp : (0 < t)%R) by (unfold t; apply IZR_lt; lia).
      assert (Xp : (0 < x)%R) by apply bpow_pos.
      assert (H1 : (0 <= (1 - c) * t * (y - 2 * x))%R).
      { apply Rmult_le_pos; [apply Rmult_le_pos|]; lra. }
      assert (H2 : (c * (2 * t) * x = x)%R) by (rewrite B53; lra).
      nra.
    + apply (V_le _ _ ed) in N. assert (0 < 1 - bpow (-53))%R.
      { assert (bpow (-53) < bpow 0)%R by (apply bpow_lt; lia).
        replace (bpow 0) with 1%R in H by reflexivity. lra. }
      nra.
Qed.

Local Open Scope Z_scope.

Lemma div_core_below_one ma ea md ed :
  valid_binary (S754_finite false ma ea) = true ->
  valid_binary (S754_finite false md ed) = true ->
  (V (Zpos ma) ea < V (Zpos md) ed)%R ->
  let '(q, e', l) := SFdiv_core_binary prec emax (Zpos ma) ea (Zpos md) ed in
  0 <= q /\ e' <= fexp64 (Zdigits2 q + e') /\
  (V q e' <= V (2 ^ 53 - 1) (-53))%R /\
  (l <> loc_Exact -> (V q e' < V (2 ^ 53 - 1) (-53))%R).
Proof.
  intros Va Vd Hlt.
  pose proof (ratio_below_one ma ea md ed Va Vd Hlt) as Hr.
  destruct (valid_finite_bounds _ _ _ Va) as [_ [Ba [Ua _]]].
  destruct (valid_finite_bounds _ _ _ Vd) as [_ [Bd [Ud _]]].
  pose proof (Zdigits2_bounds (Zpos ma) ltac:(lia)) as [La _].
  pose proof (Zdigits2_bounds (Zpos md) ltac:(lia)) as [_ Ud2].
  pose proof (Zdigits2_pos (Zpos ma) ltac:(lia)) as Pa.
  pose proof (Zdigits2_pos (Zpos md) ltac:(lia)) as Pd.
  pose proof (Zdigits2_le (Zpos ma) 53 ltac:(lia) ltac:(lia) Ua) as Da.
  unfold SFdiv_core_binary.
  set (d1 := Zdigits2 (Zpos ma)) in *. set (d2 := Zdigits2 (Zpos md)) in *.
  clearbody d1 d2.
  set (k := d1 + ea - (d2 + ed)).
  assert (Ek : k = d1 + ea - (d2 + ed)) by reflexivity.
  assert (Fk : fexp64 k = Z.max (k - 53) (-1074)) by reflexivity.
  clearbody k.
  set (e' := Z.min (fexp64 k) (ea - ed)).
  assert (He' : e' <= Z.max (k - 53) (-1074) /\ e' <= ea - ed)
    by (unfold e'; lia).
  clearbody e'. set (s := ea - ed - e').
  assert (Es : s = ea - ed - e') by reflexivity.
  clearbody s.
  assert (Hs : 0 <= s) by lia.
  set (m' := match s with
             | Zpos _ => Z.shiftl (Zpos ma) s
             | Z0 => Zpos ma
             | Zneg _ => 0
             end).
  assert (Em : m' = Zpos ma * 2 ^ s).
  { unfold m'. destruct s eqn:Es'; try lia.
    rewrite Z.shiftl_mul_pow2 by lia. reflexivity. }
  clearbody m'.
  pose proof (Z_div_mod m' (Zpos md) ltac:(lia)) as D.
  destruct (Z.div_eucl m' (Zpos md)) as [q r]. destruct D as [D Br].
  assert (P2 : 0 < 2 ^ s) by (apply Z.pow_pos_nonneg; lia).
  assert (Hq : 0 <= q) by nia.
  split; [exact Hq|].
  assert (Pv : (0 < V (Zpos md) ed)%R) by (apply V_pos; lia).
  assert (Hv : (V q e' * V (Zpos md) ed = V (q * Zpos md) (e' + ed))%R).
  { unfold V. rewrite mult_IZR, bpow_add. ring. }
  assert (Ha : V (Zpos ma) ea = V m' (e' + ed)).
  { rewrite Em, V_shift by lia. f_equal. lia. }
  split; [|split].
  - destruct (Z_le_gt_dec e' (-1074)) as [A|A].
    + pose proof (fexp64_ge (Zdigits2 q + e')). lia.
    + assert (S53 : 53 - d1 + d2 <= s) by lia.
      assert (M1 : 2 ^ (52 + d2) <= m').
      { rewrite Em.
        apply Z.le_trans with (2 ^ (d1 - 1) * 2 ^ (53 - d1 + d2)).
        - rewrite <- Z.pow_add_r by lia. apply Z.pow_le_mono_r; lia.
        - assert (2 ^ (53 - d1 + d2) <= 2 ^ s) by (apply Z.pow_le_mono_r; lia).
          assert (0 < 2 ^ (d1 - 1)) by (apply Z.pow_pos_nonneg; lia).
          nia. }
      rewrite Z.pow_add_r in M1 by lia.
      assert (Q52 : 2 ^ 52 <= q) by nia.
      pose proof (Zdigits2_ge q 52 ltac:(lia) Q52).
      assert (Fq : fexp64 (Zdigits2 q + e') = Z.max (Zdigits2 q + e' - 53) (-1074))
        by reflexivity.
      lia.
  - assert (H1 : (V (q * Zpos md) (e' + ed) <= V m' (e' + ed))%R)
      by (apply V_le; nia).
    apply Rmult_le_reg_r with (V (Zpos md) ed); [exact Pv|]. lra.
  - intros Hl. rewrite new_location_exact in Hl.
    assert (H1 : (V (q * Zpos md) (e' + ed) < V m' (e' + ed))%R)
      by (apply V_lt; nia).
    apply Rmult_lt_reg_r with (V (Zpos md) ed); [exact Pv|]. lra.
Qed.

(** ** The three operations of the risk formula *)

(** Step 1: [abs(median) + eps] is positive, at least [eps], and at least
    [abs(median)]. *)
Lemma denominator_positive M :
  M <> S754_nan ->
  let D := SF64add (SFabs M) sf_eps in
  sf_positive D /\
  (forall s m e, M = S754_finite s m e ->
     valid_binary M = true -> sf_ge D m e).
Proof.
  intros Hn D. unfold D. destruct M as [s|s| |s m e]; try congruence.
  - split; [right; unfold sf_eps; cbn; eauto|]. intros ? ? ? E. discriminate.
  - split; [now left|]. intros ? ? ? E. discriminate.
  - cbn [SFabs]. unfold sf_eps.
    match goal with |- context [SF64add _ (S754_finite false ?me ?ee)] =>
      set (mE := me); set (eE := ee) end.
    split.
    + apply (sf_ge_positive _ mE eE).
      apply (SFadd_finite_ge _ _ _ _ false); [reflexivity|].
      pose proof (V_pos (Zpos m) e ltac:(lia)). lra.
    + intros s' m' e' E Hv. injection E as <- <- <-.
      apply (SFadd_finite_ge _ _ _ _ s); [exact Hv|].
      pose proof (V_pos (Zpos mE) eE ltac:(lia)). lra.
Qed.

Local Open Scope Z_scope.

(** Step 2: the quotient by the positive denominator. *)
Lemma quotient_below_one A D :
  valid_binary A = true -> valid_binary D = true ->
  sf_positive D ->
  A <> S754_nan -> (forall s, A <> S754_infinity s) ->
  (forall ma ea md ed,
      A = S754_finite false ma ea -> D = S754_finite false md ed ->
      (V (Zpos ma) ea < V (Zpos md) ed)%R) ->
  sf_below_one (SF64div A D).
Proof.
  intros VA VD PD Hn Hi Hlt. unfold sf_below_one.
  destruct A as [sa|sa| |sa ma ea]; try congruence;
    try (exfalso; exact (Hi sa eq_refl)).
  - (* zero *)
    left. destruct PD as [->|[md [ed ->]]]; cbn; eauto.
  - destruct PD as [->|[md [ed ->]]].
    + left. cbn. eauto.
    + destruct sa.
      * (* negative numerator *)
        unfold SF64div, SFdiv.
        pose proof (div_core_nonneg ma ea md ed) as Hq.
        destruct (SFdiv_core_binary prec emax (Zpos ma) ea (Zpos md) ed)
          as [[q e'] l]. cbn [fst xorb] in *.
        destruct (binary_round_aux_sign true q e' l Hq) as [E|[E|[m [e E]]]];
          cbv zeta in E; rewrite E; eauto 6.
      * (* positive numerator, below the denominator *)
        specialize (Hlt ma ea md ed eq_refl eq_refl).
        unfold SF64div, SFdiv.
        pose proof (div_core_below_one ma ea md ed VA VD Hlt) as C.
        destruct (SFdiv_core_binary prec emax (Zpos ma) ea (Zpos md) ed)
          as [[q e'] l]. destruct C as [Hq [Hf [Hle Hst]]]. cbn [xorb].
        change (2 ^ 53 - 1) with (Zpos 9007199254740991) in Hle, Hst |- *.
        destruct (round_le q e' l false 9007199254740991 (-53) Hq Hf
                    eq_refl Hle Hst) as [E|[m [e [E B]]]];
          rewrite E; [left; eauto|].
        right. right. right. eauto.
Qed.

(** Step 3: one minus such a quotient is positive. *)
Lemma one_minus_positive Q :
  valid_binary Q = true -> sf_below_one Q ->
  sf_positive (SF64sub sf_one Q).
Proof.
  intros VQ [[s ->]|[->|[[m [e ->]]|[m [e [-> B]]]]]].
  - right. unfold sf_one. cbn. eauto.
  - left. reflexivity.
  - (* 1 - (negative) >= 1 *)
    unfold sf_one.
    match goal with |- context [S754_finite false ?m1 ?e1] =>
      apply (sf_ge_positive _ m1 e1);
      apply (SFsub_finite_ge m1 e1 true m e false m1 e1 eq_refl)
    end.
    pose proof (V_pos (Zpos m) e ltac:(lia)). lra.
  - (* 1 - q >= 2^-53 >= the smallest positive float *)
    unfold sf_one.
    apply (sf_ge_positive _ 1%positive (-1074)).
    apply (SFsub_finite_ge _ _ false m e false 1%positive (-1074) eq_refl).
    assert (P53 : V (2 ^ 53 - 1) (-53) = (1 - bpow (-53))%R).
    { rewrite V_minus, V_pow by lia. change (53 + -53) with 0.
      unfold V, bpow. cbn [powerRZ]. lra. }
    assert (One : V (Zpos 4503599627370496) (-52) = 1%R).
    { change (Zpos 4503599627370496) with (2 ^ 52). rewrite V_pow by lia.
      reflexivity. }
    assert (Tiny : (V 1 (-1074) <= bpow (-53))%R).
    { unfold V. rewrite Rmult_1_l. apply bpow_le. lia. }
    rewrite One. lra.
Qed.

Lemma sf_positive_gt_zero R :
  sf_positive R -> SFltb (S754_zero false) R = true.
Proof. intros [->|[m [e ->]]]; reflexivity. Qed.

Local Open Scope float_scope.

(** The risk is strictly positive when the out-of-sample Sharpe ratio is a
    number (not [-infinity]) below the median. *)
Lemma risk_term_positive (oos_sharpe median_is : float) :
  PrimFloat.ltb oos_sharpe median_is = true ->
  PrimFloat.ltb neg_infinity oos_sharpe = true ->
  PrimFloat.ltb 0 (1 - oos_sharpe / (PrimFloat.abs median_is + F64.eps)) = true.
Proof.
  intros Hlt Hfin.
  set (d := PrimFloat.abs median_is + F64.eps).
  set (q := oos_sharpe / d).
  rewrite FloatAxioms.ltb_spec in *.
  pose proof (Prim2SF_valid oos_sharpe) as VA.
  pose proof (Prim2SF_valid median_is) as VM.
  pose proof (Prim2SF_valid d) as VD.
  pose proof (Prim2SF_valid q) as VQ.
  assert (ED : Prim2SF d = SF64add (SFabs (Prim2SF median_is)) sf_eps).
  { unfold d. rewrite add_spec, abs_spec. reflexivity. }
  assert (EQ : Prim2SF q = SF64div (Prim2SF oos_sharpe) (Prim2SF d)).
  { unfold q. apply div_spec. }
  rewrite sub_spec. fold q.
  change (Prim2SF 1) with sf_one. change (Prim2SF 0) with (S754_zero false).
  change (Prim2SF neg_infinity) with (S754_infinity true) in Hfin.
  set (A := Prim2SF oos_sharpe) in *. set (M := Prim2SF median_is) in *.
  clearbody A M.
  destruct (F64Facts.SFltb_not_nan _ _ Hlt) as [An Mn].
  destruct (denominator_positive M Mn) as [PD GD]. cbv zeta in PD, GD.
  rewrite <- ED in PD, GD.
  apply sf_positive_gt_zero, one_minus_positive; [exact VQ|].
  rewrite EQ. apply quotient_below_one; auto.
  - intros s ->. destruct s; [discriminate Hfin|].
    destruct M as [[]|[]| |[]]; discriminate.
  - intros ma ea md ed -> Ed.
    destruct M as [sm|sm| |sm mm em]; try congruence.
    + destruct sm; discriminate.
    + destruct sm; [discriminate|].
      exfalso. rewrite Ed in ED. discriminate ED.
    + destruct sm; [discriminate|].
      pose proof (SFltb_value _ _ _ _ VA VM Hlt) as H1.
      destruct (GD false mm em eq_refl VM) as [E|[m [e [E H2]]]];
        rewrite Ed in E; [discriminate|].
      injection E as <- <-. lra.
Qed.

Local Open Scope Z_scope.

(** ** Magnitudes *)

Lemma binary_round_aux_set_sign s m e l :
  binary_round_aux prec emax s m e l
  = set_sign s (binary_round_aux prec emax false m e l).
Proof.
  unfold binary_round_aux.
  destruct (shr_fexp prec emax m e l) as [r1 e1].
  destruct (shr_fexp prec emax _ e1 loc_Exact) as [r2 e2].
  destruct (shr_m r2); try reflexivity.
  destruct (e2 <=? _); reflexivity.
Qed.

Lemma binary_round_set_sign s m e :
  binary_round prec emax s m e = set_sign s (binary_round prec emax false m e).
Proof.
  unfold binary_round. destruct (shl_align m e _) as [mz ez].
  apply binary_round_aux_set_sign.
Qed.

Lemma sf_big_set_sign k s x : sf_big k (set_sign s x) <-> sf_big k x.
Proof. destruct x; cbn; tauto. Qed.

Lemma sf_small_set_sign k s x : sf_small k (set_sign s x) <-> sf_small k x.
Proof. destruct x; cbn; tauto. Qed.

Lemma sf_big_mono k k' x : k' <= k -> sf_big k x -> sf_big k' x.
Proof.
  intros H. destruct x; cbn; auto. intros B.
  apply Rle_trans with (bpow k); [now apply bpow_le|exact B].
Qed.

Lemma sf_small_mono k k' x : k <= k' -> sf_small k x -> sf_small k' x.
Proof.
  intros H. destruct x; cbn; auto. intros B.
  apply Rle_trans with (bpow k); [exact B|now apply bpow_le].
Qed.

(** The powers of two in the range of the format are floats. *)
Lemma pow2_float k :
  -1074 <= k <= 1023 ->
  exists my ey, valid_binary (S754_finite false my ey) = true /\
                V (Zpos my) ey = bpow k.
Proof.
  intros Hk. destruct (Z_lt_le_dec k (-1022)) as [A|A].
  - (* subnormal *)
    assert (P : 0 < 2 ^ (k + 1074)) by (apply Z.pow_pos_nonneg; lia).
    destruct (2 ^ (k + 1074)) as [|p|p] eqn:E; try lia.
    exists p, (-1074). split.
    + unfold SpecFloat.valid_binary, SpecFloat.bounded,
        SpecFloat.canonical_mantissa.
      rewrite andb_true_iff, Z.eqb_eq, Z.leb_le.
      change (Zpos (digits2_pos p)) with (Zdigits2 (Zpos p)).
      split; [|cbn; lia]. rewrite fexp64_eq.
      assert (Zdigits2 (Zpos p) <= k + 1075); [|lia].
      apply Zdigits2_le; [lia|lia|]. rewrite <- E.
      apply Z.pow_lt_mono_r; lia.
    + rewrite <- E, V_pow by lia. f_equal. lia.
  - exists 4503599627370496%positive, (k - 52). split.
    + unfold SpecFloat.valid_binary, SpecFloat.bounded,
        SpecFloat.canonical_mantissa.
      rewrite andb_true_iff, Z.eqb_eq, Z.leb_le.
      change (Zpos (digits2_pos 4503599627370496)) with 53.
      rewrite fexp64_eq. change (emax - prec) with 971. lia.
    + change (Zpos 4503599627370496) with (2 ^ 52). rewrite V_pow by lia.
      f_equal. lia.
Qed.

(** A positive value has one of the shapes of a positive float. *)
Lemma valid_finite_magnitude s m e :
  valid_binary (S754_finite s m e) = true ->
  (bpow (-1074) <= V (Zpos m) e < bpow 1024)%R.
Proof.
  intros Hv. destruct (valid_finite_bounds s m e Hv) as [_ [B [U _]]].
  split.
  - apply Rle_trans with (V 1 e); [|apply V_le; lia].
    unfold V. rewrite Rmult_1_l. apply bpow_le. lia.
  - apply Rlt_le_trans with (V (2 ^ 53) e); [apply V_lt; lia|].
    rewrite V_pow by lia. apply bpow_le. lia.
Qed.

(** ** Rounding keeps magnitudes on their side of a power of two *)

Lemma round_big s mx ex lx k :
  0 <= mx -> ex <= fexp64 (Zdigits2 mx + ex) ->
  -1074 <= k <= 1023 ->
  (bpow k <= V mx ex)%R ->
  sf_big k (binary_round_aux prec emax s mx ex lx).
Proof.
  intros Hm Hf Hk Hle. rewrite binary_round_aux_set_sign, sf_big_set_sign.
  destruct (pow2_float k Hk) as [my [ey [Hy Ey]]]. rewrite <- Ey in Hle.
  destruct (round_ge mx ex lx false my ey Hm Hf Hy Hle) as [->|[m [e [-> B]]]];
    cbn; [exact I|]. now rewrite <- Ey.
Qed.

Lemma round_small s mx ex lx k :
  0 <= mx -> ex <= fexp64 (Zdigits2 mx + ex) ->
  -1074 <= k <= 1023 ->
  (V mx ex <= bpow k)%R ->
  (lx <> loc_Exact -> (V mx ex < bpow k)%R) ->
  sf_small k (binary_round_aux prec emax s mx ex lx).
Proof.
  intros Hm Hf Hk Hle Hlt. rewrite binary_round_aux_set_sign, sf_small_set_sign.
  destruct (pow2_float k Hk) as [my [ey [Hy Ey]]]. rewrite <- Ey in Hle, Hlt.
  destruct (round_le mx ex lx false my ey Hm Hf Hy Hle Hlt)
    as [->|[m [e [-> B]]]]; cbn; [exact I|]. now rewrite <- Ey.
Qed.

Lemma binary_round_big s m e k :
  -1074 <= k <= 1023 ->
  (bpow k <= V (Zpos m) e)%R ->
  sf_big k (binary_round prec emax s m e).
Proof.
  intros Hk Hle. rewrite binary_round_set_sign, sf_big_set_sign.
  destruct (binary_round_aligned m e) as [mz [ez [-> [Ev Ef]]]].
  rewrite <- Ev in Hle. apply round_big; auto. lia.
Qed.

Lemma binary_round_small s m e k :
  -1074 <= k <= 1023 ->
  (V (Zpos m) e <= bpow k)%R ->
  sf_small k (binary_round prec emax s m e).
Proof.
  intros Hk Hle. rewrite binary_round_set_sign, sf_small_set_sign.
  destruct (binary_round_aligned m e) as [mz [ez [-> [Ev Ef]]]].
  rewrite <- Ev in Hle. apply round_small; auto; [lia|congruence].
Qed.

(** The absolute value of the real number a mantissa denotes. *)
Lemma V_abs M e : Rabs (V M e) = V (Z.abs M) e.
Proof.
  unfold V. rewrite Rabs_mult, abs_IZR.
  rewrite (Rabs_pos_eq (bpow e)); [reflexivity|]. apply Rlt_le, bpow_pos.
Qed.

Lemma binary_normalize_big M e sz k :
  -1074 <= k <= 1023 ->
  (bpow k <= Rabs (V M e))%R ->
  sf_big k (binary_normalize prec emax M e sz).
Proof.
  intros Hk Hle. rewrite V_abs in Hle. destruct M as [|p|p]; cbn [binary_normalize].
  - exfalso. unfold V in Hle. cbn in Hle. pose proof (bpow_pos k). lra.
  - now apply binary_round_big.
  - now apply binary_round_big.
Qed.

Lemma binary_normalize_small M e sz k :
  -1074 <= k <= 1023 ->
  (Rabs (V M e) <= bpow k)%R ->
  sf_small k (binary_normalize prec emax M e sz).
Proof.
  intros Hk Hle. rewrite V_abs in Hle. destruct M as [|p|p]; cbn [binary_normalize].
  - exact I.
  - now apply binary_round_small.
  - now apply binary_round_small.
Qed.

Local Open Scope Z_scope.

(** ** Products *)

Lemma V_mult m1 e1 m2 e2 : (V (m1 * m2) (e1 + e2) = V m1 e1 * V m2 e2)%R.
Proof. unfold V. rewrite mult_IZR, bpow_add. ring. Qed.

Lemma Zdigits2_mul m1 m2 :
  0 < m1 -> 0 < m2 -> Zdigits2 m1 + Zdigits2 m2 - 1 <= Zdigits2 (m1 * m2).
Proof.
  intros H1 H2.
  pose proof (Zdigits2_bounds m1 H1) as [L1 _].
  pose proof (Zdigits2_bounds m2 H2) as [L2 _].
  pose proof (Zdigits2_pos m1 H1). pose proof (Zdigits2_pos m2 H2).
  assert (Zdigits2 m1 + Zdigits2 m2 - 2 < Zdigits2 (m1 * m2)); [|lia].
  apply Zdigits2_ge; [lia|].
  replace (Zdigits2 m1 + Zdigits2 m2 - 2)
    with ((Zdigits2 m1 - 1) + (Zdigits2 m2 - 1)) by lia.
  rewrite Z.pow_add_r by lia.
  assert (0 < 2 ^ (Zdigits2 m1 - 1)) by (apply Z.pow_pos_nonneg; lia).
  assert (0 < 2 ^ (Zdigits2 m2 - 1)) by (apply Z.pow_pos_nonneg; lia).
  nia.
Qed.

(** The exact product of two floats is fine enough to be rounded once. *)
Lemma mul_fine sx mx ex sy my ey :
  valid_binary (S754_finite sx mx ex) = true ->
  valid_binary (S754_finite sy my ey) = true ->
  ex + ey <= fexp64 (Zdigits2 (Zpos mx * Zpos my) + (ex + ey)).
Proof.
  intros Vx Vy.
  destruct (valid_finite_bounds _ _ _ Vx) as [Cx [Bx _]].
  destruct (valid_finite_bounds _ _ _ Vy) as [Cy [By _]].
  pose proof (Zdigits2_mul (Zpos mx) (Zpos my) ltac:(lia) ltac:(lia)) as D.
  pose proof (Zdigits2_pos (Zpos mx) ltac:(lia)).
  pose proof (Zdigits2_pos (Zpos my) ltac:(lia)).
  rewrite fexp64_eq in *. lia.
Qed.

Lemma SFmul_small x y a b :
  valid_binary x = true -> valid_binary y = true ->
  sf_small a x -> sf_small b y -> -1074 <= a + b <= 1023 ->
  sf_small (a + b) (SF64mul x y).
Proof.
  intros Vx Vy Hx Hy Hk.
  destruct x as [sx|sx| |sx mx ex]; cbn in Hx; try contradiction;
    destruct y as [sy|sy| |sy my ey]; cbn in Hy; try contradiction;
    try exact I.
  unfold SF64mul, SFmul. change (Zpos (mx * my)) with (Zpos mx * Zpos my).
  pose proof (V_pos (Zpos mx) ex ltac:(lia)) as Px.
  pose proof (V_pos (Zpos my) ey ltac:(lia)) as Py.
  apply round_small; [lia|now apply (mul_fine sx _ _ sy)|exact Hk| |congruence].
  rewrite V_mult, bpow_add.
  apply Rmult_le_compat; lra.
Qed.

Lemma SFmul_big x y a b :
  valid_binary x = true -> valid_binary y = true ->
  sf_big a x -> sf_big b y -> -1074 <= a + b <= 1023 ->
  sf_big (a + b) (SF64mul x y).
Proof.
  intros Vx Vy Hx Hy Hk.
  destruct x as [sx|sx| |sx mx ex]; cbn in Hx; try contradiction;
    destruct y as [sy|sy| |sy my ey]; cbn in Hy; try contradiction;
    try exact I.
  unfold SF64mul, SFmul. change (Zpos (mx * my)) with (Zpos mx * Zpos my).
  pose proof (bpow_pos a) as Pa. pose proof (bpow_pos b) as Pb.
  apply round_big; [lia|now apply (mul_fine sx _ _ sy)|exact Hk|].
  rewrite V_mult, bpow_add.
  apply Rmult_le_compat; lra.
Qed.

(** ** Quotients *)

Lemma div_core_spec ma ea md ed :
  valid_binary (S754_finite false ma ea) = true ->
  valid_binary (S754_finite false md ed) = true ->
  let '(q, e', l) := SFdiv_core_binary prec emax (Zpos ma) ea (Zpos md) ed in
  0 <= q /\ e' <= fexp64 (Zdigits2 q + e') /\
  (-1074 < e' -> 2 ^ 52 <= q) /\
  (V q e' * V (Zpos md) ed <= V (Zpos ma) ea)%R /\
  (V (Zpos ma) ea < V (q + 1) e' * V (Zpos md) ed)%R /\
  (l <> loc_Exact -> (V q e' * V (Zpos md) ed < V (Zpos ma) ea)%R).
Proof.
  intros Va Vd.
  destruct (valid_finite_bounds _ _ _ Va) as [_ [Ba [Ua _]]].
  destruct (valid_finite_bounds _ _ _ Vd) as [_ [Bd [Ud _]]].
  pose proof (Zdigits2_bounds (Zpos ma) ltac:(lia)) as [La _].
  pose proof (Zdigits2_bounds (Zpos md) ltac:(lia)) as [_ Ud2].
  pose proof (Zdigits2_pos (Zpos ma) ltac:(lia)) as Pa.
  pose proof (Zdigits2_pos (Zpos md) ltac:(lia)) as Pd.
  pose proof (Zdigits2_le (Zpos ma) 53 ltac:(lia) ltac:(lia) Ua) as Da.
  unfold SFdiv_core_binary.
  set (d1 := Zdigits2 (Zpos ma)) in *. set (d2 := Zdigits2 (Zpos md)) in *.
  clearbody d1 d2.
  set (k := d1 + ea - (d2 + ed)).
  assert (Ek : k = d1 + ea - (d2 + ed)) by reflexivity.
  assert (Fk : fexp64 k = Z.max (k - 53) (-1074)) by reflexivity.
  clearbody k.
  set (e' := Z.min (fexp64 k) (ea - ed)).
  assert (He' : e' <= Z.max (k - 53) (-1074) /\ e' <= ea - ed)
    by (unfold e'; lia).
  clearbody e'. set (s := ea - ed - e').
  assert (Es : s = ea - ed - e') by reflexivity.
  clearbody s.
  assert (Hs : 0 <= s) by lia.
  set (m' := match s with
             | Zpos _ => Z.shiftl (Zpos ma) s
             | Z0 => Zpos ma
             | Zneg _ => 0
             end).
  assert (Em : m' = Zpos ma * 2 ^ s).
  { unfold m'. destruct s eqn:Es'; try lia.
    rewrite Z.shiftl_mul_pow2 by lia. reflexivity. }
  clearbody m'.
  pose proof (Z_div_mod m' (Zpos md) ltac:(lia)) as D.
  destruct (Z.div_eucl m' (Zpos md)) as [q r]. destruct D as [D Br].
  assert (P2 : 0 < 2 ^ s) by (apply Z.pow_pos_nonneg; lia).
  assert (Hq : 0 <= q) by nia.
  split; [exact Hq|].
  assert (Ha : V (Zpos ma) ea = V m' (e' + ed)).
  { rewrite Em, V_shift by lia. f_equal. lia. }
  assert (Q52 : -1074 < e' -> 2 ^ 52 <= q).
  { intros A.
    assert (S53 : 53 - d1 + d2 <= s) by lia.
    assert (M1 : 2 ^ (52 + d2) <= m').
    { rewrite Em.
      apply Z.le_trans with (2 ^ (d1 - 1) * 2 ^ (53 - d1 + d2)).
      - rewrite <- Z.pow_add_r by lia. apply Z.pow_le_mono_r; lia.
      - assert (2 ^ (53 - d1 + d2) <= 2 ^ s) by (apply Z.pow_le_mono_r; lia).
        assert (0 < 2 ^ (d1 - 1)) by (apply Z.pow_pos_nonneg; lia).
        nia. }
    rewrite Z.pow_add_r in M1 by lia. nia. }
  split; [|split; [exact Q52|]].
  - destruct (Z_le_gt_dec e' (-1074)) as [A|A].
    + pose proof (fexp64_ge (Zdigits2 q + e')). lia.
    + pose proof (Zdigits2_ge q 52 ltac:(lia) (Q52 ltac:(lia))).
      rewrite fexp64_eq. lia.
  - rewrite <- !V_mult, Ha. split; [|split].
    + apply V_le. nia.
    + apply V_lt. nia.
    + intros Hl. rewrite new_location_exact in Hl. apply V_lt. nia.
Qed.

Lemma SFdiv_small x y a b :
  valid_binary x = true -> valid_binary y = true ->
  (sf_small a x) -> (sf_big b y) -> -1074 <= a - b <= 1023 ->
  sf_small (a - b) (SF64div x y).
Proof.
  intros Vx Vy Hx Hy Hk.
  destruct x as [sx|sx| |sx mx ex]; cbn in Hx; try contradiction;
    destruct y as [sy|sy| |sy my ey]; cbn in Hy; try contradiction;
    try exact I.
  unfold SF64div, SFdiv.
  pose proof (div_core_spec mx ex my ey Vx Vy) as C.
  destruct (SFdiv_core_binary prec emax (Zpos mx) ex (Zpos my) ey)
    as [[q e'] l]. destruct C as [Hq [Hf [_ [Hle [_ Hst]]]]].
  pose proof (bpow_pos b) as Pb. pose proof (bpow_pos (a - b)) as Pab.
  assert (Eab : (bpow a = bpow (a - b) * bpow b)%R).
  { rewrite <- bpow_add. f_equal. lia. }
  assert (Pq : (0 <= V q e')%R).
  { unfold V. apply Rmult_le_pos; [now apply IZR_le|apply Rlt_le, bpow_pos]. }
  apply round_small; auto.
  - apply Rmult_le_reg_r with (bpow b); [exact Pb|]. rewrite <- Eab.
    apply Rle_trans with (V q e' * V (Zpos my) ey)%R; [|lra].
    apply Rmult_le_compat_l; lra.
  - intros Hl. specialize (Hst Hl).
    apply Rmult_lt_reg_r with (bpow b); [exact Pb|]. rewrite <- Eab.
    apply Rle_lt_trans with (V q e' * V (Zpos my) ey)%R; [|lra].
    apply Rmult_le_compat_l; lra.
Qed.

Lemma SFdiv_big x y a b :
  valid_binary x = true -> valid_binary y = true ->
  (exists s m e, x = S754_finite s m e /\ (bpow a <= V (Zpos m) e)%R) ->
  (exists s m e, y = S754_finite s m e /\ (V (Zpos m) e <= bpow b)%R) ->
  -1074 <= a - b <= 1023 ->
  sf_big (a - b) (SF64div x y).
Proof.
  intros Vx Vy [sx [mx [ex [-> Hx]]]] [sy [my [ey [-> Hy]]]] Hk.
  unfold SF64div, SFdiv.
  pose proof (div_core_spec mx ex my ey Vx Vy) as C.
  destruct (SFdiv_core_binary prec emax (Zpos mx) ex (Zpos my) ey)
    as [[q e'] l]. destruct C as [Hq [Hf [Q52 [_ [Hlt _]]]]].
  pose proof (bpow_pos b) as Pb. pose proof (bpow_pos (a - b)) as Pab.
  pose proof (V_pos (Zpos my) ey ltac:(lia)) as Py.
  assert (Eab : (bpow a = bpow (a - b) * bpow b)%R).
  { rewrite <- bpow_add. f_equal. lia. }
  apply round_big; auto.
  (* the exact quotient is above [2^(a-b)], and so is its truncation *)
  assert (X : (bpow (a - b) * V (Zpos my) ey < V (q + 1) e' * V (Zpos my) ey)%R).
  { apply Rle_lt_trans with (V (Zpos mx) ex); [|exact Hlt].
    apply Rle_trans with (bpow a); [|exact Hx]. rewrite Eab.
    apply Rmult_le_compat_l; lra. }
  apply Rmult_lt_reg_r in X; [|exact Py].
  destruct (Z_le_gt_dec e' (a - b)) as [A|A].
  - replace (bpow (a - b)) with (V (2 ^ (a - b - e')) e') in *
      by (rewrite V_pow by lia; f_equal; lia).
    apply V_le. apply V_lt_inv in X. lia.
  - specialize (Q52 ltac:(lia)).
    apply Rle_trans with (V (2 ^ 52) e'); [|now apply V_le].
    rewrite V_pow by lia. apply bpow_le. lia.
Qed.

(** ** Square roots *)

Lemma sqrt_core_spec m e :
  valid_binary (S754_finite false m e) = true ->
  let '(q, e', l) := SFsqrt_core_binary prec emax (Zpos m) e in
  2 ^ 52 <= q /\ e' <= fexp64 (Zdigits2 q + e') /\ -1074 < e' /\
  (V q e' * V q e' <= V (Zpos m) e)%R /\
  (V (Zpos m) e < V (q + 1) e' * V (q + 1) e')%R.
Proof.
  intros Vm.
  destruct (valid_finite_bounds _ _ _ Vm) as [_ [Bm [Um _]]].
  pose proof (Zdigits2_bounds (Zpos m) ltac:(lia)) as [Lm _].
  pose proof (Zdigits2_pos (Zpos m) ltac:(lia)) as Pm.
  pose proof (Zdigits2_le (Zpos m) 53 ltac:(lia) ltac:(lia) Um) as Dm.
  unfold SFsqrt_core_binary.
  set (d := Zdigits2 (Zpos m)) in *. clearbody d.
  set (h := Z.div2 (d + e + 1)).
  assert (Eh : 2 * h <= d + e + 1 <= 2 * h + 1).
  { unfold h. rewrite Z.div2_div.
    pose proof (Z.div_mod (d + e + 1) 2 ltac:(lia)).
    pose proof (Z.mod_pos_bound (d + e + 1) 2 ltac:(lia)). lia. }
  clearbody h.
  set (g := Z.div2 e).
  assert (Eg : 2 * g <= e <= 2 * g + 1).
  { unfold g. rewrite Z.div2_div.
    pose proof (Z.div_mod e 2 ltac:(lia)).
    pose proof (Z.mod_pos_bound e 2 ltac:(lia)). lia. }
  clearbody g.
  assert (Fh : fexp64 h = Z.max (h - 53) (-1074)) by reflexivity.
  set (e' := Z.min (fexp64 h) g).
  assert (He' : e' <= h - 53 /\ e' <= g /\ -1074 < e') by (unfold e'; lia).
  clearbody e'. clear Fh.
  set (s := e - 2 * e').
  assert (Es : s = e - 2 * e') by reflexivity. clearbody s.
  assert (Hs : 0 <= s) by lia.
  set (m' := match s with
             | Zpos _ => Z.shiftl (Zpos m) s
             | Z0 => Zpos m
             | Zneg _ => 0
             end).
  assert (Em : m' = Zpos m * 2 ^ s).
  { unfold m'. destruct s eqn:Es'; try lia.
    rewrite Z.shiftl_mul_pow2 by lia. reflexivity. }
  clearbody m'.
  assert (P2 : 0 < 2 ^ s) by (apply Z.pow_pos_nonneg; lia).
  assert (M104 : 2 ^ 104 <= m').
  { rewrite Em.
    apply Z.le_trans with (2 ^ (d - 1) * 2 ^ (105 - d)).
    - rewrite <- Z.pow_add_r by lia. apply Z.pow_le_mono_r; lia.
    - assert (2 ^ (105 - d) <= 2 ^ s) by (apply Z.pow_le_mono_r; lia).
      assert (0 < 2 ^ (d - 1)) by (apply Z.pow_pos_nonneg; lia).
      nia. }
  pose proof (Z.sqrtrem_spec m' ltac:(lia)) as Sq.
  destruct (Z.sqrtrem m') as [q r]. destruct Sq as [Sq Br].
  assert (Hq : 2 ^ 52 <= q).
  { destruct (Z_lt_le_dec q (2 ^ 52)) as [C|C]; [|exact C]. exfalso.
    change (2 ^ 104) with (2 ^ 52 * 2 ^ 52) in M104. nia. }
  assert (Hv : V (Zpos m) e = V m' (e' + e')).
  { rewrite Em, V_shift by lia. f_equal. lia. }
  split; [exact Hq|]. split; [|split; [lia|]].
  - pose proof (Zdigits2_ge q 52 ltac:(lia) Hq). rewrite fexp64_eq. lia.
  - rewrite <- !V_mult, Hv. split; [apply V_le|apply V_lt]; nia.
Qed.

Lemma SFsqrt_big m e k :
  valid_binary (S754_finite false m e) = true ->
  -1074 <= k <= 1023 ->
  (bpow (2 * k) <= V (Zpos m) e)%R ->
  sf_big k (SF64sqrt (S754_finite false m e)).
Proof.
  intros Vm Hk Hle. unfold SF64sqrt, SFsqrt.
  pose proof (sqrt_core_spec m e Vm) as C.
  destruct (SFsqrt_core_binary prec emax (Zpos m) e) as [[q e'] l].
  destruct C as [Hq [Hf [He' [_ Hlt]]]].
  apply round_big; auto; [lia|].
  destruct (Z_le_gt_dec e' k) as [A|A].
  - (* [2^(k-e')] is an integer whose square is below [(q+1)^2] *)
    assert (X : (V (2 ^ (k - e') * 2 ^ (k - e')) (e' + e')
                 < V ((q + 1) * (q + 1)) (e' + e'))%R).
    { rewrite !V_mult. rewrite V_pow by lia.
      replace (k - e' + e') with k by lia. rewrite <- bpow_add.
      replace (k + k) with (2 * k) by lia. lra. }
    apply V_lt_inv in X.
    replace (bpow k) with (V (2 ^ (k - e')) e')
      by (rewrite V_pow by lia; f_equal; lia).
    apply V_le.
    assert (0 < 2 ^ (k - e')) by (apply Z.pow_pos_nonneg; lia).
    destruct (Z_le_gt_dec (2 ^ (k - e')) q) as [C|C]; [exact C|]. exfalso.
    assert ((q + 1) * (q + 1) <= 2 ^ (k - e') * 2 ^ (k - e'))
      by (apply Z.mul_le_mono_nonneg; lia).
    lia.
  - apply Rle_trans with (V (2 ^ 52) e'); [|now apply V_le].
    rewrite V_pow by lia. apply bpow_le. lia.
Qed.

Local Open Scope Z_scope.

(** ** The variance of returns around a large or an infinite mean *)

Lemma V_opp M e : V (- M) e = (- V M e)%R.
Proof. unfold V. rewrite opp_IZR. ring. Qed.

Lemma V_cond_Zopp s M e :
  V (cond_Zopp s M) e = (if s then - V M e else V M e)%R.
Proof. destruct s; cbn [cond_Zopp]; [apply V_opp|reflexivity]. Qed.

(** The deviation of a value from a mean of magnitude at least [2^t]. *)
Lemma SFsub_dev t sa ma ea v :
  valid_binary (S754_finite sa ma ea) = true -> valid_binary v = true ->
  -1020 <= t <= 1023 ->
  (bpow t <= V (Zpos ma) ea)%R ->
  sf_dev (t - 54) (SF64sub (S754_finite sa ma ea) v).
Proof.
  intros Va Vv Ht Ha.
  destruct (valid_finite_bounds _ _ _ Va) as [_ [Ba [Ua _]]].
  destruct v as [sv|sv| |sv mv ev]; try exact I.
  - (* v = 0 *)
    cbn. apply Rle_trans with (bpow t); [apply bpow_le; lia|exact Ha].
  - destruct (valid_finite_bounds _ _ _ Vv) as [_ [Bv [Uv _]]].
    unfold SF64sub, SFsub.
    set (ez := Z.min ea ev).
    set (M := cond_Zopp sa (Zpos (fst (shl_align ma ea ez)))
              - cond_Zopp sv (Zpos (fst (shl_align mv ev ez)))).
    assert (EM : V M ez
                 = ((if sa then - V (Zpos ma) ea else V (Zpos ma) ea)
                    - (if sv then - V (Zpos mv) ev else V (Zpos mv) ev))%R).
    { unfold M. rewrite V_minus, !V_cond_Zopp.
      rewrite !aligned_mantissa by (unfold ez; lia). reflexivity. }
    destruct (Z.eq_dec M 0) as [Z0|NZ].
    { rewrite Z0. exact I. }
    assert (B : sf_big (t - 54) (binary_normalize prec emax M ez false)).
    { apply binary_normalize_big; [lia|].
      assert (Tea : t - 52 <= ea).
      { assert (t < 53 + ea); [|lia]. apply bpow_lt_inv.
        apply Rle_lt_trans with (V (Zpos ma) ea); [exact Ha|].
        apply Rlt_le_trans with (V (2 ^ 53) ea); [apply V_lt; lia|].
        rewrite V_pow by lia. apply Rle_refl. }
      destruct (Z_le_gt_dec (t - 54) ev) as [A|A].
      - rewrite V_abs.
        apply Rle_trans with (V 1 ez); [|apply V_le; lia].
        unfold V. rewrite Rmult_1_l. apply bpow_le. unfold ez. lia.
      - assert (Bv' : (V (Zpos mv) ev < bpow (t - 2))%R).
        { apply Rlt_le_trans with (V (2 ^ 53) ev); [apply V_lt; lia|].
          rewrite V_pow by lia. apply bpow_le. lia. }
        assert (E2 : (bpow t = 4 * bpow (t - 2))%R).
        { replace t with (2 + (t - 2)) at 1 by lia. rewrite bpow_add.
          f_equal. unfold bpow. simpl. lra. }
        assert (E54 : (bpow (t - 54) <= bpow (t - 2))%R)
          by (apply bpow_le; lia).
        pose proof (bpow_pos (t - 2)) as P2.
        pose proof (V_pos (Zpos mv) ev ltac:(lia)) as Pv.
        rewrite EM. unfold Rabs.
        destruct sa, sv; destruct (Rcase_abs _); lra. }
    destruct (binary_normalize prec emax M ez false); cbn in B |- *; tauto.
Qed.

(** A float with the sign [false] and a large magnitude is a sum of
    squares. *)
Lemma sf_big_sq k x : sf_big k (set_sign false x) -> sf_sq k (set_sign false x).
Proof. destruct x; cbn; auto. Qed.

Lemma SFmul_self_sq k d :
  valid_binary d = true -> -1074 <= k + k <= 1023 ->
  sf_dev k d -> sf_sq (k + k) (SF64mul d d).
Proof.
  intros Vd Hk Hd.
  destruct d as [s|s| |s m e]; cbn in Hd |- *; try exact I.
  - now destruct s.
  - pose proof (SFmul_big (S754_finite s m e) (S754_finite s m e) k k
                  Vd Vd Hd Hd Hk) as B.
    unfold SF64mul, SFmul in B |- *.
    rewrite binary_round_aux_set_sign in B |- *.
    replace (xorb s s) with false in * by (now destruct s).
    exact (sf_big_sq _ _ B).
Qed.

Lemma SFadd_sq k x y :
  -1074 <= k <= 1023 ->
  sf_sq k x -> sf_sq k y -> sf_sq k (SF64add x y).
Proof.
  intros Hk Hx Hy.
  destruct x as [sx|sx| |sx mx ex]; destruct y as [sy|sy| |sy my ey];
    cbn in Hx, Hy; try exact I; try exact Hx; try exact Hy.
  - destruct sx, sy; exact I.
  - subst. reflexivity.
  - destruct Hx as [-> Bx], Hy as [-> By].
    destruct (pow2_float k Hk) as [mk [ek [Vk Ek]]].
    pose proof (V_pos (Zpos my) ey ltac:(lia)) as Py.
    destruct (SFadd_finite_ge mx ex my ey false mk ek Vk
                ltac:(rewrite Ek; lra)) as [->|[m [e [-> B]]]]; cbn; auto.
    split; [reflexivity|]. now rewrite <- Ek.
Qed.

Lemma SFdiv_sq_count a x y :
  valid_binary x = true -> valid_binary y = true ->
  -1011 <= a <= 1023 ->
  sf_sq a x -> sf_count y -> sf_sq (a - 63) (SF64div x y).
Proof.
  intros Vx Vy Ha Hx [->|[my [ey [-> By]]]];
    destruct x as [sx|sx| |sx mx ex]; cbn in Hx; subst; try exact I;
    try (destruct Hx as [-> Bx]); try reflexivity.
  pose proof (SFdiv_big (S754_finite false mx ex) (S754_finite false my ey)
                a 63 Vx Vy ltac:(eauto) ltac:(eauto) ltac:(lia)) as B.
  unfold SF64div, SFdiv in B |- *.
  destruct (SFdiv_core_binary prec emax (Zpos mx) ex (Zpos my) ey)
    as [[q e'] l].
  rewrite binary_round_aux_set_sign in B |- *. cbn [xorb] in *.
  exact (sf_big_sq _ _ B).
Qed.

Lemma SFsqrt_sq a k x :
  valid_binary x = true -> -1074 <= k <= 1023 -> 2 * k <= a ->
  sf_sq a x ->
  match SF64sqrt x with
  | S754_finite _ m e => (bpow k <= V (Zpos m) e)%R
  | _ => True
  end.
Proof.
  intros Vx Hk Hka Hx.
  destruct x as [sx|sx| |sx mx ex]; cbn in Hx; subst; try exact I.
  - destruct Hx as [-> Bx].
    assert (B : sf_big k (SF64sqrt (S754_finite false mx ex))).
    { apply SFsqrt_big; auto.
      apply Rle_trans with (bpow a); [apply bpow_le; lia|exact Bx]. }
    destruct (SF64sqrt _); cbn in B; auto.
Qed.

(** Every positive float has a root of at least [2^-537]. *)
Lemma SFsqrt_floor x :
  valid_binary x = true ->
  match SF64sqrt x with
  | S754_finite _ m e => (bpow (-537) <= V (Zpos m) e)%R
  | _ => True
  end.
Proof.
  intros Vx. destruct x as [sx|sx| |sx mx ex]; try exact I.
  - destruct sx; exact I.
  - destruct sx; [exact I|].
    assert (B : sf_big (-537) (SF64sqrt (S754_finite false mx ex))).
    { apply SFsqrt_big; auto; [lia|].
      apply (valid_finite_magnitude false); exact Vx. }
    destruct (SF64sqrt _); cbn in B; auto.
Qed.

(** *** Around an infinite mean *)

Lemma SFsub_inf s v :
  match SF64sub (S754_infinity s) v with
  | S754_nan | S754_infinity _ => True
  | _ => False
  end.
Proof. destruct v as [sv|sv| |sv mv ev]; cbn; auto. destruct s, sv; exact I. Qed.

Lemma SFmul_self_top d :
  match d with S754_nan | S754_infinity _ => True | _ => False end ->
  sf_top (SF64mul d d).
Proof.
  destruct d as [s|s| |s m e]; try contradiction; intros _.
  - right. cbn. now destruct s.
  - now left.
Qed.

Lemma SFadd_top x y :
  sf_top x \/ (exists s, x = S754_zero s) -> sf_top y -> sf_top (SF64add x y).
Proof.
  intros [[->| ->]|[s ->]] [->| ->]; cbn; unfold sf_top; auto.
Qed.

Lemma SFdiv_top_count x y : sf_top x -> sf_count y -> sf_top (SF64div x y).
Proof.
  intros [->| ->] [->|[m [e [-> _]]]]; cbn; unfold sf_top; auto.
Qed.

Lemma SFsqrt_top x : sf_top x -> sf_top (SF64sqrt x).
Proof. intros [->| ->]; cbn; unfold sf_top; auto. Qed.

Local Open Scope Z_scope.

(** ** The Sharpe ratio is never infinite *)

Lemma of_nat_count n : sf_count (Prim2SF (F64.of_nat n)).
Proof.
  unfold F64.of_nat, F64.of_Z. destruct (Z.of_nat n) as [|p|p] eqn:E.
  - left. reflexivity.
  - rewrite of_uint63_spec.
    pose proof (Uint63.to_Z_bounded (Uint63.of_Z (Zpos p))) as B.
    change Uint63.wB with (2 ^ 63) in B.
    destruct (Uint63.to_Z _) as [|q|q]; cbn [binary_normalize];
      [now left| |lia].
    assert (S : sf_small 63 (binary_round prec emax false q 0)).
    { apply binary_round_small; [lia|].
      apply Rle_trans with (V (2 ^ 63) 0); [apply V_le; lia|].
      rewrite V_pow by lia. apply Rle_refl. }
    destruct (binary_round_aligned q 0) as [mz [ez [Er _]]].
    pose proof (binary_round_aux_sign false (Zpos mz) ez loc_Exact ltac:(lia))
      as Sg. cbv zeta in Sg. rewrite <- Er in Sg.
    destruct Sg as [->|[E'|[m [e E']]]]; [now left| |].
    + rewrite E' in S. contradiction.
    + rewrite E' in S |- *. right. eauto.
  - lia.
Qed.

Local Open Scope float_scope.

Lemma fold_add_sq k xs :
  (-1074 <= k <= 1023)%Z ->
  Forall (fun x => sf_sq k (Prim2SF x)) xs ->
  forall acc, sf_sq k (Prim2SF acc) ->
              sf_sq k (Prim2SF (fold_left PrimFloat.add xs acc)).
Proof.
  intros Hk. induction 1 as [|x xs Hx _ IH]; intros acc Ha; [exact Ha|].
  cbn [fold_left]. apply IH. rewrite add_spec. now apply SFadd_sq.
Qed.

Lemma fold_add_top xs :
  Forall (fun x => sf_top (Prim2SF x)) xs ->
  forall acc, sf_top (Prim2SF acc) ->
              sf_top (Prim2SF (fold_left PrimFloat.add xs acc)).
Proof.
  induction 1 as [|x xs Hx _ IH]; intros acc Ha; [exact Ha|].
  cbn [fold_left]. apply IH. rewrite add_spec. apply SFadd_top; auto.
Qed.

Lemma sum_sq k xs :
  (-1074 <= k <= 1023)%Z ->
  Forall (fun x => sf_sq k (Prim2SF x)) xs -> sf_sq k (Prim2SF (F64.sum xs)).
Proof. intros Hk H. apply fold_add_sq; auto. exact I. Qed.

Lemma sum_top xs :
  xs <> [] ->
  Forall (fun x => sf_top (Prim2SF x)) xs -> sf_top (Prim2SF (F64.sum xs)).
Proof.
  destruct xs as [|x xs]; [congruence|]. intros _ H.
  inversion H as [|? ? Hx Hxs]; subst. unfold F64.sum. cbn [fold_left].
  apply fold_add_top; [exact Hxs|]. rewrite add_spec.
  apply SFadd_top; [right; exists false; reflexivity|exact Hx].
Qed.

(** The squared deviations from a mean of magnitude at least [2^480]. *)
Lemma squares_big avg vals s m e :
  Prim2SF avg = S754_finite s m e -> (bpow 480 <= V (Zpos m) e)%R ->
  Forall (fun x => sf_sq 852 (Prim2SF x))
         (map (fun v => (avg - v) * (avg - v)) vals).
Proof.
  intros Ea Hb. apply Forall_forall. intros x Hx.
  apply in_map_iff in Hx. destruct Hx as [v [<- _]].
  rewrite mul_spec.
  apply (SFmul_self_sq 426); [apply Prim2SF_valid|lia|].
  rewrite sub_spec, Ea.
  apply (SFsub_dev 480); [rewrite <- Ea|..]; try apply Prim2SF_valid;
    [lia|exact Hb].
Qed.

(** The squared deviations from an infinite mean. *)
Lemma squares_top avg vals s :
  Prim2SF avg = S754_infinity s ->
  Forall (fun x => sf_top (Prim2SF x))
         (map (fun v => (avg - v) * (avg - v)) vals).
Proof.
  intros Ea. apply Forall_forall. intros x Hx.
  apply in_map_iff in Hx. destruct Hx as [v [<- _]].
  rewrite mul_spec. apply SFmul_self_top. rewrite sub_spec, Ea.
  apply SFsub_inf.
Qed.

Lemma sf_sqrt252_small : sf_small 4 sf_sqrt252.
Proof.
  unfold sf_sqrt252. cbn [sf_small].
  match goal with |- (V _ ?e <= _)%R =>
    apply Rle_trans with (V (2 ^ 53) e); [apply V_le; vm_compute; discriminate|]
  end.
  rewrite V_pow by lia. apply Rle_refl.
Qed.

Lemma SFeqb_zero s : SFeqb (S754_zero s) (S754_zero false) = true.
Proof. reflexivity. Qed.

(** The annualised ratio of a mean and a volatility: never an infinity,
    once the volatility is the root of a variance taken around that
    mean. *)
Lemma sharpe_ratio_finite (avg var : float) :
  (forall s, Prim2SF avg = S754_infinity s -> sf_top (Prim2SF var)) ->
  (forall s m e, Prim2SF avg = S754_finite s m e ->
                 (bpow 480 <= V (Zpos m) e)%R -> sf_sq 789 (Prim2SF var)) ->
  let vol := PrimFloat.sqrt var in
  PrimFloat.eqb vol 0 || PrimFloat.is_nan vol = false ->
  forall s, Prim2SF (avg / vol * F64.sqrt252) <> S754_infinity s.
Proof.
  intros Htop Hbig vol Hg s.
  apply orb_false_iff in Hg. destruct Hg as [Hz Hn].
  rewrite FloatAxioms.eqb_spec in Hz. change (Prim2SF 0) with (S754_zero false) in Hz.
  apply F64Facts.not_nan_spec in Hn.
  rewrite mul_spec, div_spec.
  change (Prim2SF F64.sqrt252) with sf_sqrt252.
  pose proof (Prim2SF_valid avg) as VA.
  pose proof (Prim2SF_valid var) as VW.
  pose proof (Prim2SF_valid vol) as VV.
  pose proof (Prim2SF_valid (avg / vol)) as VQ. rewrite div_spec in VQ.
  assert (EV : Prim2SF vol = SF64sqrt (Prim2SF var)) by apply sqrt_spec.
  set (A := Prim2SF avg) in *. set (W := Prim2SF var) in *.
  set (Vo := Prim2SF vol) in *. clearbody A W Vo.
  assert (Fin : SF64div A Vo = S754_nan \/ sf_small 1017 (SF64div A Vo) ->
                SF64mul (SF64div A Vo) sf_sqrt252 <> S754_infinity s).
  { intros [E|S]; [rewrite E; discriminate|].
    pose proof (SFmul_small (SF64div A Vo) sf_sqrt252 1017 4 VQ eq_refl S
                  sf_sqrt252_small ltac:(lia)) as S'.
    intros E. rewrite E in S'. exact S'. }
  apply Fin. clear Fin.
  destruct Vo as [sv|sv| |sv mv ev].
  - rewrite SFeqb_zero in Hz. discriminate.
  - destruct A; cbn; auto.
  - congruence.
  - destruct A as [sa|sa| |sa ma ea]; cbn [SF64div SFdiv]; auto.
    + right. exact I.
    + exfalso. destruct (SFsqrt_top W (Htop sa eq_refl)) as [E|E];
        rewrite <- EV in E; discriminate.
    + right.
      assert (VF : valid_binary (S754_finite sa ma ea) = true) by exact VA.
      destruct (Rlt_le_dec (V (Zpos ma) ea) (bpow 480)) as [L|G].
      * (* a small mean over any volatility *)
        pose proof (SFsqrt_floor W VW) as F. rewrite <- EV in F.
        apply (SFdiv_small (S754_finite sa ma ea) (S754_finite sv mv ev)
                 480 (-537) VA VV); [exact (Rlt_le _ _ L)|exact F|lia].
      * (* a large mean: the volatility is large too *)
        pose proof (SFsqrt_sq 789 394 W VW ltac:(lia) ltac:(lia)
                      (Hbig sa ma ea eq_refl G)) as F.
        rewrite <- EV in F.
        apply (sf_small_mono 630); [lia|].
        apply (SFdiv_small (S754_finite sa ma ea) (S754_finite sv mv ev)
                 1024 394 VA VV); [|exact F|lia].
        cbn [sf_small]. apply Rlt_le.
        apply (valid_finite_magnitude sa). exact VA.
Qed.

(** [mean / std * sqrt(252)] of a series is never an infinity when the
    guard of [compute_metrics] lets it through. *)
Lemma std_sharpe_finite (ret : list float) :
  let vol := Series.std ret in
  PrimFloat.eqb vol 0 || PrimFloat.is_nan vol = false ->
  forall s, Prim2SF (Series.mean ret / vol * F64.sqrt252) <> S754_infinity s.
Proof.
  unfold Series.std, Series.var, Series.mean.
  set (vals := Series.dropna ret).
  destruct (length vals <=? 1)%nat eqn:C.
  - cbv zeta. intros H. exfalso. vm_compute in H. discriminate.
  - apply Nat.leb_gt in C. cbv zeta.
    set (avg := F64.sum vals / F64.of_nat (length vals)).
    set (sqr := map (fun v => (avg - v) * (avg - v)) vals).
    apply sharpe_ratio_finite.
    + intros s Ea. rewrite div_spec.
      apply SFdiv_top_count; [|apply of_nat_count].
      apply sum_top; [|now apply (squares_top avg vals s)].
      unfold sqr. destruct vals; [cbn in C; lia|discriminate].
    + intros s m e Ea Hb. rewrite div_spec.
      apply (SFdiv_sq_count 852); try apply Prim2SF_valid;
        [lia| |apply of_nat_count].
      apply sum_sq; [lia|]. now apply (squares_big avg vals s m e).
Qed.

Lemma compute_metrics_sharpe_finite equity_curve trade_returns m :
  compute_metrics equity_curve trade_returns = Ok m ->
  forall s, Prim2SF (sharpe m) <> S754_infinity s.
Proof.
  intros H s. rewrite (compute_metrics_sharpe _ _ _ H). cbv zeta.
  destruct (_ || _) eqn:G; [discriminate|].
  now apply std_sharpe_finite.
Qed.

Lemma above_neg_infinity x y :
  PrimFloat.ltb x y = true -> Prim2SF x <> S754_infinity true ->
  PrimFloat.ltb neg_infinity x = true.
Proof.
  rewrite !FloatAxioms.ltb_spec.
  change (Prim2SF neg_infinity) with (S754_infinity true).
  intros Hlt Hn. destruct (F64Facts.SFltb_not_nan _ _ Hlt) as [Xn _].
  destruct (Prim2SF x) as [[]|[]| |[]]; try reflexivity; congruence.
Qed.

Local Open Scope Z_scope.

(** ** The mean of a single value *)

Lemma div_core_exponent ma ea md ed :
  let '(q, e', l) := SFdiv_core_binary prec emax ma ea md ed in
  e' <= fexp64 (Zdigits2 ma + ea - (Zdigits2 md + ed)).
Proof.
  unfold SFdiv_core_binary. destruct (Z.div_eucl _ _). apply Z.le_min_l.
Qed.

Lemma valid_set_sign s x :
  valid_binary (set_sign s x) = true -> valid_binary x = true.
Proof. destruct x; auto. Qed.

(** Two positive floats of one value are one float. *)
Lemma valid_value_inj m1 e1 m2 e2 :
  valid_binary (S754_finite false m1 e1) = true ->
  valid_binary (S754_finite false m2 e2) = true ->
  V (Zpos m1) e1 = V (Zpos m2) e2 -> m1 = m2 /\ e1 = e2.
Proof.
  intros V1 V2 E. pose proof (SFcompare_value m1 e1 m2 e2 V1 V2) as C.
  destruct (SFcompare _ _) as [[]|]; [exact C|lra|lra|contradiction].
Qed.

(** Dividing by [1.0] is exact. *)
Lemma SFdiv_one s m e :
  valid_binary (S754_finite s m e) = true ->
  valid_binary (SF64div (S754_finite s m e) sf_one) = true ->
  SF64div (S754_finite s m e) sf_one = S754_finite s m e.
Proof.
  intros Va Vr.
  assert (Va' : valid_binary (S754_finite false m e) = true) by exact Va.
  destruct (valid_finite_bounds _ _ _ Va') as [Ce _].
  unfold sf_one, SF64div, SFdiv in Vr |- *.
  match type of Vr with context [SFdiv_core_binary _ _ _ _ (Zpos ?m1) ?e1] =>
    set (mo := m1) in *; set (eo := e1) in * end.
  assert (Vo : valid_binary (S754_finite false mo eo) = true) by reflexivity.
  assert (One : V (Zpos mo) eo = 1%R).
  { unfold mo, eo. change (Zpos 4503599627370496) with (2 ^ 52).
    rewrite V_pow by lia. reflexivity. }
  pose proof (div_core_spec m e mo eo Va' Vo) as C.
  pose proof (div_core_exponent (Zpos m) e (Zpos mo) eo) as X.
  destruct (SFdiv_core_binary prec emax (Zpos m) e (Zpos mo) eo)
    as [[q e'] l]. destruct C as [Hq [Hf [_ [Hle [Hlt Hst]]]]].
  rewrite One, Rmult_1_r in Hle, Hlt, Hst.
  assert (Ee : e' <= e).
  { change (Zdigits2 (Zpos mo) + eo) with 1 in X.
    pose proof (fexp64_mono (Zdigits2 (Zpos m) + e - 1)
                  (Zdigits2 (Zpos m) + e) ltac:(lia)). lia. }
  assert (Eq : V q e' = V (Zpos m) e).
  { rewrite (V_align (Zpos m) e e' Ee) in *.
    apply V_le_inv in Hle. apply V_lt_inv in Hlt. f_equal. lia. }
  rewrite binary_round_aux_set_sign in Vr |- *. rewrite xorb_false_r in *.
  apply valid_set_sign in Vr.
  destruct (round_ge q e' l false m e Hq Hf Va' ltac:(lra)) as [G|[m1 [e1 [G B1]]]].
  { destruct (round_le q e' l false m e Hq Hf Va' ltac:(lra)
                ltac:(intros Hl; specialize (Hst Hl); lra))
      as [L|[m2 [e2 [L _]]]]; rewrite L in G; discriminate. }
  destruct (round_le q e' l false m e Hq Hf Va' ltac:(lra)
              ltac:(intros Hl; specialize (Hst Hl); lra))
    as [L|[m2 [e2 [L B2]]]]; rewrite L in G; [discriminate|].
  injection G as <- <-. rewrite L in Vr |- *.
  destruct (valid_value_inj m2 e2 m e Vr Va' ltac:(lra)) as [-> ->].
  reflexivity.
Qed.

Lemma SFeqb_refl x : x <> S754_nan -> SFeqb x x = true.
Proof.
  unfold SFeqb. destruct x as [s|s| |s m e]; try congruence; intros _; cbn.
  - reflexivity.
  - now destruct s.
  - rewrite Z.compare_refl.
    change (PosDef.Pos.compare_cont Eq m m) with (Pos.compare m m).
    rewrite Pos.compare_refl. now destruct s.
Qed.

Local Open Scope float_scope.

(** The mean of one value is that value. *)
Lemma mean_single c :
  PrimFloat.is_nan c = false -> PrimFloat.eqb (Series.mean [c]) c = true.
Proof.
  intros Hn. unfold Series.mean, Series.dropna, Series.notna. cbn [filter].
  rewrite Hn. cbn [negb length]. unfold F64.sum. cbn [fold_left].
  change (F64.of_nat 1) with 1.
  apply F64Facts.not_nan_spec in Hn.
  pose proof (Prim2SF_valid c) as Vc.
  pose proof (Prim2SF_valid ((0 + c) / 1)) as Vr.
  rewrite FloatAxioms.eqb_spec. rewrite div_spec, add_spec in Vr |- *.
  change (Prim2SF 0) with (S754_zero false) in *.
  change (Prim2SF 1) with sf_one in *.
  destruct (Prim2SF c) as [s|s| |s m e]; try congruence.
  - destruct s; reflexivity.
  - destruct s; reflexivity.
  - change (SF64add (S754_zero false) (S754_finite s m e))
      with (S754_finite s m e) in *.
    rewrite SFdiv_one by assumption. apply SFeqb_refl. discriminate.
Qed.

Local Open Scope Z_scope.

(** ** Exact quotients and exact counts *)

Lemma binary_round_le m e s my ey :
  valid_binary (S754_finite s my ey) = true ->
  (V (Zpos m) e <= V (Zpos my) ey)%R ->
  binary_round prec emax false m e = S754_zero false \/
  exists m' e', binary_round prec emax false m e = S754_finite false m' e' /\
                (V (Zpos m') e' <= V (Zpos my) ey)%R.
Proof.
  intros Hy Hle.
  destruct (binary_round_aligned m e) as [mz [ez [-> [Ev Ef]]]].
  rewrite <- Ev in Hle.
  exact (round_le (Zpos mz) ez loc_Exact s my ey ltac:(lia) Ef Hy Hle
           ltac:(congruence)).
Qed.

(** Rounding a value that is a float gives that float. *)
Lemma binary_round_exact m e my ey :
  valid_binary (S754_finite false my ey) = true ->
  valid_binary (binary_round prec emax false m e) = true ->
  V (Zpos m) e = V (Zpos my) ey ->
  binary_round prec emax false m e = S754_finite false my ey.
Proof.
  intros Hy Hr E.
  destruct (binary_round_ge m e false my ey Hy ltac:(lra)) as [G|[m1 [e1 [G B1]]]];
    destruct (binary_round_le m e false my ey Hy ltac:(lra))
      as [L|[m2 [e2 [L B2]]]]; rewrite L in G; try discriminate.
  injection G as <- <-. rewrite L in Hr |- *.
  destruct (valid_value_inj m2 e2 my ey Hr Hy ltac:(lra)) as [-> ->].
  reflexivity.
Qed.

(** Every positive integer below [2^53] is a float. *)
Lemma int_float p :
  Zpos p < 2 ^ 53 ->
  exists m e, valid_binary (S754_finite false m e) = true /\
              V (Zpos m) e = IZR (Zpos p).
Proof.
  intros Hp.
  pose proof (Zdigits2_pos (Zpos p) ltac:(lia)) as Dp.
  pose proof (Zdigits2_le (Zpos p) 53 ltac:(lia) ltac:(lia) Hp) as Dl.
  set (d := Zdigits2 (Zpos p)) in *.
  assert (P : 0 < 2 ^ (53 - d)) by (apply Z.pow_pos_nonneg; lia).
  destruct (Zpos p * 2 ^ (53 - d)) as [|m|m] eqn:Em; try lia.
  exists m, (d - 53). split.
  - unfold SpecFloat.valid_binary, SpecFloat.bounded,
      SpecFloat.canonical_mantissa.
    rewrite andb_true_iff, Z.eqb_eq, Z.leb_le.
    change (Zpos (digits2_pos m)) with (Zdigits2 (Zpos m)).
    rewrite <- Em, Zdigits2_shift by lia. fold d.
    rewrite fexp64_eq. change (emax - prec) with 971. lia.
  - rewrite <- Em, V_shift by lia.
    replace (d - 53 + (53 - d)) with 0 by lia.
    unfold V, bpow. cbn [powerRZ]. ring.
Qed.

Lemma of_nat_exact n :
  (0 < n)%nat -> Z.of_nat n < 2 ^ 53 ->
  exists m e, Prim2SF (F64.of_nat n) = S754_finite false m e /\
              V (Zpos m) e = IZR (Z.of_nat n).
Proof.
  intros Hn Hb. pose proof (Prim2SF_valid (F64.of_nat n)) as Vr.
  unfold F64.of_nat, F64.of_Z in *.
  destruct (Z.of_nat n) as [|p|p] eqn:E; try lia.
  rewrite of_uint63_spec in *.
  rewrite Uint63.of_Z_spec in *.
  assert (W : Zpos p mod Uint63.wB = Zpos p).
  { apply Z.mod_small. change Uint63.wB with (2 ^ 63).
    assert (2 ^ 53 < 2 ^ 63) by (apply Z.pow_lt_mono_r; lia). lia. }
  rewrite W in *. cbn [binary_normalize] in *.
  destruct (int_float p Hb) as [m [e [Hv Ev]]].
  exists m, e. split; [|exact Ev].
  apply binary_round_exact; auto.
  rewrite Ev. unfold V, bpow. cbn [powerRZ]. ring.
Qed.

Lemma SFdiv_by_one X :
  valid_binary X = true -> valid_binary (SF64div X sf_one) = true ->
  SF64div X sf_one = X.
Proof.
  intros Vx Vr. destruct X as [s|s| |s m e].
  - cbn. now rewrite xorb_false_r.
  - cbn. now rewrite xorb_false_r.
  - reflexivity.
  - now apply SFdiv_one.
Qed.

(** A finite float divided by itself is [1.0]. *)
Lemma SFdiv_self s m e :
  valid_binary (S754_finite s m e) = true ->
  valid_binary (SF64div (S754_finite s m e) (S754_finite s m e)) = true ->
  SF64div (S754_finite s m e) (S754_finite s m e) = sf_one.
Proof.
  intros Va Vr.
  assert (Va' : valid_binary (S754_finite false m e) = true) by exact Va.
  unfold SF64div, SFdiv in Vr |- *.
  pose proof (div_core_spec m e m e Va' Va') as C.
  pose proof (div_core_exponent (Zpos m) e (Zpos m) e) as X.
  destruct (SFdiv_core_binary prec emax (Zpos m) e (Zpos m) e)
    as [[q e'] l]. destruct C as [Hq [Hf [_ [Hle [Hlt Hst]]]]].
  replace (Zdigits2 (Zpos m) + e - (Zdigits2 (Zpos m) + e)) with 0 in X by lia.
  rewrite fexp64_eq in X.
  pose proof (V_pos (Zpos m) e ltac:(lia)) as Pm.
  assert (One : V (2 ^ (- e')) e' = 1%R).
  { rewrite V_pow by lia. replace (- e' + e') with 0 by lia. reflexivity. }
  assert (Eq : V q e' = 1%R).
  { rewrite <- One.
    assert (L : (V q e' <= V (2 ^ (- e')) e')%R) by (rewrite One; nra).
    assert (U : (V (2 ^ (- e')) e' < V (q + 1) e')%R) by (rewrite One; nra).
    apply V_le_inv in L. apply V_lt_inv in U. f_equal. lia. }
  assert (Vo : valid_binary (S754_finite false 4503599627370496 (-52)) = true)
    by reflexivity.
  assert (Eo : V (Zpos 4503599627370496) (-52) = 1%R).
  { change (Zpos 4503599627370496) with (2 ^ 52). rewrite V_pow by lia.
    reflexivity. }
  rewrite binary_round_aux_set_sign in Vr |- *.
  replace (xorb s s) with false in * by (now destruct s).
  apply valid_set_sign in Vr.
  assert (St : l <> loc_Exact ->
               (V q e' < V (Zpos 4503599627370496) (-52))%R).
  { intros Hl. specialize (Hst Hl). nra. }
  destruct (round_ge q e' l false _ _ Hq Hf Vo ltac:(lra))
    as [G|[m1 [e1 [G B1]]]];
    destruct (round_le q e' l false _ _ Hq Hf Vo ltac:(lra) St)
      as [L|[m2 [e2 [L B2]]]]; rewrite L in G; try discriminate.
  injection G as <- <-. rewrite L in Vr |- *.
  destruct (valid_value_inj m2 e2 _ _ Vr Vo ltac:(lra)) as [-> ->].
  reflexivity.
Qed.

Lemma is_infinity_spec x :
  PrimFloat.is_infinity x = true <-> exists s, Prim2SF x = S754_infinity s.
Proof.
  unfold PrimFloat.is_infinity. rewrite FloatAxioms.eqb_spec, abs_spec.
  change (Prim2SF infinity) with (S754_infinity false).
  destruct (Prim2SF x) as [s|s| |s m e]; cbn; split;
    try discriminate; try (intros [? H]; discriminate); eauto.
Qed.

Lemma not_infinity_spec x :
  PrimFloat.is_infinity x = false <-> forall s, Prim2SF x <> S754_infinity s.
Proof.
  destruct (PrimFloat.is_infinity x) eqn:E.
  - apply is_infinity_spec in E. destruct E as [s E]. split; [discriminate|].
    intros H. now destruct (H s).
  - split; [|reflexivity]. intros _ s Hs.
    assert (PrimFloat.is_infinity x = true) by (apply is_infinity_spec; eauto).
    congruence.
Qed.

(** The finite floats other than the zeros. *)
Lemma finite_nonzero_spec x :
  PrimFloat.is_finite x = true -> PrimFloat.is_zero x = false ->
  exists s m e, Prim2SF x = S754_finite s m e.
Proof.
  unfold PrimFloat.is_finite, PrimFloat.is_zero.
  rewrite negb_true_iff, orb_false_iff. intros [Hn Hi] Hz.
  apply F64Facts.not_nan_spec in Hn.
  rewrite not_infinity_spec in Hi.
  rewrite FloatAxioms.eqb_spec in Hz.
  change (Prim2SF PrimFloat.zero) with (S754_zero false) in Hz.
  destruct (Prim2SF x) as [s|s| |s m e]; try congruence; eauto.
  destruct s; discriminate.
Qed.

Local Open Scope float_scope.

Lemma div_one x : x / 1 = x.
Proof.
  apply Prim2SF_inj. pose proof (Prim2SF_valid (x / 1)) as Vr.
  rewrite div_spec in *. change (Prim2SF 1) with sf_one in *.
  apply SFdiv_by_one; [apply Prim2SF_valid|exact Vr].
Qed.

Lemma div_self x :
  PrimFloat.is_finite x = true -> PrimFloat.is_zero x = false -> x / x = 1.
Proof.
  intros Hf Hz. destruct (finite_nonzero_spec x Hf Hz) as [s [m [e E]]].
  apply Prim2SF_inj. pose proof (Prim2SF_valid (x / x)) as Vr.
  pose proof (Prim2SF_valid x) as Vx.
  rewrite div_spec in *. change (Prim2SF 1) with sf_one. rewrite E in *.
  now apply SFdiv_self.
Qed.

(** A count divided by a count that is not smaller lies between 0 and 1. *)
Lemma count_ratio_unit w t :
  (w <= t)%nat -> (0 < t)%nat -> (Z.of_nat t < 2 ^ 53)%Z ->
  PrimFloat.leb 0 (F64.of_nat w / F64.of_nat t) = true /\
  PrimFloat.leb (F64.of_nat w / F64.of_nat t) 1 = true.
Proof.
  intros Hw Ht Hb.
  destruct (of_nat_exact t Ht Hb) as [mt [et [Et Vt]]].
  pose proof (Prim2SF_valid (F64.of_nat t)) as VT. rewrite Et in VT.
  destruct (Nat.eq_dec w 0) as [->|Hw0].
  { rewrite !FloatAxioms.leb_spec, div_spec, Et.
    change (Prim2SF (F64.of_nat 0)) with (S754_zero false).
    split; reflexivity. }
  destruct (Nat.eq_dec w t) as [->|Hne].
  { rewrite div_self; [split; reflexivity| |].
    - unfold PrimFloat.is_finite. apply negb_true_iff, orb_false_iff. split.
      + apply F64Facts.not_nan_spec. rewrite Et. discriminate.
      + apply not_infinity_spec. rewrite Et. discriminate.
    - unfold PrimFloat.is_zero. rewrite FloatAxioms.eqb_spec, Et. reflexivity. }
  destruct (of_nat_exact w ltac:(lia) ltac:(lia)) as [mw [ew [Ew Vw]]].
  pose proof (Prim2SF_valid (F64.of_nat w)) as VW. rewrite Ew in VW.
  pose proof (Prim2SF_valid (F64.of_nat w / F64.of_nat t)) as VQ.
  rewrite !FloatAxioms.leb_spec, div_spec, Ew, Et in *.
  change (Prim2SF 0) with (S754_zero false).
  change (Prim2SF 1) with sf_one.
  assert (Hlt : (V (Zpos mw) ew < V (Zpos mt) et)%R).
  { rewrite Vw, Vt. apply IZR_lt. lia. }
  pose proof (quotient_below_one (S754_finite false mw ew)
                (S754_finite false mt et) VW VT
                ltac:(right; eauto) ltac:(discriminate) ltac:(discriminate)) as B.
  assert (Sg : SF64div (S754_finite false mw ew) (S754_finite false mt et)
               = S754_zero false \/
               SF64div (S754_finite false mw ew) (S754_finite false mt et)
               = S754_infinity false \/
               exists m e, SF64div (S754_finite false mw ew)
                             (S754_finite false mt et) = S754_finite false m e).
  { unfold SF64div, SFdiv.
    pose proof (div_core_nonneg mw ew mt et) as Hq.
    destruct (SFdiv_core_binary prec emax (Zpos mw) ew (Zpos mt) et)
      as [[q e'] l]. cbn [fst xorb] in *.
    exact (binary_round_aux_sign false q e' l Hq). }
  specialize (B ltac:(intros ? ? ? ? Ea Ed; injection Ea as <- <-;
                      injection Ed as <- <-; exact Hlt)).
  destruct Sg as [E|[E|[m [e E]]]]; rewrite E in *.
  - split; reflexivity.
  - exfalso. destruct B as [[s B]|[B|[[? [? B]]|[? [? [B _]]]]]]; discriminate.
  - split; [reflexivity|].
    destruct B as [[s B]|[B|[[? [? B]]|[m' [e' [B Bd]]]]]]; try discriminate.
    injection B as <- <-.
    assert (Lt1 : (V (2 ^ 53 - 1) (-53) < 1)%R).
    { rewrite V_minus, V_pow by lia. change (53 + -53)%Z with 0%Z.
      pose proof (V_pos 1 (-53) ltac:(lia)).
      replace (bpow 0) with 1%R by reflexivity. lra. }
    assert (Eo : V (Zpos 4503599627370496) (-52) = 1%R).
    { change (Zpos 4503599627370496) with (2 ^ 52)%Z. rewrite V_pow by lia.
      reflexivity. }
    unfold sf_one, SFleb.
    pose proof (SFcompare_value m e 4503599627370496 (-52) VQ eq_refl) as C.
    destruct (SFcompare _ _) as [[]|]; try reflexivity;
      [exfalso; lra|contradiction].
Qed.

Local Open Scope Z_scope.

(** ** Integers as floats: exact sums, differences and quotients *)

Lemma sf_int_signed x z :
  sf_int x z ->
  exists s m e, x = S754_finite s m e /\ V (cond_Zopp s (Zpos m)) e = IZR z.
Proof.
  intros [m [e [-> [_ E]]]]. exists (z <? 0), m, e. split; [reflexivity|].
  rewrite V_cond_Zopp, E. destruct (Z.ltb_spec z 0).
  - rewrite Z.abs_neq by lia. rewrite opp_IZR. ring.
  - rewrite Z.abs_eq by lia. reflexivity.
Qed.

Lemma sf_int_nonzero x z : sf_int x z -> z <> 0.
Proof.
  intros [m [e [_ [_ E]]]] ->. pose proof (V_pos (Zpos m) e ltac:(lia)) as P.
  rewrite E in P. cbn in P. lra.
Qed.

Lemma sf_int_inj x y z : sf_int x z -> sf_int y z -> x = y.
Proof.
  intros [m1 [e1 [-> [V1 E1]]]] [m2 [e2 [-> [V2 E2]]]].
  destruct (valid_value_inj m1 e1 m2 e2 V1 V2 ltac:(congruence)) as [-> ->].
  reflexivity.
Qed.

(** Rounding an integer below [2^53] is exact. *)
Lemma sf_int_normalize M ez c :
  V M ez = IZR c -> c <> 0 -> Z.abs c < 2 ^ 53 ->
  valid_binary (binary_normalize prec emax M ez false) = true ->
  sf_int (binary_normalize prec emax M ez false) c.
Proof.
  intros E N B Vr.
  destruct c as [|q|q]; [congruence| |].
  - assert (0 < M).
    { apply (V_pos_inv M ez). rewrite E. apply IZR_lt. lia. }
    destruct M as [|p|p]; try lia. cbn [binary_normalize] in *.
    destruct (int_float q B) as [m [e [Hv Ev]]].
    exists m, e. split; [|split; [exact Hv|exact Ev]].
    change (Z.pos q <? 0) with false.
    apply binary_round_exact; auto. congruence.
  - assert (0 < - M).
    { apply (V_pos_inv (- M) ez). rewrite V_opp, E, <- opp_IZR.
      apply IZR_lt. lia. }
    destruct M as [|p|p]; try lia. cbn [binary_normalize] in *.
    destruct (int_float q B) as [m [e [Hv Ev]]].
    exists m, e. split; [|split; [exact Hv|exact Ev]].
    change (Z.neg q <? 0) with true.
    rewrite binary_round_set_sign in *.
    rewrite (binary_round_exact p ez m e Hv (valid_set_sign _ _ Vr));
      [reflexivity|].
    rewrite Ev. change (Z.pos p) with (- Z.neg p).
    rewrite V_opp, E, <- opp_IZR. reflexivity.
Qed.

Lemma SFadd_int x y a b :
  sf_int x a -> sf_int y b -> a + b <> 0 -> Z.abs (a + b) < 2 ^ 53 ->
  valid_binary (SF64add x y) = true -> sf_int (SF64add x y) (a + b).
Proof.
  intros Hx Hy N B Vr.
  destruct (sf_int_signed _ _ Hx) as [sx [mx [ex [-> Ex]]]].
  destruct (sf_int_signed _ _ Hy) as [sy [my [ey [-> Ey]]]].
  unfold SF64add, SFadd in *.
  apply sf_int_normalize; auto.
  rewrite V_plus, !V_cond_Zopp, !aligned_mantissa by lia.
  rewrite <- !V_cond_Zopp, Ex, Ey, plus_IZR. reflexivity.
Qed.

Lemma SFsub_int x y a b :
  sf_int x a -> sf_int y b -> a - b <> 0 -> Z.abs (a - b) < 2 ^ 53 ->
  valid_binary (SF64sub x y) = true -> sf_int (SF64sub x y) (a - b).
Proof.
  intros Hx Hy N B Vr.
  destruct (sf_int_signed _ _ Hx) as [sx [mx [ex [-> Ex]]]].
  destruct (sf_int_signed _ _ Hy) as [sy [my [ey [-> Ey]]]].
  unfold SF64sub, SFsub in *.
  apply sf_int_normalize; auto.
  rewrite V_minus, !V_cond_Zopp, !aligned_mantissa by lia.
  rewrite <- !V_cond_Zopp, Ex, Ey, minus_IZR. reflexivity.
Qed.

Lemma SFsub_diag s m e :
  SF64sub (S754_finite s m e) (S754_finite s m e) = S754_zero false.
Proof.
  unfold SF64sub, SFsub. rewrite Z.sub_diag. reflexivity.
Qed.

(** The quotient of two positive floats is not negative. *)
Lemma SFdiv_positive m1 e1 m2 e2 :
  SFltb (SF64div (S754_finite false m1 e1) (S754_finite false m2 e2))
        (S754_zero false) = false.
Proof.
  unfold SF64div, SFdiv.
  pose proof (div_core_nonneg m1 e1 m2 e2) as Q.
  destruct (SFdiv_core_binary prec emax (Zpos m1) e1 (Zpos m2) e2)
    as [[q e'] l]. cbn [fst xorb] in *.
  destruct (binary_round_aux_sign false q e' l Q) as [->|[->|[m [e ->]]]];
    reflexivity.
Qed.

(** An exact quotient is not rounded. *)
Lemma SFdiv_exact ma ea md ed mz ez :
  valid_binary (S754_finite false ma ea) = true ->
  valid_binary (S754_finite false md ed) = true ->
  valid_binary (S754_finite false mz ez) = true ->
  (V (Zpos ma) ea = V (Zpos mz) ez * V (Zpos md) ed)%R ->
  valid_binary (SF64div (S754_finite false ma ea) (S754_finite false md ed))
    = true ->
  SF64div (S754_finite false ma ea) (S754_finite false md ed)
    = S754_finite false mz ez.
Proof.
  intros Va Vd Vz E Vr.
  destruct (valid_finite_bounds _ _ _ Vz) as [Cz _].
  unfold SF64div, SFdiv in Vr |- *.
  pose proof (div_core_spec ma ea md ed Va Vd) as C.
  pose proof (div_core_exponent (Zpos ma) ea (Zpos md) ed) as X.
  destruct (SFdiv_core_binary prec emax (Zpos ma) ea (Zpos md) ed)
    as [[q e'] l]. destruct C as [Hq [Hf [_ [Hle [Hlt Hst]]]]].
  pose proof (V_pos (Zpos md) ed ltac:(lia)) as Pd.
  pose proof (V_pos (Zpos mz) ez ltac:(lia)) as Pz.
  rewrite E in Hle, Hlt, Hst.
  assert (Hle' : (V q e' <= V (Zpos mz) ez)%R) by nra.
  assert (Hlt' : (V (Zpos mz) ez < V (q + 1) e')%R) by nra.
  assert (Ee : e' <= ez).
  { pose proof (V_digits (Zpos ma) ea ltac:(lia)) as Da.
    pose proof (V_digits (Zpos md) ed ltac:(lia)) as Dd.
    pose proof (V_digits (Zpos mz) ez ltac:(lia)) as Dz.
    assert (B : (bpow (Zdigits2 (Zpos ma) - 1 + ea)
                 < bpow (Zdigits2 (Zpos mz) + ez + (Zdigits2 (Zpos md) + ed)))%R).
    { rewrite (bpow_add (Zdigits2 (Zpos mz) + ez)).
      apply Rle_lt_trans with (V (Zpos ma) ea); [tauto|]. rewrite E.
      apply Rmult_le_0_lt_compat; lra. }
    apply bpow_lt_inv in B. rewrite Cz.
    apply Z.le_trans with (1 := X). apply fexp64_mono. lia. }
  assert (Eq : V q e' = V (Zpos mz) ez).
  { rewrite (V_align (Zpos mz) ez e' Ee) in *.
    apply V_le_inv in Hle'. apply V_lt_inv in Hlt'. f_equal. lia. }
  cbn [xorb] in *.
  destruct (round_ge q e' l false mz ez Hq Hf Vz ltac:(lra))
    as [G|[m1 [e1 [G B1]]]].
  { destruct (round_le q e' l false mz ez Hq Hf Vz ltac:(lra)
                ltac:(intros Hl; specialize (Hst Hl); nra))
      as [L|[m2 [e2 [L _]]]]; rewrite L in G; discriminate. }
  destruct (round_le q e' l false mz ez Hq Hf Vz ltac:(lra)
              ltac:(intros Hl; specialize (Hst Hl); nra))
    as [L|[m2 [e2 [L B2]]]]; rewrite L in G; [discriminate|].
  injection G as <- <-. rewrite L in Vr |- *.
  destruct (valid_value_inj m2 e2 mz ez Vr Vz ltac:(lra)) as [-> ->].
  reflexivity.
Qed.

Local Open Scope float_scope.

Lemma of_Z_int z :
  (z <> 0)%Z -> (Z.abs z < 2 ^ 53)%Z -> sf_int (Prim2SF (F64.of_Z z)) z.
Proof.
  intros N B.
  assert (P : forall p, (Zpos p < 2 ^ 53)%Z ->
     exists m e,
       Prim2SF (of_uint63 (Uint63.of_Z (Zpos p))) = S754_finite false m e /\
       valid_binary (S754_finite false m e) = true /\
       V (Zpos m) e = IZR (Zpos p)).
  { intros p Hp.
    pose proof (Prim2SF_valid (of_uint63 (Uint63.of_Z (Zpos p)))) as Vr.
    rewrite of_uint63_spec, Uint63.of_Z_spec in *.
    assert (W : (Zpos p mod Uint63.wB = Zpos p)%Z).
    { apply Z.mod_small. change Uint63.wB with (2 ^ 63)%Z.
      assert (2 ^ 53 < 2 ^ 63)%Z by (apply Z.pow_lt_mono_r; lia). lia. }
    rewrite W in *. cbn [binary_normalize] in *.
    destruct (int_float p Hp) as [m [e [Hv Ev]]].
    exists m, e. split; [|split; assumption].
    apply binary_round_exact; auto.
    rewrite Ev. unfold V, bpow. cbn [powerRZ]. ring. }
  destruct z as [|p|p]; [congruence| |].
  - destruct (P p B) as [m [e [E [Hv Ev]]]]. exists m, e.
    unfold F64.of_Z. rewrite E. auto.
  - destruct (P p B) as [m [e [E [Hv Ev]]]]. exists m, e.
    unfold F64.of_Z. rewrite opp_spec, E. auto.
Qed.

Lemma add_int x y a b :
  sf_int (Prim2SF x) a -> sf_int (Prim2SF y) b ->
  (a + b <> 0)%Z -> (Z.abs (a + b) < 2 ^ 53)%Z ->
  sf_int (Prim2SF (x + y)) (a + b).
Proof.
  intros. pose proof (Prim2SF_valid (x + y)) as Vr.
  rewrite add_spec in *. now apply SFadd_int.
Qed.

Lemma sub_int x y a b :
  sf_int (Prim2SF x) a -> sf_int (Prim2SF y) b ->
  (a - b <> 0)%Z -> (Z.abs (a - b) < 2 ^ 53)%Z ->
  sf_int (Prim2SF (x - y)) (a - b).
Proof.
  intros. pose proof (Prim2SF_valid (x - y)) as Vr.
  rewrite sub_spec in *. now apply SFsub_int.
Qed.

Lemma opp_int x a : sf_int (Prim2SF x) a -> sf_int (Prim2SF (- x)) (- a).
Proof.
  intros H. pose proof (sf_int_nonzero _ _ H) as N.
  destruct H as [m [e [E [Hv Ev]]]]. rewrite opp_spec, E. cbn [SFopp].
  exists m, e. split; [|split; [exact Hv|now rewrite Z.abs_opp]].
  f_equal. destruct (Z.ltb_spec a 0), (Z.ltb_spec (- a) 0); auto; lia.
Qed.

Lemma int_eq x y z : sf_int (Prim2SF x) z -> sf_int (Prim2SF y) z -> x = y.
Proof. intros Hx Hy. apply Prim2SF_inj. exact (sf_int_inj _ _ _ Hx Hy). Qed.

Lemma sub_diag_int x z : sf_int (Prim2SF x) z -> x - x = 0.
Proof.
  intros [m [e [E _]]]. apply Prim2SF_inj. rewrite sub_spec, E.
  apply SFsub_diag.
Qed.

Lemma sub_zero_int x z : sf_int (Prim2SF x) z -> x - 0 = x.
Proof.
  intros [m [e [E _]]]. apply Prim2SF_inj. rewrite sub_spec, E. reflexivity.
Qed.

Lemma zero_add_int x z : sf_int (Prim2SF x) z -> 0 + x = x.
Proof.
  intros [m [e [E _]]]. apply Prim2SF_inj. rewrite add_spec, E. reflexivity.
Qed.

Lemma int_not_nan x z : sf_int (Prim2SF x) z -> PrimFloat.is_nan x = false.
Proof.
  intros [m [e [E _]]]. apply F64Facts.not_nan_spec. rewrite E. discriminate.
Qed.

Lemma int_not_infinity x z :
  sf_int (Prim2SF x) z -> PrimFloat.is_infinity x = false.
Proof.
  intros [m [e [E _]]]. apply not_infinity_spec. rewrite E. discriminate.
Qed.

Lemma int_get_sign x z :
  sf_int (Prim2SF x) z -> PrimFloat.get_sign x = (z <? 0)%Z.
Proof.
  intros [m [e [E _]]]. unfold PrimFloat.get_sign, PrimFloat.is_zero.
  rewrite FloatAxioms.eqb_spec, E.
  change (Prim2SF PrimFloat.zero) with (S754_zero false).
  replace (SFeqb (S754_finite (z <? 0)%Z m e) (S754_zero false)) with false
    by (now destruct (z <? 0)%Z).
  cbv beta iota zeta.
  rewrite FloatAxioms.ltb_spec, E. change (Prim2SF PrimFloat.zero) with (S754_zero false).
  now destruct (z <? 0)%Z.
Qed.

Lemma int_eqb x y a b :
  sf_int (Prim2SF x) a -> sf_int (Prim2SF y) b -> (0 < a)%Z -> (0 < b)%Z ->
  PrimFloat.eqb x y = (a =? b)%Z.
Proof.
  intros Hx Hy Pa Pb. rewrite FloatAxioms.eqb_spec.
  destruct (Z.eqb_spec a b) as [->|Ne].
  - rewrite (sf_int_inj _ _ _ Hx Hy). apply SFeqb_refl.
    destruct Hy as [m [e [-> _]]]. discriminate.
  - destruct Hx as [m1 [e1 [-> [V1 E1]]]], Hy as [m2 [e2 [-> [V2 E2]]]].
    replace (a <? 0)%Z with false by (symmetry; apply Z.ltb_ge; lia).
    replace (b <? 0)%Z with false by (symmetry; apply Z.ltb_ge; lia).
    unfold SFeqb. pose proof (SFcompare_value m1 e1 m2 e2 V1 V2) as C.
    destruct (SFcompare _ _) as [[]|]; try reflexivity.
    destruct C as [-> ->]. rewrite E1 in E2. apply eq_IZR in E2. lia.
Qed.

Lemma div_int_nonneg x y a b :
  sf_int (Prim2SF x) a -> sf_int (Prim2SF y) b -> (0 < a)%Z -> (0 < b)%Z ->
  PrimFloat.ltb (x / y) 0 = false.
Proof.
  intros [m1 [e1 [E1 _]]] [m2 [e2 [E2 _]]] Pa Pb.
  rewrite FloatAxioms.ltb_spec, div_spec, E1, E2.
  replace (a <? 0)%Z with false by (symmetry; apply Z.ltb_ge; lia).
  replace (b <? 0)%Z with false by (symmetry; apply Z.ltb_ge; lia).
  apply SFdiv_positive.
Qed.

(** [k * z / k] is [z]. *)
Lemma div_int_exact x y q k z :
  sf_int (Prim2SF x) (k * z) -> sf_int (Prim2SF y) k -> sf_int (Prim2SF q) z ->
  (0 < k)%Z -> (0 < z)%Z -> x / y = q.
Proof.
  intros [m1 [e1 [E1 [V1 X1]]]] [m2 [e2 [E2 [V2 X2]]]] [m3 [e3 [E3 [V3 X3]]]]
    Pk Pz.
  apply Prim2SF_inj. pose proof (Prim2SF_valid (x / y)) as Vr.
  rewrite div_spec, E1, E2, E3 in *.
  replace (k * z <? 0)%Z with false in * by (symmetry; apply Z.ltb_ge; nia).
  replace (k <? 0)%Z with false in * by (symmetry; apply Z.ltb_ge; lia).
  replace (z <? 0)%Z with false in * by (symmetry; apply Z.ltb_ge; lia).
  apply SFdiv_exact; auto.
  rewrite X1, X2, X3, <- mult_IZR. f_equal.
  rewrite !Z.abs_eq by nia. ring.
Qed.

End RoundingFacts.

Import F64Facts.


(** ** The rolling mean of [SmaCross] *)

Local Abbreviation seg a b l := (firstn (b - a) (skipn a l)).

Lemma seg_snoc {A} (d : A) l a b :
  (a <= b)%nat -> (b < length l)%nat ->
  seg a (S b) l = seg a b l ++ [nth b l d].
Proof.
  intros Hab Hb. revert a b Hab Hb.
  induction l as [|x l IH]; intros a b Hab Hb; cbn [length] in Hb; [lia|].
  destruct a as [|a].
  - cbn [skipn]. rewrite !Nat.sub_0_r. clear Hab IH. revert x l Hb.
    induction b as [|b IHb]; intros x l Hb.
    + reflexivity.
    + destruct l as [|y l]; cbn [length] in Hb; [lia|].
      change (firstn (S (S b)) (x :: y :: l)) with (x :: firstn (S b) (y :: l)).
      rewrite (IHb y l) by lia. reflexivity.
  - destruct b as [|b]; [lia|]. cbn [skipn nth].
    replace (S (S b) - S a)%nat with (S b - a)%nat by lia.
    replace (S b - S a)%nat with (b - a)%nat by lia.
    apply IH; lia.
Qed.

Lemma seg_cons {A} (d : A) l a b :
  (a < b)%nat -> (a < length l)%nat ->
  seg a b l = nth a l d :: seg (S a) b l.
Proof.
  intros Hab Ha. revert a b Hab Ha.
  induction l as [|x l IH]; intros a b Hab Ha; cbn [length] in Ha; [lia|].
  destruct a as [|a].
  - cbn [skipn nth]. destruct b as [|b]; [lia|].
    rewrite Nat.sub_0_r. replace (S b - 1)%nat with b by lia. reflexivity.
  - destruct b as [|b]; [lia|]. cbn [skipn nth].
    replace (S b - S a)%nat with (b - a)%nat by lia.
    replace (S b - S (S a))%nat with (b - S a)%nat by lia.
    apply IH; lia.
Qed.

Lemma seg_empty {A} (l : list A) a : seg a a l = [].
Proof. now rewrite Nat.sub_diag. Qed.

Lemma seg_length {A} (l : list A) a b :
  (a <= b)%nat -> (b <= length l)%nat -> length (seg a b l) = (b - a)%nat.
Proof. intros. rewrite length_firstn, length_skipn. lia. Qed.

Lemma seg_nth {A} (d : A) l a b j :
  (j < b - a)%nat -> nth j (seg a b l) d = nth (a + j) l d.
Proof.
  intros Hj. rewrite nth_firstn.
  replace (j <? b - a)%nat with true by (symmetry; apply Nat.ltb_lt; lia).
  apply nth_skipn.
Qed.

Lemma seg_map {A B} (f : A -> B) l a b : seg a b (map f l) = map f (seg a b l).
Proof. now rewrite skipn_map, firstn_map. Qed.

Lemma total_app a b : total (a ++ b) = (total a + total b)%Z.
Proof.
  unfold total. induction a as [|x a IH]; cbn [app fold_right]; [lia|].
  rewrite IH. lia.
Qed.

Lemma total_nonneg l : Forall (fun z => (0 < z)%Z) l -> (0 <= total l)%Z.
Proof.
  unfold total. induction 1 as [|x l Hx _ IH]; cbn [fold_right]; lia.
Qed.

Lemma total_length l :
  Forall (fun z => (0 < z)%Z) l -> (Z.of_nat (length l) <= total l)%Z.
Proof.
  unfold total. induction 1 as [|x l Hx _ IH]; cbn [fold_right length]; lia.
Qed.

Lemma total_seg_le l a b :
  Forall (fun z => (0 < z)%Z) l ->
  Forall (fun z => (0 < z)%Z) (seg a b l) /\ (total (seg a b l) <= total l)%Z.
Proof.
  intros H. rewrite <- (firstn_skipn a l) in H. apply Forall_app in H.
  destruct H as [H1 H2].
  rewrite <- (firstn_skipn (b - a) (skipn a l)) in H2. apply Forall_app in H2.
  destruct H2 as [H2 H3]. split; [exact H2|].
  rewrite <- (firstn_skipn a l) at 2. rewrite total_app.
  rewrite <- (firstn_skipn (b - a) (skipn a l)) at 2. rewrite total_app.
  pose proof (total_nonneg _ H1). pose proof (total_nonneg _ H3). lia.
Qed.

Lemma total_constant z l :
  (forall x, In x l -> x = z) -> total l = (Z.of_nat (length l) * z)%Z.
Proof.
  unfold total. induction l as [|x l IH]; intros H; [reflexivity|].
  cbn [fold_right length]. rewrite IH by (intros y Hy; apply H; now right).
  rewrite (H x) by now left. lia.
Qed.

Lemma history_seg {A} w t (xs : list A) :
  history w t xs = seg (S t - Z.to_nat w) (S t) xs.
Proof. reflexivity. Qed.

Lemma window_start_history w t :
  (0 <= w)%Z -> Rolling.window_start w t = (S t - Z.to_nat w)%nat.
Proof. unfold Rolling.window_start. lia. Qed.

Lemma roll_rows_nth w minp vs d : forall n a st t,
  (t < n)%nat ->
  nth t (Rolling.roll_rows w minp vs (seq a n) st) d
  = Rolling.calc_mean minp
      (fold_left (fun st i => Rolling.roll_step w vs i st) (seq a (S t)) st).
Proof.
  induction n as [|n IH]; intros a st t Ht; [lia|].
  cbn [seq Rolling.roll_rows]. destruct t as [|t]; [reflexivity|].
  cbn [nth]. rewrite IH by lia. reflexivity.
Qed.

(** The state of the running sum over a window [win] of positive integer
    prices: the sum is exact and both compensations are zero. *)
Local Abbreviation int_state win z st :=
  (Rolling.nobs st = Z.of_nat (length win) /\
   Rounding.sf_int (Prim2SF (Rolling.sum_x st)) (total win) /\
   Rolling.neg_ct st = 0%Z /\
   Rolling.compensation_add st = 0 /\
   Rolling.compensation_remove st = 0 /\
   Rolling.prev_value st = F64.of_Z z).

Lemma add_mean_first z :
  (0 < z < 2 ^ 53)%Z ->
  let st := Rolling.add_mean (F64.of_Z z) (Rolling.setup (F64.of_Z z)) in
  int_state [z] z st /\ Rolling.num_consecutive_same_value st = 1%Z.
Proof.
  intros Hz.
  pose proof (RoundingFacts.of_Z_int z ltac:(lia) ltac:(lia)) as I.
  unfold Rolling.add_mean, Rolling.setup. rewrite (RoundingFacts.int_not_nan _ _ I).
  cbn [Rolling.nobs Rolling.sum_x Rolling.neg_ct Rolling.compensation_add
       Rolling.compensation_remove Rolling.num_consecutive_same_value
       Rolling.prev_value].
  rewrite (RoundingFacts.sub_zero_int _ _ I), (RoundingFacts.zero_add_int _ _ I), (RoundingFacts.sub_zero_int _ _ I),
    (RoundingFacts.sub_diag_int _ _ I), (RoundingFacts.int_get_sign _ _ I), (RoundingFacts.int_eqb _ _ _ _ I I) by lia.
  rewrite Z.eqb_refl.
  replace (z <? 0)%Z with false by (symmetry; apply Z.ltb_ge; lia).
  repeat split. unfold total. cbn [fold_right]. now rewrite Z.add_0_r.
Qed.

Lemma add_mean_int win z' z st :
  win <> [] -> Forall (fun x => (0 < x)%Z) win ->
  (0 < z)%Z -> (0 < z' < 2 ^ 53)%Z -> (total win + z < 2 ^ 53)%Z ->
  int_state win z' st ->
  let st' := Rolling.add_mean (F64.of_Z z) st in
  int_state (win ++ [z]) z st' /\
  Rolling.num_consecutive_same_value st'
  = (if (z =? z')%Z then Rolling.num_consecutive_same_value st + 1 else 1)%Z.
Proof.
  intros Hne Hpos Hz Hz' Hb [Hn [Hs [Hg [Ha [Hr Hp]]]]].
  assert (Pw : (0 < total win)%Z).
  { pose proof (total_length _ Hpos). destruct win; [congruence|].
    cbn [length] in *. lia. }
  pose proof (RoundingFacts.of_Z_int z ltac:(lia) ltac:(lia)) as I.
  pose proof (RoundingFacts.of_Z_int z' ltac:(lia) ltac:(lia)) as I'.
  unfold Rolling.add_mean. rewrite (RoundingFacts.int_not_nan _ _ I).
  cbn [Rolling.nobs Rolling.sum_x Rolling.neg_ct Rolling.compensation_add
       Rolling.compensation_remove Rolling.num_consecutive_same_value
       Rolling.prev_value].
  rewrite Ha, Hr, Hp, Hg, (RoundingFacts.sub_zero_int _ _ I), (RoundingFacts.int_get_sign _ _ I),
    (RoundingFacts.int_eqb _ _ _ _ I I') by lia.
  replace (z <? 0)%Z with false by (symmetry; apply Z.ltb_ge; lia).
  assert (T : Rounding.sf_int (Prim2SF (Rolling.sum_x st + F64.of_Z z)) (total win + z)).
  { apply RoundingFacts.add_int; auto; lia. }
  assert (D : Rolling.sum_x st + F64.of_Z z - Rolling.sum_x st = F64.of_Z z).
  { apply (RoundingFacts.int_eq _ _ z); [|exact I].
    replace z with (total win + z - total win)%Z at 2 by lia.
    apply RoundingFacts.sub_int; auto; lia. }
  rewrite D, (RoundingFacts.sub_diag_int _ _ I).
  repeat split; auto.
  - rewrite length_app, Hn. cbn [length]. lia.
  - rewrite total_app. unfold total at 2. cbn [fold_right].
    now rewrite Z.add_0_r.
Qed.

Lemma remove_mean_int z0 mid z' st :
  mid <> [] -> Forall (fun x => (0 < x)%Z) (z0 :: mid) ->
  (total (z0 :: mid) < 2 ^ 53)%Z ->
  int_state (z0 :: mid) z' st ->
  let st' := Rolling.remove_mean (F64.of_Z z0) st in
  int_state mid z' st' /\
  Rolling.num_consecutive_same_value st'
  = Rolling.num_consecutive_same_value st.
Proof.
  intros Hne Hpos Hb [Hn [Hs [Hg [Ha [Hr Hp]]]]].
  apply Forall_cons_iff in Hpos. destruct Hpos as [Hz Hpos].
  assert (Pm : (0 < total mid)%Z).
  { pose proof (total_length _ Hpos). destruct mid; [congruence|].
    cbn [length] in *. lia. }
  assert (Et : total (z0 :: mid) = (z0 + total mid)%Z) by reflexivity.
  rewrite Et in *.
  pose proof (RoundingFacts.of_Z_int z0 ltac:(lia) ltac:(lia)) as I.
  pose proof (RoundingFacts.opp_int _ _ I) as O.
  unfold Rolling.remove_mean. rewrite (RoundingFacts.int_not_nan _ _ I).
  cbn [Rolling.nobs Rolling.sum_x Rolling.neg_ct Rolling.compensation_add
       Rolling.compensation_remove Rolling.num_consecutive_same_value
       Rolling.prev_value].
  rewrite Ha, Hr, Hp, Hg, (RoundingFacts.sub_zero_int _ _ O), (RoundingFacts.int_get_sign _ _ I).
  replace (z0 <? 0)%Z with false by (symmetry; apply Z.ltb_ge; lia).
  assert (T : Rounding.sf_int (Prim2SF (Rolling.sum_x st + - F64.of_Z z0)) (total mid)).
  { replace (total mid) with (z0 + total mid + - z0)%Z by lia.
    apply RoundingFacts.add_int; auto; lia. }
  assert (D : Rolling.sum_x st + - F64.of_Z z0 - Rolling.sum_x st
              = - F64.of_Z z0).
  { apply (RoundingFacts.int_eq _ _ (- z0)); [|exact O].
    replace (- z0)%Z with (total mid - (z0 + total mid))%Z by lia.
    apply RoundingFacts.sub_int; auto; lia. }
  rewrite D, (RoundingFacts.sub_diag_int _ _ O).
  repeat split; auto.
  rewrite Hn. cbn [length]. lia.
Qed.

Lemma calc_mean_int win z st k :
  win <> [] -> Forall (fun x => (0 < x)%Z) win -> (total win < 2 ^ 53)%Z ->
  (0 < z)%Z ->
  int_state win z st ->
  Rolling.num_consecutive_same_value st = Z.of_nat k ->
  ((length win <= k)%nat -> forall x, In x win -> x = z) ->
  Rolling.calc_mean 1 st
  = F64.of_Z (total win) / F64.of_nat (length win).
Proof.
  intros Hne Hpos Hb Hz [Hn [Hs [Hg [Ha [Hr Hp]]]]] Hc Hk.
  pose proof (total_length _ Hpos) as TL.
  assert (Pl : (0 < length win)%nat) by (destruct win; [congruence|cbn; lia]).
  pose proof (RoundingFacts.of_Z_int (total win) ltac:(lia) ltac:(lia)) as It.
  pose proof (RoundingFacts.of_Z_int (Z.of_nat (length win)) ltac:(lia) ltac:(lia)) as Il.
  unfold Rolling.calc_mean. rewrite Hn, Hc, Hg, Hp.
  replace ((1 <=? Z.of_nat (length win))%Z && (0 <? Z.of_nat (length win))%Z)
    with true
    by (symmetry; apply andb_true_iff; rewrite Z.leb_le, Z.ltb_lt; lia).
  rewrite (RoundingFacts.int_eq _ _ _ Hs It). fold (F64.of_nat (length win)).
  destruct (Z.leb_spec (Z.of_nat (length win)) (Z.of_nat k)) as [L|L].
  - symmetry. apply (RoundingFacts.div_int_exact _ _ _ (Z.of_nat (length win)) z);
      auto; try lia.
    + rewrite <- (total_constant z win) by (apply Hk; lia). exact It.
    + apply RoundingFacts.of_Z_int; [lia|].
      assert (In (hd 0%Z win) win) by (destruct win; [congruence|now left]).
      assert (E := total_constant z win (Hk ltac:(lia))). nia.
  - unfold F64.of_nat.
    rewrite (RoundingFacts.div_int_nonneg _ _ _ _ It Il) by lia.
    rewrite andb_false_r.
    replace (0 =? Z.of_nat (length win))%Z with false
      by (symmetry; apply Z.eqb_neq; lia).
    reflexivity.
Qed.

Lemma seg_single {A} (d : A) l a :
  (a < length l)%nat -> seg a (S a) l = [nth a l d].
Proof.
  intros Ha. rewrite (seg_cons d) by lia. now rewrite seg_empty.
Qed.

Lemma nth_float zs a :
  (a < length zs)%nat ->
  nth a (map F64.of_Z zs) nan = F64.of_Z (nth a zs 0%Z).
Proof.
  intros Ha. rewrite (nth_indep _ nan (F64.of_Z 0)) by now rewrite length_map.
  apply map_nth.
Qed.

Lemma roll_step_setup w vs i st :
  (1 <= w)%Z -> i = 0%nat \/ w = 1%Z -> (i < length vs)%nat ->
  Rolling.roll_step w vs i st
  = Rolling.add_mean (nth i vs nan) (Rolling.setup (nth i vs nan)).
Proof.
  intros Hw Hi Hl. unfold Rolling.roll_step.
  assert (Es : Rolling.window_start w i = i).
  { unfold Rolling.window_start. lia. }
  rewrite Es, Nat.leb_refl, orb_true_r. unfold Rolling.rows.
  now rewrite (seg_single nan).
Qed.

Lemma roll_step_grow w vs t st :
  (2 <= w)%Z -> (S t < length vs)%nat -> (S (S t) <= Z.to_nat w)%nat ->
  Rolling.roll_step w vs (S t) st = Rolling.add_mean (nth (S t) vs nan) st.
Proof.
  intros Hw Hl Hg. unfold Rolling.roll_step.
  assert (Es : Rolling.window_start w (S t) = 0%nat).
  { unfold Rolling.window_start. lia. }
  assert (Ep : Rolling.window_start w (S t - 1) = 0%nat).
  { unfold Rolling.window_start. lia. }
  rewrite Es, Ep. cbn [Nat.eqb Nat.leb orb]. unfold Rolling.rows.
  rewrite seg_empty. cbn [fold_left].
  now rewrite (seg_single nan).
Qed.

Lemma roll_step_slide w vs t st :
  (2 <= w)%Z -> (S t < length vs)%nat -> (Z.to_nat w <= S t)%nat ->
  Rolling.roll_step w vs (S t) st
  = Rolling.add_mean (nth (S t) vs nan)
      (Rolling.remove_mean (nth (S t - Z.to_nat w) vs nan) st).
Proof.
  intros Hw Hl Hg. unfold Rolling.roll_step.
  assert (Es : Rolling.window_start w (S t) = S (S t - Z.to_nat w)).
  { unfold Rolling.window_start. lia. }
  assert (Ep : Rolling.window_start w (S t - 1) = (S t - Z.to_nat w)%nat).
  { unfold Rolling.window_start. lia. }
  rewrite Es, Ep. cbn [Nat.eqb orb].
  replace (S t <=? S (S t - Z.to_nat w))%nat with false
    by (symmetry; apply Nat.leb_gt; lia).
  unfold Rolling.rows.
  now rewrite !(seg_single nan) by lia.
Qed.

(** The three shapes of a pass of the loop: a fresh window, a window that
    grows, a window that slides. *)
Lemma roll_step_cases w vs i st :
  (1 <= w)%Z -> (i < length vs)%nat ->
  let v := nth i vs nan in
  Rolling.roll_step w vs i st = Rolling.add_mean v (Rolling.setup v) \/
  Rolling.roll_step w vs i st = Rolling.add_mean v st \/
  exists u, Rolling.roll_step w vs i st
            = Rolling.add_mean v (Rolling.remove_mean u st) /\ In u vs.
Proof.
  intros Hw Hl v. destruct i as [|t]; [left; now apply roll_step_setup; auto|].
  destruct (Z.eq_dec w 1) as [W1|W1];
    [left; now apply roll_step_setup; auto|].
  destruct (Nat.le_gt_cases (S (S t)) (Z.to_nat w)) as [G|G].
  - right. left. apply roll_step_grow; lia.
  - right. right. exists (nth (S t - Z.to_nat w) vs nan).
    split; [apply roll_step_slide; lia|apply nth_In; lia].
Qed.

Lemma int_step_setup w zs i st :
  (1 <= w)%Z -> i = 0%nat \/ w = 1%Z -> (i < length zs)%nat ->
  Rolling.roll_step w (map F64.of_Z zs) i st
  = Rolling.add_mean (F64.of_Z (nth i zs 0%Z))
      (Rolling.setup (F64.of_Z (nth i zs 0%Z))).
Proof.
  intros. rewrite roll_step_setup by (auto; now rewrite length_map).
  now rewrite nth_float.
Qed.

Lemma int_step_grow w zs t st :
  (2 <= w)%Z -> (S t < length zs)%nat -> (S (S t) <= Z.to_nat w)%nat ->
  Rolling.roll_step w (map F64.of_Z zs) (S t) st
  = Rolling.add_mean (F64.of_Z (nth (S t) zs 0%Z)) st.
Proof.
  intros. rewrite roll_step_grow by (auto; now rewrite length_map).
  now rewrite nth_float.
Qed.

Lemma int_step_slide w zs t st :
  (2 <= w)%Z -> (S t < length zs)%nat -> (Z.to_nat w <= S t)%nat ->
  Rolling.roll_step w (map F64.of_Z zs) (S t) st
  = Rolling.add_mean (F64.of_Z (nth (S t) zs 0%Z))
      (Rolling.remove_mean (F64.of_Z (nth (S t - Z.to_nat w) zs 0%Z)) st).
Proof.
  intros. rewrite roll_step_slide by (auto; now rewrite length_map).
  now rewrite !nth_float by lia.
Qed.

Section IntegerPrices.

Variables (w : Z) (zs : list Z).
Hypothesis Hw : (1 <= w)%Z.
Hypothesis Hpos : Forall (fun z => (0 < z)%Z) zs.
Hypothesis Hsum : (total zs < 2 ^ 53)%Z.

Local Abbreviation state_at t :=
(fold_left (fun st i => Rolling.roll_step w (map F64.of_Z zs) i st)
           (seq 0 (S t)) (Rolling.setup nan)).

Lemma price_bounds t :
(t < length zs)%nat -> (0 < nth t zs 0 < 2 ^ 53)%Z.
Proof.
intros Ht. destruct (total_seg_le zs t (S t) Hpos) as [F L].
rewrite (seg_single 0%Z) in F, L by lia.
apply Forall_cons_iff in F. unfold total at 1 in L. cbn [fold_right] in L.
lia.
Qed.

Lemma history_bounds t :
Forall (fun z => (0 < z)%Z) (history w t zs) /\
(total (history w t zs) < 2 ^ 53)%Z.
Proof.
rewrite history_seg.
destruct (total_seg_le zs (S t - Z.to_nat w) (S t) Hpos). split; [auto|lia].
Qed.

Lemma state_invariant t :
(t < length zs)%nat ->
int_state (history w t zs) (nth t zs 0%Z) (state_at t) /\
exists k, Rolling.num_consecutive_same_value (state_at t) = Z.of_nat k /\
          forall j, (S t - k <= j <= t)%nat -> nth j zs 0%Z = nth t zs 0%Z.
Proof.
induction t as [|t IH]; intros Ht.
- cbn [seq fold_left]. rewrite int_step_setup by auto.
  replace (history w 0 zs) with [nth 0 zs 0%Z].
  2:{ rewrite history_seg. replace (1 - Z.to_nat w)%nat with 0%nat by lia.
      now rewrite (seg_single 0%Z). }
  destruct (add_mean_first (nth 0 zs 0%Z) (price_bounds 0 Ht)) as [I C].
  split; [exact I|]. exists 1%nat. split; [exact C|].
  intros j Hj. f_equal. lia.
- specialize (IH ltac:(lia)). destruct IH as [I [k [C R]]].
  rewrite seq_S, fold_left_app. cbn [fold_left Nat.add].
  pose proof (price_bounds t ltac:(lia)) as Bt.
  pose proof (price_bounds (S t) Ht) as Bs.
  destruct (history_bounds t) as [Fh Th].
  destruct (history_bounds (S t)) as [Fs Ts].
  destruct (Z.eq_dec w 1) as [W1|W1].
  + rewrite int_step_setup by auto.
    replace (history w (S t) zs) with [nth (S t) zs 0%Z].
    2:{ rewrite history_seg, W1.
        replace (S (S t) - Z.to_nat 1)%nat with (S t) by lia.
        now rewrite (seg_single 0%Z). }
    destruct (add_mean_first _ Bs) as [I' C'].
    split; [exact I'|]. exists 1%nat. split; [exact C'|].
    intros j Hj. f_equal. lia.
  + destruct (Nat.le_gt_cases (S (S t)) (Z.to_nat w)) as [G|G].
    * rewrite int_step_grow by (auto; lia).
      assert (E : history w (S t) zs
                  = history w t zs ++ [nth (S t) zs 0%Z]).
      { rewrite !history_seg.
        replace (S (S t) - Z.to_nat w)%nat with 0%nat by lia.
        replace (S t - Z.to_nat w)%nat with 0%nat by lia.
        apply seg_snoc; lia. }
      rewrite E in *. rewrite total_app in Ts.
      unfold total at 2 in Ts. cbn [fold_right] in Ts.
      assert (Nh : history w t zs <> []).
      { intros N. rewrite history_seg in N.
        apply (f_equal (@length Z)) in N. rewrite seg_length in N by lia.
        cbn [length] in N. lia. }
      destruct (add_mean_int _ _ (nth (S t) zs 0%Z) _ Nh Fh ltac:(lia) Bt
                  ltac:(lia) I) as [I' C'].
      split; [exact I'|]. rewrite C', C.
      destruct (Z.eqb_spec (nth (S t) zs 0%Z) (nth t zs 0%Z)) as [Q|Q].
      -- exists (S k). split; [lia|]. intros j Hj.
         destruct (Nat.eq_dec j (S t)) as [->|Nj]; [reflexivity|].
         rewrite Q. apply R. lia.
      -- exists 1%nat. split; [reflexivity|]. intros j Hj. f_equal. lia.
    * rewrite int_step_slide by (auto; lia).
      set (s := (S t - Z.to_nat w)%nat) in *.
      assert (E1 : history w t zs
                   = nth s zs 0%Z :: seg (S s) (S t) zs).
      { rewrite history_seg. fold s. apply seg_cons; lia. }
      assert (E2 : history w (S t) zs
                   = seg (S s) (S t) zs ++ [nth (S t) zs 0%Z]).
      { rewrite history_seg.
        replace (S (S t) - Z.to_nat w)%nat with (S s) by lia.
        apply seg_snoc; lia. }
      assert (Nm : seg (S s) (S t) zs <> []).
      { intros N. apply (f_equal (@length Z)) in N.
        rewrite seg_length in N by lia. cbn [length] in N. lia. }
      rewrite E1 in I, Fh, Th. rewrite E2 in *.
      destruct (remove_mean_int _ _ _ _ Nm Fh Th I) as [Im Cm].
      rewrite total_app in Ts.
      unfold total at 2 in Ts. cbn [fold_right] in Ts.
      apply Forall_cons_iff in Fh. destruct Fh as [_ Fm].
      destruct (add_mean_int _ _ (nth (S t) zs 0%Z) _ Nm Fm ltac:(lia) Bt
                  ltac:(lia) Im) as [I' C'].
      split; [exact I'|]. rewrite C', Cm, C.
      destruct (Z.eqb_spec (nth (S t) zs 0%Z) (nth t zs 0%Z)) as [Q|Q].
      -- exists (S k). split; [lia|]. intros j Hj.
         destruct (Nat.eq_dec j (S t)) as [->|Nj]; [reflexivity|].
         rewrite Q. apply R. lia.
      -- exists 1%nat. split; [reflexivity|]. intros j Hj. f_equal. lia.
Qed.

Lemma rolling_mean_history t :
(t < length zs)%nat ->
nth t (SmaCross.rolling_mean w (map F64.of_Z zs)) nan
= F64.of_Z (total (history w t zs)) / F64.of_nat (length (history w t zs)).
Proof.
intros Ht. unfold SmaCross.rolling_mean, Rolling.roll_mean.
assert (P : Rolling.prep_values (map F64.of_Z zs) = map F64.of_Z zs).
{ unfold Rolling.prep_values. rewrite map_map. apply map_ext_in.
  intros z Hz.
  destruct (In_nth zs z 0%Z Hz) as [i [Hi <-]].
  pose proof (price_bounds i Hi).
  now rewrite (RoundingFacts.int_not_infinity _ _
                 (RoundingFacts.of_Z_int (nth i zs 0%Z) ltac:(lia) ltac:(lia))). }
rewrite P, roll_rows_nth by now rewrite length_map.
destruct (state_invariant t Ht) as [I [k [C R]]].
destruct (history_bounds t) as [Fh Th].
pose proof (price_bounds t Ht) as Bt.
apply (calc_mean_int _ (nth t zs 0%Z) _ k); auto; try lia.
- intros N. rewrite history_seg in N. apply (f_equal (@length Z)) in N.
  rewrite seg_length in N by lia. cbn [length] in N. lia.
- intros L x Hx. rewrite history_seg in *.
  destruct (In_nth _ x 0%Z Hx) as [j [Hj <-]].
  rewrite seg_length in Hj, L by lia.
  rewrite seg_nth by lia. apply R. lia.
Qed.

End IntegerPrices.

(** *** Any prices: the first row and a flat series *)

Lemma eqb_refl x : PrimFloat.is_nan x = false -> PrimFloat.eqb x x = true.
Proof.
  intros H. apply not_nan_spec in H. rewrite FloatAxioms.eqb_spec.
  now apply RoundingFacts.SFeqb_refl.
Qed.

Lemma rolling_mean_first w c cs :
  (1 <= w)%Z ->
  nth 0 (SmaCross.rolling_mean w (c :: cs)) nan
  = if PrimFloat.is_nan c || PrimFloat.is_infinity c then nan else c.
Proof.
  intros Hw. unfold SmaCross.rolling_mean, Rolling.roll_mean.
  rewrite roll_rows_nth by (unfold Rolling.prep_values; cbn; lia).
  cbn [seq fold_left].
  rewrite roll_step_setup by (auto; unfold Rolling.prep_values; cbn; lia).
  unfold Rolling.prep_values. cbn [map nth].
  destruct (PrimFloat.is_infinity c) eqn:I;
    [now rewrite orb_true_r|rewrite orb_false_r].
  unfold Rolling.add_mean, Rolling.setup.
  destruct (PrimFloat.is_nan c) eqn:N; [reflexivity|].
  unfold Rolling.calc_mean.
  cbn [Rolling.nobs Rolling.num_consecutive_same_value Rolling.prev_value].
  rewrite (eqb_refl c N). reflexivity.
Qed.

(** Once the last value has been seen at least as often as the window is
    long, the mean is that value. *)
Local Abbreviation flat_state v st :=
  (Z.le 1 (Rolling.nobs st) /\
   Z.le (Rolling.nobs st) (Rolling.num_consecutive_same_value st) /\
   Rolling.prev_value st = v).

Lemma add_mean_flat v st :
  PrimFloat.is_nan v = false ->
  (0 <= Rolling.nobs st <= Rolling.num_consecutive_same_value st)%Z ->
  Rolling.prev_value st = v ->
  flat_state v (Rolling.add_mean v st).
Proof.
  intros N B P. unfold Rolling.add_mean. rewrite N.
  cbn [Rolling.nobs Rolling.num_consecutive_same_value Rolling.prev_value].
  rewrite P, (eqb_refl v N). repeat split; lia.
Qed.

Lemma remove_mean_flat v st :
  flat_state v st ->
  (0 <= Rolling.nobs (Rolling.remove_mean v st)
     <= Rolling.num_consecutive_same_value (Rolling.remove_mean v st))%Z /\
  Rolling.prev_value (Rolling.remove_mean v st) = v.
Proof.
  intros [B1 [B2 P]]. unfold Rolling.remove_mean.
  destruct (PrimFloat.is_nan v);
    cbn [Rolling.nobs Rolling.num_consecutive_same_value Rolling.prev_value];
    (split; [lia|exact P]).
Qed.

Lemma rolling_mean_flat w v cs t :
  (1 <= w)%Z -> PrimFloat.is_finite v = true ->
  Forall (fun c => c = v) cs -> (t < length cs)%nat ->
  nth t (SmaCross.rolling_mean w cs) nan = v.
Proof.
  intros Hw Fv Hcs Ht.
  unfold PrimFloat.is_finite in Fv. apply negb_true_iff, orb_false_iff in Fv.
  destruct Fv as [N I].
  assert (P : Rolling.prep_values cs = cs).
  { unfold Rolling.prep_values. rewrite <- (map_id cs) at 2.
    apply map_ext_in. intros c Hc. rewrite Forall_forall in Hcs.
    rewrite (Hcs c Hc). now rewrite I. }
  unfold SmaCross.rolling_mean, Rolling.roll_mean. rewrite P.
  rewrite roll_rows_nth by lia.
  assert (E : forall i, (i < length cs)%nat -> nth i cs nan = v).
  { intros i Hi. rewrite Forall_forall in Hcs. apply Hcs. now apply nth_In. }
  assert (J : flat_state v
                (fold_left (fun st i => Rolling.roll_step w cs i st)
                           (seq 0 (S t)) (Rolling.setup nan))).
  { clear P. induction t as [|t IH].
    - cbn [seq fold_left]. rewrite roll_step_setup by auto. rewrite E by lia.
      apply add_mean_flat; auto. cbn. lia.
    - specialize (IH ltac:(lia)). rewrite seq_S, fold_left_app.
      cbn [fold_left Nat.add].
      destruct (roll_step_cases w cs (S t)
                  (fold_left (fun st i => Rolling.roll_step w cs i st)
                             (seq 0 (S t)) (Rolling.setup nan)) Hw Ht)
        as [-> | [-> | [u [-> Hu]]]]; rewrite E by lia.
      + apply add_mean_flat; auto. cbn. lia.
      + apply add_mean_flat; auto; [lia|tauto].
      + rewrite Forall_forall in Hcs. rewrite (Hcs u Hu).
        destruct (remove_mean_flat v _ IH). now apply add_mean_flat. }
  destruct J as [B1 [B2 Pv]]. unfold Rolling.calc_mean.
  replace ((1 <=? Rolling.nobs _)%Z && (0 <? Rolling.nobs _)%Z) with true
    by (symmetry; apply andb_true_iff; rewrite Z.leb_le, Z.ltb_lt; lia).
  replace (Rolling.nobs _ <=? Rolling.num_consecutive_same_value _)%Z
    with true by (symmetry; apply Z.leb_le; lia).
  exact Pv.
Qed.

Lemma history_length {A} w t (xs : list A) :
  (1 <= w)%Z -> (t < length xs)%nat ->
  length (history w t xs) = Nat.min (S t) (Z.to_nat w).
Proof.
  intros Hw Ht. rewrite history_seg, seg_length by lia. lia.
Qed.

Lemma signal_of_nan f s :
  PrimFloat.is_nan f || PrimFloat.is_nan s = true ->
  SmaCross.signal_of f s = 0%Z.
Proof.
  intros H. apply SmaCrossFacts.signal_of_else; unfold F64.gt.
  - destruct (PrimFloat.ltb s f) eqn:E; [|reflexivity].
    apply ltb_not_nan in E. destruct E as [E1 E2]. now rewrite E1, E2 in H.
  - destruct (PrimFloat.ltb f s) eqn:E; [|reflexivity].
    apply ltb_not_nan in E. destruct E as [E1 E2]. now rewrite E1, E2 in H.
Qed.





(** * Further properties *)

(** ** Strategies *)

Lemma dict_get_set_same {V} k (v : V) d : dict_get k (dict_set k v d) = Some v.
Proof.
  induction d as [|[k' v'] d IH]; cbn [dict_set dict_get].
  - now rewrite String.eqb_refl.
  - destruct (String.eqb k k') eqn:E; cbn [dict_get].
    + now rewrite String.eqb_refl.
    + now rewrite E.
Qed.

Lemma dict_get_set_other {V} k k' (v : V) d :
  k' <> k -> dict_get k' (dict_set k v d) = dict_get k' d.
Proof.
  intros Hne. induction d as [|[k2 v2] d IH]; cbn [dict_set dict_get].
  - destruct (String.eqb_spec k' k); [contradiction|reflexivity].
  - destruct (String.eqb_spec k k2) as [->|N]; cbn [dict_get].
    + destruct (String.eqb_spec k' k2); [contradiction|reflexivity].
    + destruct (String.eqb k' k2); [reflexivity|exact IH].
Qed.

Lemma dict_set_keys {V} k (v : V) d :
  map fst (dict_set k v d)
  = if existsb (String.eqb k) (map fst d) then map fst d
    else map fst d ++ [k].
Proof.
  induction d as [|[k2 v2] d IH]; cbn [dict_set map existsb fst app];
    [reflexivity|].
  destruct (String.eqb_spec k k2) as [->|N]; cbn [map fst orb]; [reflexivity|].
  rewrite IH. destruct (existsb _ _); reflexivity.
Qed.

(** X1.  [register(name)(cls)] followed by [create_strategy(name, params)]
    calls [cls] with the parameters; the other names keep what they had,
    a name registered twice keeps its place and its last class, and the
    registry of the application is the empty one after
    [register('sma_cross')(SmaCross)]. *)
Theorem register_then_create :
  forall (reg : Registry) (name other : string)
         (cls cls' : params -> result Strategy) (p : params),
    create_strategy (register name cls reg) name p = cls p /\
    (other <> name ->
       create_strategy (register name cls reg) other p
       = create_strategy reg other p) /\
    create_strategy (register name cls' (register name cls reg)) name p
      = cls' p /\
    map fst (register name cls' (register name cls reg))
      = map fst (register name cls reg) /\
    REGISTRY = register "sma_cross" SmaCross.init [].
Proof.
  intros reg name other cls cls' p. unfold create_strategy, register.
  split; [now rewrite dict_get_set_same|].
  split; [intros H; now rewrite dict_get_set_other|].
  split; [now rewrite dict_get_set_same|].
  split; [|reflexivity].
  rewrite (dict_set_keys name cls' (dict_set name cls reg)).
  replace (existsb (String.eqb name) (map fst (dict_set name cls reg)))
    with true; [reflexivity|].
  symmetry. apply existsb_exists. exists name.
  split; [|apply String.eqb_refl].
  rewrite dict_set_keys. destruct (existsb _ _) eqn:E.
  - apply existsb_exists in E. destruct E as [x [Hx Ex]].
    apply String.eqb_eq in Ex. now subst.
  - apply in_or_app. right. now left.
Qed.

(** X2.  [SmaCross] called with a keyword dictionary, by cases: a keyword
    other than [fast] and [slow] is a [TypeError], whatever the values;
    otherwise a value of
    [fast] or [slow] (defaults 10 and 30) that is not an integer is a
    [ValueError], even when the other is below 1; otherwise a value below 1
    is a [ValueError]; otherwise the strategy is built with these two
    windows. *)
Theorem sma_cross_constructor :
  forall p : params,
    let fast := bound_arg "fast" 10 p in
    let slow := bound_arg "slow" 30 p in
    (unexpected_keyword p = true ->
       exists msg, SmaCross.init p = Raise (TypeError msg)) /\
    (unexpected_keyword p = false ->
       ((forall f, fast <> PyInt f) \/ (forall s, slow <> PyInt s) ->
          SmaCross.init p = Raise (ValueError "fast and slow must be integers")) /\
       (forall f s, fast = PyInt f -> slow = PyInt s ->
          ((f < 1)%Z \/ (s < 1)%Z ->
             SmaCross.init p = Raise (ValueError "fast and slow must be >= 1")) /\
          ((1 <= f)%Z -> (1 <= s)%Z ->
             SmaCross.init p = Ok (mkStrategy (SmaCross.generate_signals f s))))).
Proof.
  intros p fast slow. unfold SmaCross.init.
  fold (bound_arg "fast" 10 p). fold (bound_arg "slow" 30 p). fold fast slow.
  assert (E : negb (forallb (fun kv => SmaCross.known_keyword (fst kv)) p)
              = unexpected_keyword p).
  { unfold unexpected_keyword. induction p as [|kv p IH]; [reflexivity|].
    cbn [forallb existsb]. rewrite negb_andb. f_equal.
    apply IH. }
  rewrite E. split.
  - intros ->. eauto.
  - intros ->. split.
    + intros [H|H].
      * destruct fast as [f|]; [now destruct (H f)|reflexivity].
      * destruct fast as [f|]; [|reflexivity].
        destruct slow as [s|]; [now destruct (H s)|reflexivity].
    + intros f s -> ->. split.
      * intros H.
        replace ((f <? 1)%Z || (s <? 1)%Z) with true; [reflexivity|].
        symmetry. apply orb_true_iff. rewrite !Z.ltb_lt. exact H.
      * intros Hf Hs.
        replace ((f <? 1)%Z || (s <? 1)%Z) with false; [reflexivity|].
        symmetry. apply orb_false_iff. rewrite !Z.ltb_ge. now split.
Qed.

Lemma create_unknown reg name p :
  dict_get name reg = None ->
  create_strategy reg name p = Raise (ValueError "Unknown strategy").
Proof. unfold create_strategy. now intros ->. Qed.

Lemma walk_window_unknown reg name ps is_df oos_df :
  dict_get name reg = None ->
  walk_window reg name ps is_df oos_df
  = Raise (ValueError "Unknown strategy").
Proof.
  intros H. unfold walk_window. destruct (_grid ps) as [|p grid].
  - cbn [grid_search bind]. unfold oos_apply.
    now rewrite (create_unknown _ _ _ H).
  - cbn [grid_search]. unfold insample_metrics.
    now rewrite (create_unknown _ _ _ H).
Qed.

(** X3.  A strategy name that is not registered is a [ValueError] of
    [create_strategy], and [run_backtest] raises it before it looks at the
    frame.  [run_walkforward] raises it only if the frame holds a first
    window; on a shorter frame the unknown name goes unnoticed and the
    empty result is returned. *)
Theorem unknown_strategy_name :
  forall (reg : Registry) (name : string) (p : params) (df : DataFrame)
         (param_space : ParamSpace) (insample_days outsample_days : Z),
    dict_get name reg = None ->
    (exists msg, create_strategy reg name p = Raise (ValueError msg)) /\
    (exists msg, run_backtest reg df name p = Raise (ValueError msg)) /\
    ((insample_days + outsample_days <= Z.of_nat (length df))%Z ->
       exists msg,
         run_walkforward reg name param_space insample_days outsample_days df
         = Raise (ValueError msg)) /\
    ((Z.of_nat (length df) < insample_days + outsample_days)%Z ->
       run_walkforward reg name param_space insample_days outsample_days df
       = Ok (mkWalkForward [] None None)).
Proof.
  intros reg name p df ps isd osd H.
  split; [rewrite (create_unknown _ _ _ H); eauto|].
  split.
  { unfold run_backtest, backtest_report.
    rewrite (create_unknown _ _ _ H). cbn [bind]. eauto. }
  unfold run_walkforward. cbn [walk]. rewrite sort_values_length.
  split; intros Hn.
  - replace (0 + isd + osd >? Z.of_nat (length df))%Z with false
      by (symmetry; rewrite Z.gtb_ltb; apply Z.ltb_ge; lia).
    rewrite (walk_window_unknown _ _ _ _ _ H). cbn [bind]. eauto.
  - replace (0 + isd + osd >? Z.of_nat (length df))%Z with true
      by (symmetry; apply Z.gtb_lt; lia).
    reflexivity.
Qed.

Lemma unknown_strategy_name_witness :
  dict_get "momentum"%string REGISTRY = None /\
  exists msg,
    run_walkforward REGISTRY "momentum" sample_space 3 1 sample_frame
    = Raise (ValueError msg).
Proof.
  split; [reflexivity|].
  exact (proj1 (proj2 (proj2
           (unknown_strategy_name REGISTRY "momentum" [] sample_frame
              sample_space 3 1 eq_refl))) ltac:(cbn; lia)).
Defined.

Lemma signal_of_range f s :
  SmaCross.signal_of f s = (-1)%Z \/ SmaCross.signal_of f s = 0%Z \/
  SmaCross.signal_of f s = 1%Z.
Proof.
  unfold SmaCross.signal_of.
  destruct (PrimFloat.ltb f s); [now left|].
  destruct (F64.gt f s); auto.
Qed.

Lemma signals_Forall (P : Z -> Prop) ts : forall fs ss,
  (forall f s, In f fs -> In s ss -> P (SmaCross.signal_of f s)) ->
  Forall (fun x => P (snd x)) (SmaCross.signals ts fs ss).
Proof.
  induction ts as [|t ts IH]; intros [|f fs] [|s ss] H;
    cbn [SmaCross.signals]; try constructor.
  - cbn [snd]. apply H; now left.
  - apply IH. intros f' s' Hf Hs. apply H; now right.
Qed.

Lemma signals_same ts : forall fs,
  Forall (fun x => snd x = 0%Z) (SmaCross.signals ts fs fs).
Proof.
  induction ts as [|t ts IH]; intros [|f fs]; cbn [SmaCross.signals];
    constructor; [apply SmaCrossFacts.signal_of_same|apply IH].
Qed.

(** X4.  [SmaCross.generate_signals] answers one row per price row, and
    every signal is [-1], [0] or [1]; with equal windows every signal is
    [0]. *)
Theorem signals_in_range :
  forall (fast slow : Z) (df : DataFrame),
    (1 <= fast)%Z -> (1 <= slow)%Z ->
    let sig := SmaCross.generate_signals fast slow df in
    length sig = length df /\
    Forall (fun s => snd s = (-1)%Z \/ snd s = 0%Z \/ snd s = 1%Z) sig /\
    (fast = slow -> Forall (fun s => snd s = 0%Z) sig).
Proof.
  intros fast slow df _ _ sig. unfold sig, SmaCross.generate_signals.
  split; [|split].
  - rewrite SmaCrossFacts.signals_length;
      now rewrite ?SmaCrossFacts.rolling_mean_length, ?length_map.
  - apply (signals_Forall (fun z => z = (-1)%Z \/ z = 0%Z \/ z = 1%Z)).
    intros f s _ _. apply signal_of_range.
  - intros ->. apply signals_same.
Qed.

Lemma signals_in_range_witness :
  length (SmaCross.generate_signals 2 2 sample_frame) = 6%nat /\
  Forall (fun s => snd s = 0%Z) (SmaCross.generate_signals 2 2 sample_frame).
Proof.
  destruct (signals_in_range 2 2 sample_frame ltac:(lia) ltac:(lia))
    as [L [_ Z0]].
  split; [exact L|exact (Z0 eq_refl)].
Defined.

Lemma rows_app (xs ys : list float) a b :
  (b <= length xs)%nat ->
  Rolling.rows (xs ++ ys) a b = Rolling.rows xs a b.
Proof.
  intros Hb. unfold Rolling.rows. rewrite skipn_app, firstn_app.
  rewrite length_skipn.
  replace (b - a - (length xs - a))%nat with O by lia.
  cbn [firstn]. now rewrite app_nil_r.
Qed.

Lemma window_start_le w i :
  (1 <= w)%Z -> (Rolling.window_start w i <= i)%nat.
Proof. intros H. unfold Rolling.window_start. lia. Qed.

(** The pass over row [i] reads no later row. *)
Lemma roll_step_app w xs ys i st :
  (1 <= w)%Z -> (i < length xs)%nat ->
  Rolling.roll_step w (xs ++ ys) i st = Rolling.roll_step w xs i st.
Proof.
  intros Hw Hi. unfold Rolling.roll_step.
  pose proof (window_start_le w i Hw) as Hs.
  rewrite !rows_app by lia.
  now rewrite app_nth1 by lia.
Qed.

Lemma roll_rows_app w minp xs ys : forall todo st,
  (1 <= w)%Z -> Forall (fun i => (i < length xs)%nat) todo ->
  Rolling.roll_rows w minp (xs ++ ys) todo st
  = Rolling.roll_rows w minp xs todo st.
Proof.
  induction todo as [|i todo IH]; intros st Hw Hall; [reflexivity|].
  inversion Hall as [|? ? Hi Hall']; subst.
  cbn [Rolling.roll_rows]. rewrite roll_step_app by assumption.
  now rewrite IH.
Qed.

Lemma roll_rows_firstn w minp vs : forall t1 t2 st,
  firstn (length t1) (Rolling.roll_rows w minp vs (t1 ++ t2) st)
  = Rolling.roll_rows w minp vs t1 st.
Proof.
  induction t1 as [|i t1 IH]; intros t2 st; [reflexivity|].
  cbn [app Rolling.roll_rows length firstn]. now rewrite IH.
Qed.

Lemma rolling_mean_app w xs ys :
  (1 <= w)%Z ->
  firstn (length xs) (SmaCross.rolling_mean w (xs ++ ys))
  = SmaCross.rolling_mean w xs.
Proof.
  intros Hw. unfold SmaCross.rolling_mean, Rolling.roll_mean.
  unfold Rolling.prep_values. rewrite map_app.
  set (f := fun v => if PrimFloat.is_infinity v then nan else v).
  rewrite length_app, seq_app, !length_map. cbn [Nat.add].
  match goal with |- firstn _ ?X = _ =>
    replace (firstn (length xs) X)
      with (firstn (length (seq 0 (length xs))) X)
      by (now rewrite length_seq)
  end.
  rewrite roll_rows_firstn.
  apply roll_rows_app; [exact Hw|].
  apply Forall_forall. intros i Hi. apply in_seq in Hi.
  rewrite length_map. lia.
Qed.

Lemma signals_firstn n : forall ts fs ss,
  firstn n (SmaCross.signals ts fs ss)
  = SmaCross.signals (firstn n ts) (firstn n fs) (firstn n ss).
Proof.
  induction n as [|n IH]; intros ts fs ss; [reflexivity|].
  destruct ts as [|t ts]; [reflexivity|].
  destruct fs as [|f fs]; [reflexivity|].
  destruct ss as [|s ss]; [reflexivity|].
  cbn [firstn SmaCross.signals]. now rewrite IH.
Qed.

(** X5.  The signals of [sma_cross] never look ahead: the signals of the
    first rows of a frame are those of the frame cut after these rows,
    whatever follows. *)
Theorem signals_never_look_ahead :
  forall (fast slow : Z) (past future : DataFrame),
    (1 <= fast)%Z -> (1 <= slow)%Z ->
    firstn (length past)
           (SmaCross.generate_signals fast slow (past ++ future))
    = SmaCross.generate_signals fast slow past.
Proof.
  intros fast slow past future Hf Hs. unfold SmaCross.generate_signals.
  rewrite signals_firstn, !map_app.
  rewrite <- (length_map close past) at 2 3.
  rewrite !rolling_mean_app by assumption.
  rewrite <- (length_map timestamp past) at 1.
  rewrite firstn_app, Nat.sub_diag, firstn_all. cbn [firstn].
  now rewrite app_nil_r.
Qed.

Lemma signals_never_look_ahead_witness :
  firstn 3 (SmaCross.generate_signals 1 2 sample_frame)
  = SmaCross.generate_signals 1 2 (firstn 3 sample_frame).
Proof.
  exact (signals_never_look_ahead 1 2 (firstn 3 sample_frame)
           (skipn 3 sample_frame) ltac:(lia) ltac:(lia)).
Defined.


(** ** Metrics *)

Lemma SFleb_trans a b c :
  SFleb a b = true -> SFleb b c = true -> SFleb a c = true.
Proof. unfold SFleb, SFcompare. destruct a, b, c; sf_cases. Qed.

Lemma leb_trans x y z :
  PrimFloat.leb x y = true -> PrimFloat.leb y z = true ->
  PrimFloat.leb x z = true.
Proof. rewrite !FloatAxioms.leb_spec. apply SFleb_trans. Qed.

Lemma leb_refl x : PrimFloat.is_nan x = false -> PrimFloat.leb x x = true.
Proof.
  intros H. apply ltb_total; auto. apply ltb_irrefl.
Qed.

Lemma ltb_leb x y : PrimFloat.ltb x y = true -> PrimFloat.leb x y = true.
Proof.
  intros H. destruct (ltb_not_nan _ _ H) as [Hx Hy].
  apply ltb_total; auto. now apply ltb_asym.
Qed.

(** The running minimum never rises above its start. *)
Lemma min_fold_le r : forall v,
  PrimFloat.is_nan v = false ->
  Forall (fun x => PrimFloat.is_nan x = false) r ->
  PrimFloat.leb
    (fold_left (fun m x => if PrimFloat.ltb x m then x else m) r v) v = true.
Proof.
  induction r as [|x r IH]; intros v Hv Hr; cbn [fold_left].
  - now apply leb_refl.
  - inversion Hr as [|? ? Hx Hr']; subst.
    destruct (PrimFloat.ltb x v) eqn:E.
    + apply leb_trans with x; [now apply IH|now apply ltb_leb].
    + now apply IH.
Qed.

Lemma dropna_notnan xs :
  Forall (fun x => PrimFloat.is_nan x = false) (Series.dropna xs).
Proof.
  apply Forall_forall. intros x Hx. unfold Series.dropna in Hx.
  apply filter_In in Hx. destruct Hx as [_ Hx]. unfold Series.notna in Hx.
  now apply negb_true_iff in Hx.
Qed.

Lemma min_le_head x xs :
  PrimFloat.is_nan x = false ->
  PrimFloat.leb (Series.min (x :: xs)) x = true.
Proof.
  intros Hx. unfold Series.min, Series.dropna. cbn [filter].
  unfold Series.notna at 1. rewrite Hx. cbn [negb].
  apply min_fold_le; [exact Hx|apply dropna_notnan].
Qed.

(** X6.  The reported Sharpe ratio is never an infinity (it is a number or
    NaN), for every equity curve. *)
Theorem sharpe_never_infinite :
  forall (equity_curve trade_returns : list float) (m : BacktestReport),
    compute_metrics equity_curve trade_returns = Ok m ->
    PrimFloat.is_infinity (sharpe m) = false.
Proof.
  intros c t m H. apply RoundingFacts.not_infinity_spec. intros s.
  exact (RoundingFacts.compute_metrics_sharpe_finite c t m H s).
Qed.

Lemma sharpe_never_infinite_witness :
  exists m, compute_metrics overflow_curve [] = Ok m /\
            PrimFloat.is_infinity (sharpe m) = false.
Proof.
  assert (H : exists m, compute_metrics overflow_curve [] = Ok m)
    by (eexists; reflexivity).
  destruct H as [m H]. exists m. split; [exact H|].
  exact (sharpe_never_infinite overflow_curve [] m H).
Defined.

Lemma drawdown_le_zero e0 rest trade_returns m :
  PrimFloat.is_finite e0 = true -> PrimFloat.is_zero e0 = false ->
  compute_metrics (e0 :: rest) trade_returns = Ok m ->
  PrimFloat.leb (max_drawdown m) 0 = true /\
  PrimFloat.is_nan (max_drawdown m) = false.
Proof.
  intros Hf Hz H. unfold compute_metrics in H.
  injection H as <-. cbn [max_drawdown].
  cbn [map]. rewrite (RoundingFacts.div_self e0 Hf Hz).
  unfold Series.cummax. cbn [Series.cummax_from].
  change (PrimFloat.is_nan 1) with false. cbv iota.
  change (PrimFloat.ltb neg_infinity 1) with true. cbv iota zeta.
  cbn [Series.zip_with]. change (1 / 1 - 1) with 0.
  match goal with |- PrimFloat.leb ?d 0 = true /\ _ =>
    assert (L : PrimFloat.leb d 0 = true) by (now apply min_le_head)
  end.
  split; [exact L|].
  rewrite FloatAxioms.leb_spec in L. apply not_nan_spec.
  intros E. rewrite E in L. discriminate.
Qed.

(** X7.  When the first value of the equity curve is finite and not zero,
    the reported maximum drawdown is a number and never positive. *)
Theorem max_drawdown_nonpositive :
  forall (e0 : float) (rest trade_returns : list float) (m : BacktestReport),
    PrimFloat.is_finite e0 = true -> PrimFloat.is_zero e0 = false ->
    compute_metrics (e0 :: rest) trade_returns = Ok m ->
    PrimFloat.leb (max_drawdown m) 0 = true /\
    PrimFloat.is_nan (max_drawdown m) = false.
Proof.
  intros e0 rest tr m Hf Hz H. exact (drawdown_le_zero e0 rest tr m Hf Hz H).
Qed.

Lemma max_drawdown_nonpositive_witness :
  exists m, compute_metrics [1; 2; 1] [] = Ok m /\
            PrimFloat.leb (max_drawdown m) 0 = true.
Proof.
  assert (H : exists m, compute_metrics [1; 2; 1] [] = Ok m)
    by (eexists; reflexivity).
  destruct H as [m H]. exists m. split; [exact H|].
  exact (proj1 (max_drawdown_nonpositive 1 [2; 1] [] m eq_refl eq_refl H)).
Defined.

(** X8.  The reported win rate is the share of strictly positive trade
    returns: [0] without trades, and otherwise a number between 0 and 1
    (for fewer than [2^53] trades); [trades] is the number of trade
    returns. *)
Theorem win_rate_unit_interval :
  forall (equity_curve trade_returns : list float) (m : BacktestReport),
    compute_metrics equity_curve trade_returns = Ok m ->
    (Z.of_nat (length trade_returns) < 2 ^ 53)%Z ->
    trades m = length trade_returns /\
    (trade_returns = [] -> win_rate m = 0) /\
    PrimFloat.leb 0 (win_rate m) = true /\
    PrimFloat.leb (win_rate m) 1 = true.
Proof.
  intros c tr m H Hb. unfold compute_metrics in H.
  destruct c as [|e0 c]; [discriminate|]. injection H as <-.
  cbn [trades win_rate]. split; [reflexivity|].
  split; [intros ->; reflexivity|].
  destruct (0 <? length tr)%nat eqn:E; [|split; reflexivity].
  apply Nat.ltb_lt in E.
  apply RoundingFacts.count_ratio_unit; [apply filter_length_le|exact E|exact Hb].
Qed.

Lemma win_rate_unit_interval_witness :
  exists m, compute_metrics [1; 2] [1; -1; 2] = Ok m /\
            PrimFloat.leb (win_rate m) 1 = true.
Proof.
  assert (H : exists m, compute_metrics [1; 2] [1; -1; 2] = Ok m)
    by (eexists; reflexivity).
  destruct H as [m H]. exists m. split; [exact H|].
  exact (proj2 (proj2 (proj2
           (win_rate_unit_interval [1; 2] [1; -1; 2] m H
              ltac:(cbn; lia))))).
Defined.


(** ** Backtest *)

Lemma backtest_report_inv reg df name p report d :
  backtest_report reg df name p = Ok (report, d) ->
  exists s,
    create_strategy reg name p = Ok s /\
    d = backtest_frame s df /\
    let pos_change :=
      Series.fillna0 (map PrimFloat.abs (Series.diff (position d))) in
    let trade_returns :=
      Series.select (map (fun c => F64.gt c 0) pos_change) (strategy_ret d) in
    compute_metrics (equity_curve d) trade_returns = Ok report.
Proof.
  unfold backtest_report.
  destruct (create_strategy reg name p) as [s| |]; try discriminate.
  cbn [bind]. destruct (compute_metrics _ _) as [m| |] eqn:E; try discriminate.
  cbn [bind]. intros H. injection H as <- <-. exists s.
  split; [reflexivity|]. split; [reflexivity|]. exact E.
Qed.

Lemma equity_length d :
  length (Series.cumprod
            (map (PrimFloat.add 1)
               (Series.zip_with PrimFloat.mul
                  (position_column (signal_column d))
                  (Series.fillna0 (Series.pct_change (close_column d))))))
  = length d.
Proof.
  unfold Series.cumprod.
  now rewrite cumprod_from_length, length_map, strategy_ret_length.
Qed.

(** The first strategy return of a frame is [0 * 0]. *)
Lemma strategy_ret_head x d :
  exists rest,
    Series.zip_with PrimFloat.mul
      (position_column (signal_column (x :: d)))
      (Series.fillna0 (Series.pct_change (close_column (x :: d))))
    = 0 :: rest.
Proof.
  cbn [signal_column close_column map]. rewrite position_column_cons.
  cbn [Series.pct_change Series.fillna0 map].
  change (PrimFloat.is_nan nan) with true. cbv iota.
  cbn [Series.zip_with]. change (0 * 0) with 0. eauto.
Qed.

Lemma equity_head x d :
  exists rest,
    Series.cumprod
      (map (PrimFloat.add 1)
         (Series.zip_with PrimFloat.mul
            (position_column (signal_column (x :: d)))
            (Series.fillna0 (Series.pct_change (close_column (x :: d))))))
    = 1 :: rest.
Proof.
  destruct (strategy_ret_head x d) as [rest ->].
  cbn [map]. change (1 + 0) with 1.
  unfold Series.cumprod. cbn [Series.cumprod_from].
  change (PrimFloat.is_nan 1) with false. cbv iota zeta.
  change (1 * 1) with 1. eauto.
Qed.

Lemma map_div_one xs : map (fun e => e / 1) xs = xs.
Proof.
  induction xs as [|x xs IH]; [reflexivity|].
  cbn [map]. now rewrite RoundingFacts.div_one, IH.
Qed.

(** X9.  [run_backtest] never returns.  It fails in three ways: with the
    exception of the strategy constructor, raised first; with an
    [IndexError] on a frame without rows; and on every other input with the
    [AttributeError] of line 81, once the report is computed. *)
Theorem run_backtest_outcome :
  forall (reg : Registry) (df : DataFrame) (name : string) (p : params),
    (forall b, run_backtest reg df name p <> Ok b) /\
    match create_strategy reg name p with
    | Raise e => run_backtest reg df name p = Raise e
    | OutOfFuel => run_backtest reg df name p = OutOfFuel
    | Ok s =>
        (df = [] -> run_backtest reg df name p = Raise IndexError) /\
        (df <> [] ->
         (exists rd, backtest_report reg df name p = Ok rd) /\
         exists msg, run_backtest reg df name p = Raise (AttributeError msg))
    end.
Proof.
  intros reg df name p. split; [intros b; apply run_backtest_not_ok|].
  pose proof (run_backtest_outcome_of reg df name p) as O.
  unfold run_backtest, backtest_report in *.
  destruct (create_strategy reg name p) as [s| |]; try reflexivity.
  cbn [bind] in *. split.
  - intros ->. reflexivity.
  - intros Hne. destruct df as [|r df]; [congruence|].
    unfold backtest_frame in *.
    cbn [equity_curve strategy_ret position merged] in *.
    set (d := merge_left (r :: df) (generate_signals s (r :: df))) in *.
    assert (Hd : d <> []) by apply merge_left_nonempty.
    destruct d as [|x d'] eqn:Ed; [congruence|].
    destruct (equity_head x d') as [rest Eq]. rewrite Eq in *.
    match type of O with
    | match bind (compute_metrics ?e ?t) _ with _ => _ end =>
        destruct (compute_metrics_ok e t ltac:(discriminate)) as [m Hm];
        rewrite Hm in *
    end.
    cbn [bind] in *. split; [eauto|exact O].
Qed.

(** X10.  The equity curve [run_backtest] computes for its report starts
    at exactly [1.0], has one value per merged row and at least one per
    price row, and the total return of the report is its last value
    minus 1. *)
Theorem run_backtest_equity :
  forall (reg : Registry) (df : DataFrame) (name : string) (p : params)
         (report : BacktestReport) (d : BacktestFrame),
    backtest_report reg df name p = Ok (report, d) ->
    (exists rest, equity_curve d = 1 :: rest) /\
    length (equity_curve d) = length (merged d) /\
    (length df <= length (equity_curve d))%nat /\
    total_return report = last (equity_curve d) nan - 1.
Proof.
  intros reg df name p report d H.
  destruct (backtest_report_inv _ _ _ _ _ _ H) as [s [_ [-> Hm]]].
  cbv zeta in Hm. unfold backtest_frame in *.
  cbn [equity_curve strategy_ret position merged] in *.
  set (dm := merge_left df (generate_signals s df)) in *.
  assert (Hl : length (Series.cumprod
                 (map (PrimFloat.add 1)
                    (Series.zip_with PrimFloat.mul
                       (position_column (signal_column dm))
                       (Series.fillna0 (Series.pct_change (close_column dm))))))
               = length dm)
    by apply equity_length.
  assert (Hd : exists x d', dm = x :: d').
  { destruct dm as [|x d']; [|eauto]. discriminate Hm. }
  destruct Hd as [x [d' Ed]]. rewrite Ed in *.
  destruct (equity_head x d') as [rest Eh]. rewrite Eh in *.
  split; [eauto|]. split; [exact Hl|]. split.
  - rewrite Hl, <- Ed. apply merge_left_length_ge.
  - unfold compute_metrics in Hm. injection Hm as Hm. rewrite <- Hm.
    cbn [total_return]. now rewrite map_div_one.
Qed.

Lemma run_backtest_equity_witness :
  exists report d rest,
    backtest_report REGISTRY sample_frame "sma_cross" fast1_slow2
    = Ok (report, d) /\
    equity_curve d = 1 :: rest.
Proof.
  assert (H : exists report d,
             backtest_report REGISTRY sample_frame "sma_cross" fast1_slow2
             = Ok (report, d))
    by (eexists; eexists; vm_compute; reflexivity).
  destruct H as [report [d H]].
  destruct (run_backtest_equity REGISTRY sample_frame "sma_cross" fast1_slow2
              report d H) as [[rest E] _].
  exists report, d, rest. now split.
Defined.

Lemma select_length mask : forall xs : list float,
  (length (Series.select mask xs) <= length xs)%nat.
Proof.
  induction mask as [|m mask IH]; intros [|x xs]; cbn [Series.select length];
    try lia.
  destruct m; cbn [length]; specialize (IH xs); lia.
Qed.

(** The first row never counts as a trade. *)
Lemma trade_mask_head x d :
  exists mask,
    map (fun c => F64.gt c 0)
      (Series.fillna0
         (map PrimFloat.abs
            (Series.diff (position_column (signal_column (x :: d))))))
    = false :: mask.
Proof.
  cbn [signal_column map].
  rewrite position_column_cons. cbn [Series.diff map Series.fillna0].
  change (PrimFloat.is_nan (PrimFloat.abs nan)) with true. cbv iota.
  change (F64.gt 0 0) with false. eauto.
Qed.

Lemma trade_returns_bound x d :
  (length
     (Series.select
        (map (fun c => F64.gt c 0)
           (Series.fillna0
              (map PrimFloat.abs
                 (Series.diff (position_column (signal_column (x :: d)))))))
        (Series.zip_with PrimFloat.mul
           (position_column (signal_column (x :: d)))
           (Series.fillna0 (Series.pct_change (close_column (x :: d))))))
   < length (x :: d))%nat.
Proof.
  pose proof (strategy_ret_length (x :: d)) as Ls.
  destruct (strategy_ret_head x d) as [rs Hrs]. rewrite Hrs in Ls |- *.
  destruct (trade_mask_head x d) as [mask ->].
  cbn [Series.select]. pose proof (select_length mask rs).
  cbn [length] in *. lia.
Qed.

(** X11.  In every report [run_backtest] computes, the number of trades
    is below the number of rows (the first row never trades), the maximum
    drawdown is a number and never positive, and the Sharpe ratio is not
    an infinity. *)
Theorem run_backtest_report :
  forall (reg : Registry) (df : DataFrame) (name : string) (p : params)
         (report : BacktestReport) (d : BacktestFrame),
    backtest_report reg df name p = Ok (report, d) ->
    (trades report < length (equity_curve d))%nat /\
    PrimFloat.leb (max_drawdown report) 0 = true /\
    PrimFloat.is_nan (max_drawdown report) = false /\
    PrimFloat.is_infinity (sharpe report) = false.
Proof.
  intros reg df name p report d H.
  destruct (backtest_report_inv _ _ _ _ _ _ H) as [s [_ [-> Hm]]].
  cbv zeta in Hm. unfold backtest_frame in *.
  cbn [equity_curve strategy_ret position merged] in *.
  set (dm := merge_left df (generate_signals s df)) in *.
  assert (Hl : length (Series.cumprod
                 (map (PrimFloat.add 1)
                    (Series.zip_with PrimFloat.mul
                       (position_column (signal_column dm))
                       (Series.fillna0 (Series.pct_change (close_column dm))))))
               = length dm)
    by apply equity_length.
  assert (Hd : exists x d', dm = x :: d').
  { destruct dm as [|x d']; [|eauto]. discriminate Hm. }
  destruct Hd as [x [d' Ed]]. rewrite Ed in *.
  destruct (equity_head x d') as [rest Eh]. rewrite Eh in *.
  split; [|split; [|split]].
  - rewrite Hl. unfold compute_metrics in Hm.
    injection Hm as Hm. rewrite <- Hm. cbn [trades].
    apply trade_returns_bound.
  - exact (proj1 (drawdown_le_zero 1 rest _ _ eq_refl eq_refl Hm)).
  - exact (proj2 (drawdown_le_zero 1 rest _ _ eq_refl eq_refl Hm)).
  - apply RoundingFacts.not_infinity_spec. intros sg.
    exact (RoundingFacts.compute_metrics_sharpe_finite _ _ _ Hm sg).
Qed.

Lemma run_backtest_report_witness :
  exists report d,
    backtest_report REGISTRY sample_frame "sma_cross" fast1_slow2
    = Ok (report, d) /\
    (trades report < 6)%nat /\
    PrimFloat.leb (max_drawdown report) 0 = true.
Proof.
  assert (H : exists report d,
             backtest_report REGISTRY sample_frame "sma_cross" fast1_slow2
             = Ok (report, d) /\
             length (equity_curve d) = 6%nat)
    by (eexists; eexists; split; vm_compute; reflexivity).
  destruct H as [report [d [H L]]].
  destruct (run_backtest_report REGISTRY sample_frame "sma_cross" fast1_slow2
              report d H) as [T [D _]].
  exists report, d. rewrite L in T. auto.
Defined.


(** *** Frames with distinct timestamps *)

(** X12.  For a strategy that answers one signal per row, on a frame with
    distinct timestamps, the frame [run_backtest] derives has the rows of
    the price frame in its order (the merge neither adds nor drops a
    row), and the equity curve has one value per row. *)
Theorem run_backtest_aligned :
  forall (reg : Registry) (df : DataFrame) (name : string) (p : params)
         (report : BacktestReport) (d : BacktestFrame),
    aligned reg -> NoDup (map timestamp df) ->
    backtest_report reg df name p = Ok (report, d) ->
    timestamp_column (merged d) = map timestamp df /\
    close_column (merged d) = map close df /\
    length (equity_curve d) = length df.
Proof.
  intros reg df name p report d Ha Hnd H.
  destruct (backtest_report_inv _ _ _ _ _ _ H) as [s [Hs [-> _]]].
  unfold backtest_frame. cbn [merged equity_curve].
  destruct (merged_columns df (generate_signals s df)
              (Ha _ _ _ _ Hs) Hnd) as [T [C [_ L]]].
  split; [exact T|]. split; [exact C|].
  now rewrite equity_length.
Qed.

Lemma run_backtest_aligned_witness :
  exists report d,
    backtest_report REGISTRY sample_frame "sma_cross" fast1_slow2
    = Ok (report, d) /\
    timestamp_column (merged d) = [0; 1; 2; 3; 4; 5]%Z /\
    length (equity_curve d) = 6%nat.
Proof.
  assert (H : exists report d,
             backtest_report REGISTRY sample_frame "sma_cross" fast1_slow2
             = Ok (report, d))
    by (eexists; eexists; vm_compute; reflexivity).
  destruct H as [report [d H]]. exists report, d. split; [exact H|].
  destruct (run_backtest_aligned REGISTRY sample_frame "sma_cross" fast1_slow2
              report d registry_aligned) as [T [_ L]]; [|exact H|].
  - repeat constructor; cbn; intuition lia.
  - split; [exact T|exact L].
Defined.

(** *** A strategy that stays out of the market *)

Lemma removelast_repeat {A} (a : A) n :
  removelast (repeat a (S n)) = repeat a n.
Proof.
  induction n as [|n IH]; [reflexivity|].
  change (repeat a (S (S n))) with (a :: repeat a (S n)).
  change (removelast (a :: repeat a (S n)))
    with (a :: removelast (repeat a (S n))).
  now rewrite IH.
Qed.

Lemma position_column_zeros n :
  position_column (repeat 0%Z n) = repeat 0 n.
Proof.
  destruct n as [|n]; [reflexivity|].
  change (repeat 0%Z (S n)) with (0%Z :: repeat 0%Z n).
  rewrite position_column_cons.
  change (0%Z :: repeat 0%Z n) with (repeat 0%Z (S n)).
  rewrite removelast_repeat. cbn [repeat]. f_equal.
  now apply map_repeat.
Qed.

(** Nothing held times a finite return leaves the equity where it is. *)
Lemma one_plus_zero_times r :
  PrimFloat.is_nan r = false -> PrimFloat.is_infinity r = false ->
  1 + 0 * r = 1.
Proof.
  intros Hn Hi. apply Prim2SF_inj. rewrite add_spec, mul_spec.
  apply not_nan_spec in Hn. rewrite RoundingFacts.not_infinity_spec in Hi.
  change (Prim2SF 0) with (S754_zero false).
  change (Prim2SF 1) with Rounding.sf_one.
  destruct (Prim2SF r) as [s|s| |s m e]; try congruence.
  - destruct s; reflexivity.
  - destruct s; reflexivity.
Qed.

Lemma flat_equity ret :
  Forall (fun r => PrimFloat.is_nan r = false /\
                   PrimFloat.is_infinity r = false) ret ->
  map (PrimFloat.add 1)
      (Series.zip_with PrimFloat.mul (repeat 0 (length ret)) ret)
  = repeat 1 (length ret).
Proof.
  induction 1 as [|r ret [Hn Hi] _ IH]; [reflexivity|].
  cbn [length repeat Series.zip_with map].
  now rewrite one_plus_zero_times, IH.
Qed.

Lemma fillna0_finite xs :
  Forall (fun r => PrimFloat.is_infinity r = false) xs ->
  Forall (fun r => PrimFloat.is_nan r = false /\
                   PrimFloat.is_infinity r = false) (Series.fillna0 xs).
Proof.
  induction 1 as [|x xs Hx _ IH]; [constructor|].
  cbn [Series.fillna0 map]. constructor; [|exact IH].
  destruct (PrimFloat.is_nan x) eqn:E; [split; reflexivity|now split].
Qed.

Lemma diff_from_zeros n : Series.diff_from 0 (repeat 0 n) = repeat 0 n.
Proof.
  induction n as [|n IH]; [reflexivity|].
  cbn [repeat Series.diff_from]. change (0 - 0) with 0. now rewrite IH.
Qed.

Lemma trade_mask_zeros n :
  map (fun c => F64.gt c 0)
      (Series.fillna0 (map PrimFloat.abs (Series.diff (repeat 0 n))))
  = repeat false n.
Proof.
  destruct n as [|n]; [reflexivity|].
  cbn [repeat Series.diff]. rewrite diff_from_zeros.
  cbn [map Series.fillna0].
  change (PrimFloat.is_nan (PrimFloat.abs nan)) with true. cbv iota.
  change (F64.gt 0 0) with false. f_equal.
  rewrite (map_repeat PrimFloat.abs 0 0) by reflexivity.
  fold (Series.fillna0 (repeat 0 n)). rewrite fillna0_zeros.
  now apply map_repeat.
Qed.

Lemma select_none n : forall xs : list float,
  Series.select (repeat false n) xs = [].
Proof.
  induction n as [|n IH]; intros [|x xs]; cbn [repeat Series.select];
    auto.
Qed.

Lemma cummax_from_ones n :
  Series.cummax_from 1 (repeat 1 n) = repeat 1 n.
Proof.
  induction n as [|n IH]; [reflexivity|].
  cbn [repeat Series.cummax_from].
  change (PrimFloat.is_nan 1) with false. cbv iota zeta.
  change (PrimFloat.ltb 1 1) with false. cbv iota. now rewrite IH.
Qed.

Lemma cummax_ones n : Series.cummax (repeat 1 n) = repeat 1 n.
Proof.
  destruct n as [|n]; [reflexivity|].
  unfold Series.cummax. cbn [repeat Series.cummax_from].
  change (PrimFloat.is_nan 1) with false. cbv iota zeta.
  change (PrimFloat.ltb neg_infinity 1) with true. cbv iota.
  now rewrite cummax_from_ones.
Qed.

Lemma drawdown_ones n :
  Series.zip_with (fun c m => c / m - 1) (repeat 1 n) (repeat 1 n)
  = repeat 0 n.
Proof.
  induction n as [|n IH]; [reflexivity|].
  cbn [repeat Series.zip_with]. change (1 / 1 - 1) with 0. now rewrite IH.
Qed.

Lemma min_zeros n : Series.min (repeat 0 (S n)) = 0.
Proof.
  unfold Series.min. rewrite dropna_zeros. cbn [repeat].
  induction n as [|n IH]; [reflexivity|].
  cbn [repeat fold_left]. change (PrimFloat.ltb 0 0) with false. exact IH.
Qed.

Lemma compute_metrics_ones n :
  compute_metrics (repeat 1 (S n)) [] = Ok (mkReport 0 0 0 0 0).
Proof.
  unfold compute_metrics. rewrite returns_of_ones.
  rewrite (zero_or_nan_guard _ (std_zeros (S n))).
  change (repeat 1 (S n)) with (1 :: repeat 1 n) at 1.
  cbv iota beta.
  rewrite cum_of_ones, last_ones, cummax_ones, drawdown_ones, min_zeros.
  reflexivity.
Qed.

(** X13.  [sma_cross] with equal windows stays out of the market: on a
    frame with distinct timestamps and no infinite price change, the
    equity [run_backtest] computes is [1.0] on every row and its report is
    all zeros (no return, no drawdown, no trade). *)
Theorem equal_windows_stay_flat :
  forall (w : Z) (df : DataFrame) (report : BacktestReport)
         (d : BacktestFrame),
    NoDup (map timestamp df) ->
    Forall (fun r => PrimFloat.is_infinity r = false)
           (Series.pct_change (map close df)) ->
    backtest_report REGISTRY df "sma_cross"
                    [("fast"%string, PyInt w); ("slow"%string, PyInt w)]
    = Ok (report, d) ->
    equity_curve d = repeat 1 (length df) /\
    report = mkReport 0 0 0 0 0.
Proof.
  intros w df report d Hnd Hfin H.
  destruct (backtest_report_inv _ _ _ _ _ _ H) as [s [Hs [-> Hm]]].
  cbv zeta in Hm.
  assert (Es : s = mkStrategy (SmaCross.generate_signals w w)).
  { rewrite create_sma_cross in Hs. unfold SmaCross.init in Hs.
    cbn in Hs. destruct (w <? 1)%Z; [discriminate|].
    cbn in Hs. now injection Hs. }
  subst s. unfold backtest_frame in *.
  cbn [generate_signals equity_curve strategy_ret position merged] in *.
  set (sig := SmaCross.generate_signals w w df) in *.
  destruct (merged_columns df sig
              (SmaCrossFacts.generate_signals_timestamps w w df) Hnd)
    as [_ [Ec [Esig L]]].
  assert (Ls : length sig = length df).
  { rewrite <- (length_map fst sig). unfold sig.
    now rewrite SmaCrossFacts.generate_signals_timestamps, length_map. }
  assert (Z0 : signal_column (merge_left df sig) = repeat 0%Z (length df)).
  { rewrite Esig, <- Ls, <- (length_map snd sig).
    apply Forall_eq_repeat. apply Forall_map.
    unfold sig, SmaCross.generate_signals.
    eapply Forall_impl; [|apply signals_same].
    intros x Hx. now symmetry. }
  rewrite Z0, Ec, position_column_zeros in *.
  set (ret := Series.fillna0 (Series.pct_change (map close df))) in *.
  assert (Lr : length ret = length df).
  { unfold ret. now rewrite fillna0_length, pct_change_length, length_map. }
  assert (Eq : Series.cumprod
                 (map (PrimFloat.add 1)
                    (Series.zip_with PrimFloat.mul (repeat 0 (length df)) ret))
               = repeat 1 (length df)).
  { rewrite <- Lr at 1.
    rewrite (flat_equity ret (fillna0_finite _ Hfin)).
    now rewrite cumprod_ones, Lr. }
  rewrite Eq in *. split; [reflexivity|].
  rewrite trade_mask_zeros, select_none in Hm.
  destruct df as [|r df]; [discriminate Hm|].
  cbn [length] in Hm. rewrite compute_metrics_ones in Hm. now injection Hm.
Qed.

Lemma equal_windows_stay_flat_witness :
  exists report d,
    backtest_report REGISTRY sample_frame "sma_cross"
      [("fast"%string, PyInt 2); ("slow"%string, PyInt 2)] = Ok (report, d) /\
    equity_curve d = repeat 1 6 /\ report = mkReport 0 0 0 0 0.
Proof.
  assert (H : exists report d,
             backtest_report REGISTRY sample_frame "sma_cross"
               [("fast"%string, PyInt 2); ("slow"%string, PyInt 2)]
             = Ok (report, d))
    by (eexists; eexists; vm_compute; reflexivity).
  destruct H as [report [d H]]. exists report, d. split; [exact H|].
  apply (equal_windows_stay_flat 2 sample_frame report d); [| |exact H].
  - repeat constructor; cbn; intuition lia.
  - repeat constructor.
Defined.


(** ** The parameter grid *)

Lemma flat_map_length_const {A B} (f : A -> list B) (xs : list A) n :
  (forall x, length (f x) = n) ->
  length (flat_map f xs) = (length xs * n)%nat.
Proof.
  intros H. induction xs as [|x xs IH]; [reflexivity|].
  cbn [flat_map length]. rewrite length_app, H, IH. lia.
Qed.

Lemma cartesian_length ps : length (cartesian ps) = grid_size ps.
Proof.
  induction ps as [|[k vs] ps IH]; [reflexivity|].
  cbn [cartesian grid_size fold_right snd]. fold (grid_size ps).
  rewrite (flat_map_length_const _ vs (grid_size ps)); [reflexivity|].
  intros v. now rewrite length_map.
Qed.

Lemma grid_size_perm ps ps' :
  Permutation ps ps' -> grid_size ps = grid_size ps'.
Proof.
  induction 1 as [|x l l' _ IH|x y l|l l' l'' _ IH1 _ IH2].
  - reflexivity.
  - cbn [grid_size fold_right]. fold (grid_size l) (grid_size l').
    now rewrite IH.
  - cbn [grid_size fold_right]. lia.
  - congruence.
Qed.

Lemma cartesian_In ps : forall p,
  In p (cartesian ps) <-> drawn_from ps p.
Proof.
  unfold drawn_from.
  induction ps as [|[k vs] ps IH]; intros p; cbn [cartesian].
  - split.
    + intros [<-|[]]. constructor.
    + intros H. inversion H. now left.
  - rewrite in_flat_map. split.
    + intros [v [Hv Hp]]. apply in_map_iff in Hp.
      destruct Hp as [q [<- Hq]]. constructor; [now split|].
      now apply IH.
    + intros H. inversion H as [|[k' v] e q l [Hk Hv] Hq]; subst.
      cbn [fst snd] in *. subst k'. exists v. split; [exact Hv|].
      apply in_map. now apply IH.
Qed.

(** X14.  For a parameter space with distinct names, [_grid] yields as
    many combinations as the product of the numbers of candidates; it
    yields none as soon as one parameter has no candidate. *)
Theorem grid_size_is_product :
  forall param_space : ParamSpace,
    NoDup (map fst param_space) ->
    length (_grid param_space) = grid_size param_space /\
    (forall k, In (k, []) param_space -> _grid param_space = []).
Proof.
  intros ps Hnd.
  assert (L : length (_grid ps) = grid_size ps).
  { rewrite (grid_is_sorted_cartesian ps Hnd), cartesian_length.
    symmetry. apply grid_size_perm, sort_space_perm. }
  split; [exact L|].
  intros k Hk. apply length_zero_iff_nil. rewrite L.
  clear L Hnd. induction ps as [|[k' vs] ps IH]; [contradiction|].
  cbn [grid_size fold_right snd]. fold (grid_size ps).
  destruct Hk as [E|Hk].
  - injection E as -> ->. reflexivity.
  - rewrite (IH Hk). lia.
Qed.

Lemma grid_size_is_product_witness :
  length (_grid sample_space) = 4%nat.
Proof.
  refine (proj1 (grid_size_is_product sample_space _)).
  repeat constructor; cbn; intuition discriminate.
Defined.

(** X15.  For a parameter space with distinct names, the combinations
    [_grid] yields are exactly the dictionaries that bind the sorted
    parameter names, in that order, each to one of its candidates: none is
    left out and nothing else is tried. *)
Theorem grid_is_exhaustive :
  forall (param_space : ParamSpace) (p : params),
    NoDup (map fst param_space) ->
    (In p (_grid param_space) <-> drawn_from (sort_space param_space) p).
Proof.
  intros ps p Hnd. rewrite (grid_is_sorted_cartesian ps Hnd).
  apply cartesian_In.
Qed.

Lemma grid_is_exhaustive_witness :
  In [("fast"%string, PyInt 2); ("slow"%string, PyInt 3)] (_grid sample_space).
Proof.
  apply (grid_is_exhaustive sample_space).
  - repeat constructor; cbn; intuition discriminate.
  - change (sort_space sample_space)
      with [("fast"%string, [PyInt 1; PyInt 2]);
            ("slow"%string, [PyInt 2; PyInt 3])].
    unfold drawn_from.
    constructor; [split; [reflexivity|cbn; auto]|].
    constructor; [split; [reflexivity|cbn; auto]|].
    constructor.
Defined.


(** ** Walk-forward *)

(** X17.  The in-sample search of a window, started as [run_walkforward]
    starts it, ends either without a winner and with the initial [-1e9],
    or with a combination of the grid and a Sharpe ratio above [-1e9]; so
    the best Sharpe ratio is never NaN and never below [-1e9]. *)
Theorem segment_winner_invariant :
  forall (reg : Registry) (name : string) (is_df : DataFrame)
         (grid : list params) (bs : float) (bp : option params),
    grid_search reg name is_df grid F64.sentinel None = Ok (bs, bp) ->
    ((bp = None /\ bs = F64.sentinel) \/
     (exists p, bp = Some p /\ In p grid /\
                F64.gt bs F64.sentinel = true)) /\
    PrimFloat.leb F64.sentinel bs = true /\
    PrimFloat.is_nan bs = false.
Proof.
  intros reg name is_df grid bs bp G.
  apply grid_search_winner in G.
  destruct G as [[-> [-> _]]|[k [p [m [Hk [_ [-> [-> [Hg _]]]]]]]]].
  - split; [now left|]. split; reflexivity.
  - split.
    + right. exists p. split; [reflexivity|]. split; [|exact Hg].
      eapply nth_error_In. exact Hk.
    + unfold F64.gt in Hg. split; [now apply ltb_leb|].
      now destruct (ltb_not_nan _ _ Hg).
Qed.

Lemma segment_winner_invariant_witness :
  exists bs bp,
    grid_search REGISTRY "sma_cross" trend_frame (_grid sample_space)
                F64.sentinel None = Ok (bs, bp) /\
    PrimFloat.is_nan bs = false.
Proof.
  assert (H : exists bs bp,
             grid_search REGISTRY "sma_cross" trend_frame (_grid sample_space)
                         F64.sentinel None = Ok (bs, bp))
    by (eexists; eexists; vm_compute; reflexivity).
  destruct H as [bs [bp H]]. exists bs, bp. split; [exact H|].
  exact (proj2 (proj2 (segment_winner_invariant REGISTRY "sma_cross"
                         trend_frame (_grid sample_space) bs bp H))).
Defined.


(** *** The sorted series *)

Lemma insert_row_perm r rs : Permutation (r :: rs) (insert_row r rs).
Proof.
  induction rs as [|r' rs IH]; [reflexivity|].
  cbn [insert_row]. destruct (timestamp r <=? timestamp r')%Z; [reflexivity|].
  rewrite perm_swap. now apply perm_skip.
Qed.

Lemma sort_values_perm df : Permutation df (sort_values df).
Proof.
  induction df as [|r df IH]; [reflexivity|].
  cbn [sort_values fold_right]. fold (sort_values df).
  rewrite <- insert_row_perm. now apply perm_skip.
Qed.

Lemma insert_row_sorted r rs :
  Sorted time_le rs -> Sorted time_le (insert_row r rs).
Proof.
  induction 1 as [|r' rs Hs IH Hh]; [repeat constructor|].
  cbn [insert_row]. destruct (Z.leb_spec (timestamp r) (timestamp r')) as [E|E].
  - constructor; [now constructor|]. constructor. exact E.
  - constructor; [exact IH|].
    assert (Hk : time_le r' r) by (unfold time_le; lia).
    destruct rs as [|r'' rs]; cbn [insert_row]; [now constructor|].
    destruct (timestamp r <=? timestamp r'')%Z; constructor; [exact Hk|].
    now inversion Hh.
Qed.

Lemma sort_values_is_sorted df : Sorted time_le (sort_values df).
Proof.
  induction df as [|r df IH]; [constructor|].
  cbn [sort_values fold_right]. now apply insert_row_sorted.
Qed.

Lemma time_le_trans : Relations_1.Transitive time_le.
Proof. intros a b c. unfold time_le. lia. Qed.

Lemma sort_values_strongly_sorted df :
  StronglySorted time_le (sort_values df).
Proof.
  apply Sorted_StronglySorted; [exact time_le_trans|].
  apply sort_values_is_sorted.
Qed.

Lemma head_le_member (l : DataFrame) r rest x :
  StronglySorted time_le l -> l = r :: rest -> In x l -> time_le r x.
Proof.
  intros S -> Hx. inversion S as [|? ? _ Hf]; subst.
  destruct Hx as [<-|Hx]; [unfold time_le; lia|].
  rewrite Forall_forall in Hf. now apply Hf.
Qed.


(** *** The order of the input rows *)

Lemma key_inj (l : DataFrame) x y :
  NoDup (map timestamp l) -> In x l -> In y l ->
  timestamp x = timestamp y -> x = y.
Proof.
  induction l as [|a l IH]; intros Hnd Hx Hy E; [contradiction|].
  cbn [map] in Hnd. inversion Hnd as [|? ? Hn Hnd']; subst.
  destruct Hx as [->|Hx], Hy as [->|Hy]; auto.
  - exfalso. apply Hn. rewrite E. now apply in_map.
  - exfalso. apply Hn. rewrite <- E. now apply in_map.
Qed.

(** Two sorted arrangements of rows with distinct timestamps are one. *)
Lemma sorted_unique (l1 : DataFrame) : forall l2,
  NoDup (map timestamp l1) ->
  StronglySorted time_le l1 -> StronglySorted time_le l2 ->
  Permutation l1 l2 -> l1 = l2.
Proof.
  induction l1 as [|a l1 IH]; intros l2 Hnd S1 S2 P.
  - apply Permutation_nil in P. now subst.
  - destruct l2 as [|b l2];
      [apply Permutation_sym, Permutation_nil in P; discriminate|].
    assert (E : a = b).
    { apply (key_inj (a :: l1)); [exact Hnd|now left| |].
      - apply (Permutation_in b (Permutation_sym P)). now left.
      - assert (Hab : time_le a b).
        { apply (head_le_member (a :: l1) a l1 b S1 eq_refl).
          apply (Permutation_in b (Permutation_sym P)). now left. }
        assert (Hba : time_le b a).
        { apply (head_le_member (b :: l2) b l2 a S2 eq_refl).
          apply (Permutation_in a P). now left. }
        unfold time_le in *. lia. }
    subst b. f_equal. apply Permutation_cons_inv in P.
    inversion S1; inversion S2; subst. cbn [map] in Hnd.
    apply IH; auto. now inversion Hnd.
Qed.

Lemma sort_values_order df df' :
  NoDup (map timestamp df) -> Permutation df df' ->
  sort_values df = sort_values df'.
Proof.
  intros Hnd P. apply sorted_unique.
  - eapply Permutation_NoDup; [|exact Hnd].
    apply Permutation_map, sort_values_perm.
  - apply sort_values_strongly_sorted.
  - apply sort_values_strongly_sorted.
  - rewrite <- (sort_values_perm df), <- (sort_values_perm df'). exact P.
Qed.

(** X21.  [run_walkforward] sorts the frame by timestamp first: for rows
    with distinct timestamps its outcome does not depend on the order in
    which the rows are given. *)
Theorem walkforward_ignores_row_order :
  forall (reg : Registry) (name : string) (param_space : ParamSpace)
         (insample_days outsample_days : Z) (df df' : DataFrame),
    NoDup (map timestamp df) -> Permutation df df' ->
    run_walkforward reg name param_space insample_days outsample_days df
    = run_walkforward reg name param_space insample_days outsample_days df'.
Proof.
  intros reg name ps isd osd df df' Hnd P. unfold run_walkforward.
  now rewrite (sort_values_order df df' Hnd P).
Qed.

Lemma walkforward_ignores_row_order_witness :
  run_walkforward REGISTRY "sma_cross" sample_space 3 1 sample_frame
  = run_walkforward REGISTRY "sma_cross" sample_space 3 1 (rev sample_frame).
Proof.
  apply walkforward_ignores_row_order.
  - repeat constructor; cbn; intuition lia.
  - apply Permutation_rev.
Defined.


(** *** What a backtest knows at each row *)

Lemma shift1_firstn n (xs : list float) :
  firstn n (Series.shift1 xs) = Series.shift1 (firstn n xs).
Proof.
  destruct xs as [|x r]; [now destruct n|].
  destruct n as [|n]; [reflexivity|].
  unfold Series.shift1. cbn [firstn]. f_equal.
  change (x :: firstn n r) with (firstn (S n) (x :: r)).
  rewrite !removelast_firstn_len, !firstn_firstn, length_firstn.
  f_equal. cbn [length]. lia.
Qed.

Lemma pct_change_from_firstn n : forall prev xs,
  firstn n (Series.pct_change_from prev xs)
  = Series.pct_change_from prev (firstn n xs).
Proof.
  induction n as [|n IH]; intros prev xs; [reflexivity|].
  destruct xs as [|x r]; [reflexivity|].
  cbn [firstn Series.pct_change_from]. now rewrite IH.
Qed.

Lemma pct_change_firstn n xs :
  firstn n (Series.pct_change xs) = Series.pct_change (firstn n xs).
Proof.
  destruct xs as [|x r]; [now destruct n|].
  destruct n as [|n]; [reflexivity|].
  cbn [firstn Series.pct_change]. now rewrite pct_change_from_firstn.
Qed.

Lemma zip_with_firstn f n : forall xs ys,
  firstn n (Series.zip_with f xs ys)
  = Series.zip_with f (firstn n xs) (firstn n ys).
Proof.
  induction n as [|n IH]; intros xs ys; [reflexivity|].
  destruct xs as [|x xs]; [reflexivity|].
  destruct ys as [|y ys]; [reflexivity|].
  cbn [firstn Series.zip_with]. now rewrite IH.
Qed.

Lemma cumprod_from_firstn n : forall acc xs,
  firstn n (Series.cumprod_from acc xs)
  = Series.cumprod_from acc (firstn n xs).
Proof.
  induction n as [|n IH]; intros acc xs; [reflexivity|].
  destruct xs as [|x xs]; [reflexivity|].
  cbn [firstn Series.cumprod_from].
  destruct (PrimFloat.is_nan x); cbn [firstn]; now rewrite IH.
Qed.

Lemma position_column_firstn n signal :
  firstn n (position_column signal) = position_column (firstn n signal).
Proof.
  unfold position_column, Series.fillna0.
  now rewrite firstn_map, shift1_firstn, firstn_map.
Qed.

(** The equity column of a merged frame, from its signal and close
    columns. *)
Local Abbreviation equity_of signal closes :=
  (Series.cumprod
     (map (PrimFloat.add 1)
        (Series.zip_with PrimFloat.mul (position_column signal)
           (Series.fillna0 (Series.pct_change closes))))).

Lemma equity_of_firstn n signal closes :
  firstn n (equity_of signal closes)
  = equity_of (firstn n signal) (firstn n closes).
Proof.
  unfold Series.cumprod, Series.fillna0.
  now rewrite cumprod_from_firstn, firstn_map, zip_with_firstn,
    position_column_firstn, firstn_map, pct_change_firstn.
Qed.

Lemma signals_prefix fast slow (past future : DataFrame) :
  (1 <= fast)%Z -> (1 <= slow)%Z ->
  firstn (length past)
         (SmaCross.generate_signals fast slow (past ++ future))
  = SmaCross.generate_signals fast slow past.
Proof.
  intros Hf Hs. unfold SmaCross.generate_signals.
  rewrite signals_firstn, !map_app.
  rewrite <- (length_map close past) at 2 3.
  rewrite !rolling_mean_app by assumption.
  rewrite <- (length_map timestamp past) at 1.
  rewrite firstn_app, Nat.sub_diag, firstn_all. cbn [firstn].
  now rewrite app_nil_r.
Qed.

Lemma firstn_prefix {A} (xs ys : list A) : firstn (length xs) (xs ++ ys) = xs.
Proof.
  rewrite firstn_app, Nat.sub_diag, firstn_all. cbn [firstn].
  now rewrite app_nil_r.
Qed.

(** X23.  A backtest of [sma_cross] never looks ahead: on a frame with
    distinct timestamps, the positions, the equity values and the
    timestamps [run_backtest] derives for the first rows are those it
    derives from these rows alone, whatever rows follow. *)
Theorem backtest_never_looks_ahead :
  forall (fast slow : Z) (past future : DataFrame),
    (1 <= fast)%Z -> (1 <= slow)%Z ->
    NoDup (map timestamp (past ++ future)) ->
    let strat := mkStrategy (SmaCross.generate_signals fast slow) in
    let d := backtest_frame strat past in
    let d' := backtest_frame strat (past ++ future) in
    position d = firstn (length past) (position d') /\
    equity_curve d = firstn (length past) (equity_curve d') /\
    timestamp_column (merged d)
    = firstn (length past) (timestamp_column (merged d')).
Proof.
  intros fast slow past future Hf Hs Hnd strat d d'.
  unfold d, d', backtest_frame, strat.
  cbn [generate_signals position equity_curve merged].
  assert (Hnp : NoDup (map timestamp past)).
  { rewrite map_app in Hnd. now apply NoDup_app_remove_r in Hnd. }
  destruct (merged_columns (past ++ future)
              (SmaCross.generate_signals fast slow (past ++ future))
              (SmaCrossFacts.generate_signals_timestamps _ _ _) Hnd)
    as [T' [C' [S' _]]].
  destruct (merged_columns past (SmaCross.generate_signals fast slow past)
              (SmaCrossFacts.generate_signals_timestamps _ _ _) Hnp)
    as [T [C [S L]]].
  split; [|split].
  - rewrite position_column_firstn, S', S, firstn_map.
    now rewrite signals_prefix.
  - rewrite equity_of_firstn, S', C', S, C, !firstn_map.
    rewrite signals_prefix by assumption. now rewrite firstn_prefix.
  - rewrite T', T, firstn_map. now rewrite firstn_prefix.
Qed.

Lemma backtest_never_looks_ahead_witness :
  equity_curve
    (backtest_frame (mkStrategy (SmaCross.generate_signals 1 2))
                    (firstn 4 sample_frame))
  = firstn 4
      (equity_curve
         (backtest_frame (mkStrategy (SmaCross.generate_signals 1 2))
                         sample_frame)).
Proof.
  destruct (backtest_never_looks_ahead 1 2 (firstn 4 sample_frame)
              (skipn 4 sample_frame) ltac:(lia) ltac:(lia)) as [_ [E _]].
  - repeat constructor; cbn; intuition lia.
  - exact E.
Defined.
